(** * The streamed-chat core of the landing page (frontend/landing/src/App.jsx)

    A shallow embedding of the client-side chat subsystem of [App.jsx]:
    the markdown-to-sections parser ([inlineClean], [parseAssistantSections],
    [normalizeReferences]), the line decoder of the read loop, the event
    dispatcher ([processEventLine]), the conversation state machine
    ([patchAssistantMessage] and the three mutators, [sendMessage]) and the
    render functions ([renderAssistantMessage], [renderMessageContent]).

    JavaScript strings are sequences of UTF-16 code units; a code unit is an
    [N].  The platform functions the source calls ([trim], [split],
    [startsWith], [toLowerCase], the two regular expressions, [TextDecoder])
    are modelled on code units after ECMA-262 and the WHATWG Encoding
    standard.  [JSON.parse] is a parameter of the model; its results are
    JSON values, on which the dispatcher reads properties as JavaScript
    does.  The transport is what [sendMessage] observes of it: how [fetch]
    settles, the status, the body text, and the buffers the reader delivers
    before it is done or fails. *)

From Stdlib Require Import String Ascii List NArith ZArith Bool Lia.
Import ListNotations.
Local Open Scope N_scope.
Local Open Scope list_scope.

(** ** JavaScript strings *)

Module JsString.

Definition jsstring := list N.

(** ASCII literal: one code unit per character of the Rocq string. *)
Fixpoint lit (s : string) : jsstring :=
  match s with
  | EmptyString => []
  | String a s' => N_of_ascii a :: lit s'
  end.

Fixpoint eqb (a b : jsstring) : bool :=
  match a, b with
  | [], [] => true
  | x :: a', y :: b' => (x =? y) && eqb a' b'
  | _, _ => false
  end.

(** ECMA-262 WhiteSpace and LineTerminator code points: what [trim] strips
    and what [\s] matches.  All of them lie in the basic plane. *)
Definition isLineTerminator (c : N) : bool :=
  (c =? 10) || (c =? 13) || (c =? 0x2028) || (c =? 0x2029).

Definition isWhiteSpace (c : N) : bool :=
  (c =? 9) || (c =? 11) || (c =? 12) || (c =? 32) || (c =? 0xA0) ||
  (c =? 0x1680) || ((0x2000 <=? c) && (c <=? 0x200A)) ||
  (c =? 0x202F) || (c =? 0x205F) || (c =? 0x3000) || (c =? 0xFEFF).

Definition isSpace (c : N) : bool := isWhiteSpace c || isLineTerminator c.

Fixpoint trimStart (s : jsstring) : jsstring :=
  match s with
  | c :: s' => if isSpace c then trimStart s' else s
  | [] => []
  end.

Definition trimEnd (s : jsstring) : jsstring := rev (trimStart (rev s)).

(** [String.prototype.trim] *)
Definition trim (s : jsstring) : jsstring := trimEnd (trimStart s).

(** [s.startsWith(p)] *)
Fixpoint startsWith (s p : jsstring) {struct p} : bool :=
  match p, s with
  | [], _ => true
  | x :: p', y :: s' => (x =? y) && startsWith s' p'
  | _ :: _, [] => false
  end.

(** [s.slice(n)] for a non-negative [n] *)
Definition slice (n : nat) (s : jsstring) : jsstring := skipn n s.

(** [s.split(sep)] for a one-unit separator: the segments between the
    occurrences of [sep]; never empty. *)
Fixpoint split (sep : N) (s : jsstring) : list jsstring :=
  match s with
  | [] => [[]]
  | c :: s' =>
      if c =? sep then [] :: split sep s'
      else match split sep s' with
           | seg :: segs => (c :: seg) :: segs
           | [] => [[c]]
           end
  end.

(** [parts.join(sep)] *)
Fixpoint join (sep : jsstring) (parts : list jsstring) : jsstring :=
  match parts with
  | [] => []
  | [p] => p
  | p :: ps => p ++ sep ++ join sep ps
  end.

(** [String.prototype.toLowerCase], unit by unit.  The only code units whose
    lower-case image contains an ASCII unit are the ASCII capitals, U+0130
    (to "i" followed by U+0307) and U+212A KELVIN SIGN (to "k"); every other
    unit is mapped to non-ASCII units.  The source only tests the result
    with [startsWith] against an ASCII literal, which cannot tell those
    other images from the unit itself, so they are left in place. *)
Definition lowerUnit (c : N) : jsstring :=
  if (65 <=? c) && (c <=? 90) then [c + 32]
  else if c =? 0x130 then [0x69; 0x307]
  else if c =? 0x212A then [0x6B]
  else [c].

Definition toLowerCase (s : jsstring) : jsstring := flat_map lowerUnit s.

End JsString.
Import JsString.

(** ** Regular expressions of the source

    A backtracking matcher in continuation-passing style, with the priority
    order of ECMA-262: a greedy quantifier tries the longest repetition
    first, a lazy one the shortest; the first successful branch wins.  A
    continuation receives the text matched by the quantifier and the rest
    of the input. *)

Module Regex.

Section Matcher.
Context {R : Type}.

(** one literal code unit *)
Definition unit_ (c : N) (k : jsstring -> option R) (s : jsstring) : option R :=
  match s with
  | x :: s' => if x =? c then k s' else None
  | [] => None
  end.

(** a literal string *)
Fixpoint str_ (p : jsstring) (k : jsstring -> option R) (s : jsstring) : option R :=
  match p with
  | [] => k s
  | c :: p' => unit_ c (str_ p' k) s
  end.

(** [a|b] *)
Definition alt_ (a b : (jsstring -> option R) -> jsstring -> option R)
    (k : jsstring -> option R) (s : jsstring) : option R :=
  match a k s with
  | Some r => Some r
  | None => b k s
  end.

(** [a?] (greedy) *)
Definition opt_ (a : (jsstring -> option R) -> jsstring -> option R)
    (k : jsstring -> option R) (s : jsstring) : option R :=
  alt_ a (fun k' => k') k s.

(** [[cls]*], greedy: [acc] is the text already consumed *)
Fixpoint star_greedy (cls : N -> bool) (k : jsstring -> jsstring -> option R)
    (acc s : jsstring) : option R :=
  match s with
  | c :: s' =>
      if cls c then
        match star_greedy cls k (acc ++ [c]) s' with
        | Some r => Some r
        | None => k acc s
        end
      else k acc s
  | [] => k acc s
  end.

(** [[cls]+], greedy *)
Definition plus_greedy (cls : N -> bool) (k : jsstring -> jsstring -> option R)
    (s : jsstring) : option R :=
  match s with
  | c :: s' => if cls c then star_greedy cls k [c] s' else None
  | [] => None
  end.

(** [[cls]*?], lazy *)
Fixpoint star_lazy (cls : N -> bool) (k : jsstring -> jsstring -> option R)
    (acc s : jsstring) : option R :=
  match k acc s with
  | Some r => Some r
  | None =>
      match s with
      | c :: s' => if cls c then star_lazy cls k (acc ++ [c]) s' else None
      | [] => None
      end
  end.
End Matcher.

(** a capturing group around [a]: the continuation receives the text that
    [a] matched *)
Definition group_ {R : Type} (a : (jsstring -> option R) -> jsstring -> option R)
    (k : jsstring -> jsstring -> option R) (s : jsstring) : option R :=
  a (fun rest => k (firstn (length s - length rest) s) rest) s.

(** [.] without the [s] flag: any unit but a line terminator *)
Definition dot (c : N) : bool := negb (isLineTerminator c).
(** [\d], [\s], [\S] *)
Definition digit (c : N) : bool := (48 <=? c) && (c <=? 57).
Definition space (c : N) : bool := isSpace c.
Definition nonspace (c : N) : bool := negb (isSpace c).

End Regex.

(** ** The markdown-to-sections parser *)

Definition star : N := 42.

(** [/\*\*(.*?)\*\*/] tried at the start of [s]: the capture and the text
    after the match. *)
Definition boldAt (s : jsstring) : option (jsstring * jsstring) :=
  Regex.str_ [star; star]
    (Regex.star_lazy Regex.dot
       (fun cap => Regex.str_ [star; star] (fun rest => Some (cap, rest))) [])
    s.

(** [text.replace(/\*\*(.*?)\*\*/g, '$1')]: the leftmost match is replaced by
    its capture and the scan resumes after it; a unit where no match starts
    is copied.  A match is at least four units long, so [length s] steps
    suffice and the fuel is never exhausted. *)
Fixpoint replaceBold (fuel : nat) (s : jsstring) : jsstring :=
  match fuel with
  | O => s
  | S fuel' =>
      match s with
      | [] => []
      | c :: s' =>
          match boldAt s with
          | Some (cap, rest) => cap ++ replaceBold fuel' rest
          | None => c :: replaceBold fuel' s'
          end
      end
  end.

Definition inlineClean (text : jsstring) : jsstring :=
  replaceBold (length text) text.

Inductive Block :=
| Paragraph (text : jsstring)
| ListBlock (items : list jsstring).

Record DisplaySection := mkSection { heading : jsstring; body : list Block }.

(** [arr[arr.length - 1]]: [None] is [undefined]. *)
Definition lastOf {A : Type} (l : list A) : option A :=
  match rev l with
  | x :: _ => Some x
  | [] => None
  end.

(** The bullet branch: the item is pushed onto a trailing list block, or a
    new list block is pushed onto the body. *)
Definition pushBullet (bullet : jsstring) (b : list Block) : list Block :=
  match lastOf b with
  | Some (ListBlock items) => removelast b ++ [ListBlock (items ++ [bullet])]
  | _ => b ++ [ListBlock [bullet]]
  end.

(** The parser state: [sections] and [current] ([None] is [null]). *)
Definition ParseState := (list DisplaySection * option DisplaySection)%type.

Definition closeCurrent (st : ParseState) : list DisplaySection :=
  match snd st with
  | Some c => fst st ++ [c]
  | None => fst st
  end.

(** The body of the [forEach] callback of [parseAssistantSections]. *)
Definition parseLine (st : ParseState) (rawLine : jsstring) : ParseState :=
  let line := trim rawLine in
  if JsString.eqb line [] || JsString.eqb line (lit "---") then st
  else if startsWith (toLowerCase line) (lit "## references") then
    (closeCurrent st, None)
  else if startsWith line (lit "## ") then
    (closeCurrent st, Some (mkSection (trim (slice 3 line)) []))
  else
    let current := match snd st with
                   | Some c => c
                   | None => mkSection [] []
                   end in
    if startsWith line (lit "- ") then
      let bullet := inlineClean (trim (slice 2 line)) in
      (fst st, Some (mkSection (heading current) (pushBullet bullet (body current))))
    else
      (fst st, Some (mkSection (heading current)
                       (body current ++ [Paragraph (inlineClean line)]))).

Definition parseAssistantSections (markdown : jsstring) : list DisplaySection :=
  closeCurrent (fold_left parseLine (split 10 markdown) ([], None)).

(** ** Reference normalisation *)

Record NormalizedReference :=
  mkRef { label : jsstring; title : jsstring; url : jsstring }.

(** [ref.match(/^\[(\d+)\]\s*(.*?)\s*(?:—|-)\s*(https?:\/\/\S+)/)]: the
    three captures of the match at the start of [ref], [None] when the
    expression does not match. *)
Definition refMatch (ref : jsstring) : option (jsstring * jsstring * jsstring) :=
  Regex.unit_ 91
    (Regex.plus_greedy Regex.digit (fun m1 =>
     Regex.unit_ 93
    (Regex.star_greedy Regex.space (fun _ =>
     Regex.star_lazy Regex.dot (fun m2 =>
     Regex.star_greedy Regex.space (fun _ =>
     Regex.alt_ (Regex.unit_ 0x2014) (Regex.unit_ 45)
    (Regex.star_greedy Regex.space (fun _ =>
     Regex.group_
       (fun k => Regex.str_ (lit "http")
                (Regex.opt_ (Regex.unit_ 115)
                (Regex.str_ (lit "://")
                (Regex.plus_greedy Regex.nonspace (fun _ rest => k rest)))))
       (fun m3 _ => Some (m1, m2, m3))) [])) []) []) [])))
    ref.

Definition normalizeReference (ref : jsstring) : NormalizedReference :=
  match refMatch ref with
  | Some (m1, m2, m3) => mkRef m1 m2 m3
  | None => mkRef [] ref []
  end.

Definition normalizeReferences (refs : list jsstring) : list NormalizedReference :=
  map normalizeReference refs.

(** ** The line decoder of the read loop *)

Module TextDecoder.

(** The UTF-8 decoder of the WHATWG Encoding standard, as run by
    [new TextDecoder()] (UTF-8, replacement error mode, BOM stripped). *)
Record State := mkState {
  codePoint : N;
  bytesSeen : N;
  bytesNeeded : N;
  lowerBoundary : N;
  upperBoundary : N;
  bomSeen : bool
}.

Definition initial : State := mkState 0 0 0 0x80 0xBF false.

Definition inRange (lo hi b : N) : bool := (lo <=? b) && (b <=? hi).

(** A byte met while no sequence is pending: the new state and the code
    points emitted. *)
Definition leadByte (st : State) (b : N) : State * list N :=
  let bom := bomSeen st in
  if inRange 0x00 0x7F b then (mkState 0 0 0 0x80 0xBF bom, [b])
  else if inRange 0xC2 0xDF b then
    (mkState (N.land b 0x1F) 0 1 0x80 0xBF bom, [])
  else if inRange 0xE0 0xEF b then
    (mkState (N.land b 0xF) 0 2
       (if b =? 0xE0 then 0xA0 else 0x80) (if b =? 0xED then 0x9F else 0xBF) bom, [])
  else if inRange 0xF0 0xF4 b then
    (mkState (N.land b 0x7) 0 3
       (if b =? 0xF0 then 0x90 else 0x80) (if b =? 0xF4 then 0x8F else 0xBF) bom, [])
  else (mkState 0 0 0 0x80 0xBF bom, [0xFFFD]).

(** The decoder's handler for one byte. *)
Definition handler (st : State) (b : N) : State * list N :=
  if bytesNeeded st =? 0 then leadByte st b
  else if negb (inRange (lowerBoundary st) (upperBoundary st) b) then
    (* error; the byte is restored to the queue and read again *)
    let '(st', out) := leadByte (mkState 0 0 0 0x80 0xBF (bomSeen st)) b in
    (st', 0xFFFD :: out)
  else
    let cp := N.lor (N.shiftl (codePoint st) 6) (N.land b 0x3F) in
    let seen := bytesSeen st + 1 in
    if seen =? bytesNeeded st then (mkState 0 0 0 0x80 0xBF (bomSeen st), [cp])
    else (mkState cp seen (bytesNeeded st) 0x80 0xBF (bomSeen st), []).

(** A code point as UTF-16 code units. *)
Definition utf16 (cp : N) : jsstring :=
  if cp <? 0x10000 then [cp]
  else let c := cp - 0x10000 in [0xD800 + N.shiftr c 10; 0xDC00 + N.land c 0x3FF].

(** Serialising the output: the first code point of the stream is dropped
    when it is the byte-order mark. *)
Definition emit (st : State) (cps : list N) : State * jsstring :=
  fold_left
    (fun acc cp =>
       let '(st', out) := acc in
       if bomSeen st' then (st', out ++ utf16 cp)
       else
         let st'' := mkState (codePoint st') (bytesSeen st') (bytesNeeded st')
                       (lowerBoundary st') (upperBoundary st') true in
         if cp =? 0xFEFF then (st'', out) else (st'', out ++ utf16 cp))
    cps (st, []).

Definition decodeByte (st : State) (b : N) : State * jsstring :=
  let '(st', cps) := handler st b in emit st' cps.

(** [decoder.decode(value, { stream: true })]: the bytes of [value] are
    decoded in order; a sequence left incomplete stays in the state. *)
Definition decode (st : State) (value : list N) : State * jsstring :=
  fold_left
    (fun acc b =>
       let '(st', out) := acc in
       let '(st'', o) := decodeByte st' b in (st'', out ++ o))
    value (st, []).

End TextDecoder.

(** ** JSON values

    What [JSON.parse] returns.  A number is kept as the two observations the
    source can make of it: whether it is zero (the falsy numbers) and its
    [ToString] image. *)

#[local] Set Warnings "-register-all".

Record JsNumber := mkNumber { numIsZero : bool; numText : jsstring }.

Inductive JValue :=
| JNull
| JBool (b : bool)
| JNum (n : JsNumber)
| JStr (s : jsstring)
| JArr (l : list JValue)
| JObj (fields : list (jsstring * JValue)).

(** [ToBoolean] *)
Definition truthy (v : JValue) : bool :=
  match v with
  | JNull => false
  | JBool b => b
  | JNum n => negb (numIsZero n)
  | JStr s => negb (JsString.eqb s [])
  | JArr _ | JObj _ => true
  end.

(** [a || d], where [None] is [undefined] *)
Definition orElse (a : option JValue) (d : JValue) : JValue :=
  match a with
  | Some v => if truthy v then v else d
  | None => d
  end.

(** The own property [key] of an object; [None] is [undefined]. *)
Fixpoint lookup (key : jsstring) (fields : list (jsstring * JValue)) : option JValue :=
  match fields with
  | [] => None
  | (k, v) :: fs => if JsString.eqb k key then Some v else lookup key fs
  end.

(** [ToString], as applied by a template literal; [None] when it throws a
    [TypeError].  An object is converted by its [toString] method: the one
    of [Object.prototype], which gives "[object Object]", unless the object
    has a property [toString] of its own; a value that [JSON.parse] built
    is not callable, so that the conversion then falls back on
    [valueOf], finds no primitive value and throws.  An array is
    converted by [join], which converts its elements in turn, [null] to
    the empty string. *)
Fixpoint ToString (v : JValue) : option jsstring :=
  match v with
  | JNull => Some (lit "null")
  | JBool true => Some (lit "true")
  | JBool false => Some (lit "false")
  | JNum n => Some (numText n)
  | JStr s => Some s
  | JArr l =>
      option_map (join (lit ","))
        ((fix elements (l : list JValue) : option (list jsstring) :=
            match l with
            | [] => Some []
            | e :: l' =>
                match (match e with JNull => Some [] | _ => ToString e end) with
                | Some t =>
                    match elements l' with
                    | Some ts => Some (t :: ts)
                    | None => None
                    end
                | None => None
                end
            end) l)
  | JObj fields =>
      match lookup (lit "toString") fields with
      | Some _ => None
      | None => Some (lit "[object Object]")
      end
  end.

(** [v === 'literal'] *)
Definition isString (v : option JValue) (s : jsstring) : bool :=
  match v with
  | Some (JStr t) => JsString.eqb t s
  | _ => false
  end.

(** Property read [v.key] on a non-null JSON value, for the keys the source
    reads ([type], [delta], [references], [message]): an own property of an
    object, [undefined] on anything else. *)
Definition get (v : JValue) (key : jsstring) : option JValue :=
  match v with
  | JObj fields => lookup key fields
  | _ => None
  end.

(** ** The conversation state *)

Inductive Role := user | assistant.

(** A chat message; [references] is [None] on the entries created without
    that field (the user entries). *)
Record Message := mkMessage {
  role : Role;
  content : JValue;
  references : option JValue
}.

Definition STREAMING_PLACEHOLDER : jsstring :=
  lit "Synthesizing context" ++ [0x2026].

(** The component state of [App]: the [useState] cells and the
    [streamingAssistantIndex] ref.  State updates are applied at once and in
    program order: an updater passed to [setMessages] runs where the source
    requests it, with the index the ref holds at that point. *)
Record Session := mkSession {
  messages : list Message;
  input : jsstring;
  isLoading : bool;
  streamingAssistantIndex : Z
}.

Definition setMessages (f : list Message -> list Message) (s : Session) : Session :=
  mkSession (f (messages s)) (input s) (isLoading s) (streamingAssistantIndex s).

(** [prev.map((msg, idx) => ...)] with the index counted from [i]; [None]
    when the callback throws. *)
Fixpoint mapFrom {A B : Type} (i : nat) (f : A -> nat -> option B) (l : list A)
    : option (list B) :=
  match l with
  | [] => Some []
  | x :: l' =>
      match f x i with
      | Some y =>
          match mapFrom (S i) f l' with
          | Some ys => Some (y :: ys)
          | None => None
          end
      | None => None
      end
  end.

Definition mapIdx {A B : Type} (f : A -> nat -> option B) (l : list A)
    : option (list B) :=
  mapFrom 0 f l.

(** [patchAssistantMessage]: the component state after the update, [None]
    when the mutator throws; the state is then as it was. *)
Definition patchAssistantMessage (mutator : Message -> option Message) (s : Session)
    : option Session :=
  if (streamingAssistantIndex s <? 0)%Z then Some s
  else
    match mapIdx (fun msg idx =>
                    if (Z.of_nat idx =? streamingAssistantIndex s)%Z
                    then mutator msg else Some msg)
            (messages s) with
    | Some next => Some (setMessages (fun _ => next) s)
    | None => None
    end.

(** The mutators of the three operations.  The template literal of the
    first converts [base] and [delta] to strings and throws when one of
    them cannot be converted; the other two always return. *)
Definition withDelta (delta : JValue) (msg : Message) : option Message :=
  let base := if isString (Some (content msg)) STREAMING_PLACEHOLDER
              then JStr []
              else orElse (Some (content msg)) (JStr []) in
  match ToString base, ToString delta with
  | Some b, Some d => Some (mkMessage (role msg) (JStr (b ++ d)) (references msg))
  | _, _ => None
  end.

Definition withReferences (refs : JValue) (msg : Message) : Message :=
  mkMessage (role msg) (content msg) (Some refs).

Definition withText (text : JValue) (msg : Message) : Message :=
  mkMessage (role msg) text (Some (JArr [])).

Definition appendAssistantDelta (delta : JValue) : Session -> option Session :=
  patchAssistantMessage (withDelta delta).

Definition applyAssistantReferences (refs : JValue) : Session -> option Session :=
  patchAssistantMessage (fun msg => Some (withReferences refs msg)).

Definition overwriteAssistant (text : JValue) : Session -> option Session :=
  patchAssistantMessage (fun msg => Some (withText text msg)).

(** ** The request: [sendMessage] *)

(** The variables local to one call of [sendMessage]. *)
Record Local := mkLocal {
  decoder : TextDecoder.State;
  buffer : jsstring;
  receivedChunk : bool;
  receivedError : bool;
  shouldAbort : bool
}.

Definition initialLocal : Local :=
  mkLocal TextDecoder.initial [] false false false.

Inductive JsError :=
| Error_ (message : jsstring)   (* [new Error(message)] *)
| TypeError_                    (* a property read on [null] *)
| Rejection.                    (* a rejected promise of the transport *)

(** How a piece of the [try] block ends: normally, or by throwing; the
    component state reached is kept in both cases. *)
Inductive Completion :=
| Normal (l : Local) (s : Session)
| Thrown (e : JsError) (s : Session).

Definition bind (c : Completion) (k : Local -> Session -> Completion) : Completion :=
  match c with
  | Normal l s => k l s
  | Thrown e s => Thrown e s
  end.

Definition sessionOf (c : Completion) : Session :=
  match c with
  | Normal _ s => s
  | Thrown _ s => s
  end.

(** A state update made in the [try] block: the state it leaves, or the
    [TypeError] of a mutator that throws. *)
Definition updated (l : Local) (s : Session) (r : option Session) : Completion :=
  match r with
  | Some s' => Normal l s'
  | None => Thrown TypeError_ s
  end.

(** The [switch (event.type)] of [processEventLine]. *)
Definition dispatch (event : JValue) (l : Local) (s : Session) : Completion :=
  match event with
  | JNull => Thrown TypeError_ s
  | _ =>
      let type := get event (lit "type") in
      if isString type (lit "answer_chunk") then
        updated (mkLocal (decoder l) (buffer l) true (receivedError l) (shouldAbort l)) s
          (appendAssistantDelta (orElse (get event (lit "delta")) (JStr [])) s)
      else if isString type (lit "references") then
        updated l s
          (applyAssistantReferences (orElse (get event (lit "references")) (JArr [])) s)
      else if isString type (lit "error") then
        updated (mkLocal (decoder l) (buffer l) (receivedChunk l) true true) s
          (overwriteAssistant
             (orElse (get event (lit "message"))
                (JStr (lit "Chat failed. Please retry."))) s)
      else Normal l s
  end.

(** A parsed event handed to the dispatcher, under the abort guard of
    [processEventLine]. *)
Definition handleEvent (event : JValue) (l : Local) (s : Session) : Completion :=
  if shouldAbort l then Normal l s else dispatch event l s.

(** The transport, as [sendMessage] observes it. *)
Inductive StreamEnd := Done | ReadRejects.

Record Body := mkBody { chunks : list (list N); ending : StreamEnd }.

Record Response := mkResponse {
  ok : bool;
  text : option jsstring;        (* [await response.text()]; [None] rejects *)
  responseBody : option Body     (* [response.body]; [None] is [null] *)
}.

Inductive Fetch := FetchRejects | FetchResolves (r : Response).

(** The states of the active assistant message; the source does not store
    them, they are read off the path the request takes. *)
Inductive RequestState := NotSent | Finalized | Failed.

(** [lines.pop()]: the last segment and the ones before it. *)
Definition popLine (lines : list jsstring) : jsstring * list jsstring :=
  (last lines [], removelast lines).

Section Request.

(** [JSON.parse]; [None] when it throws. *)
Variable JSON_parse : jsstring -> option JValue.

Definition processEventLine (line : jsstring) (l : Local) (s : Session) : Completion :=
  if JsString.eqb line [] || shouldAbort l then Normal l s
  else
    match JSON_parse line with
    | None => Normal l s
    | Some event => dispatch event l s
    end.

(** [lines.forEach((line) => processEventLine(line.trim()))] *)
Fixpoint forEachLine (lines : list jsstring) (l : Local) (s : Session) : Completion :=
  match lines with
  | [] => Normal l s
  | line :: rest => bind (processEventLine (trim line) l s) (forEachLine rest)
  end.

(** The [while (true)] read loop, one iteration per chunk delivered. *)
Fixpoint readLoop (cs : list (list N)) (e : StreamEnd) (l : Local) (s : Session)
    : Completion :=
  match cs with
  | [] =>
      match e with
      | Done => Normal l s
      | ReadRejects => Thrown Rejection s
      end
  | value :: cs' =>
      let '(d, decoded) := TextDecoder.decode (decoder l) value in
      let '(rest, lines) := popLine (split 10 (buffer l ++ decoded)) in
      let l1 := mkLocal d rest (receivedChunk l) (receivedError l) (shouldAbort l) in
      bind (forEachLine lines l1 s) (fun l2 s2 =>
        if shouldAbort l2 then Normal l2 s2 else readLoop cs' e l2 s2)
  end.

(** The last statement of the [try] block: the empty-result fallback. *)
Definition emptyResultFallback (l : Local) (s : Session) : Completion :=
  if negb (receivedChunk l) && negb (receivedError l)
  then updated l s
         (overwriteAssistant (JStr (lit "I couldn't find anything for that query.")) s)
  else Normal l s.

(** After the loop: the held-back remainder is handed on, unless the loop
    was aborted or the remainder is blank. *)
Definition flushBuffer (l : Local) (s : Session) : Completion :=
  if negb (shouldAbort l) && negb (JsString.eqb (trim (buffer l)) [])
  then processEventLine (trim (buffer l)) l s
  else Normal l s.

(** After the loop: the remainder, then the fallback. *)
Definition afterLoop (l : Local) (s : Session) : Completion :=
  bind (flushBuffer l s) emptyResultFallback.

(** The [try] block. *)
Definition tryBlock (f : Fetch) (s : Session) : Completion :=
  match f with
  | FetchRejects => Thrown Rejection s
  | FetchResolves response =>
      if negb (ok response) then
        match text response with
        | None => Thrown Rejection s
        | Some errorText =>
            Thrown (Error_ (if JsString.eqb errorText [] then lit "Chat failed."
                            else errorText)) s
        end
      else
        match responseBody response with
        | None =>
            Thrown (Error_ (lit "Streaming response is not supported in this browser.")) s
        | Some b => bind (readLoop (chunks b) (ending b) initialLocal s) afterLoop
        end
  end.

(** The part of [sendMessage] before the [try]: the two entries are
    appended and the index is pointed at the assistant entry. *)
Definition startRequest (trimmed : jsstring) (s : Session) : Session :=
  let nextMessages :=
    messages s ++ [mkMessage user (JStr trimmed) None;
                   mkMessage assistant (JStr STREAMING_PLACEHOLDER) (Some (JArr []))] in
  mkSession nextMessages [] true (Z.of_nat (length nextMessages) - 1).

(** [catch] and [finally]; the mutator of [overwriteAssistant] returns, so
    that the [catch] block does not throw. *)
Definition finishRequest (c : Completion) : Session :=
  let s := match c with
           | Normal _ s => s
           | Thrown _ s =>
               match overwriteAssistant
                       (JStr (lit "Search failed. Check the FastAPI logs.")) s with
               | Some s' => s'
               | None => s
               end
           end in
  mkSession (messages s) (input s) false (-1).

Definition requestState (c : Completion) : RequestState :=
  match c with
  | Normal l _ => if receivedError l then Failed else Finalized
  | Thrown _ _ => Failed
  end.

Definition sendMessage (f : Fetch) (s : Session) : Session :=
  if isLoading s then s
  else
    let trimmed := trim (input s) in
    if JsString.eqb trimmed [] then s
    else finishRequest (tryBlock f (startRequest trimmed s)).

(** The state the request leaves its assistant message in. *)
Definition sendMessageState (f : Fetch) (s : Session) : RequestState :=
  if isLoading s then NotSent
  else
    let trimmed := trim (input s) in
    if JsString.eqb trimmed [] then NotSent
    else requestState (tryBlock f (startRequest trimmed s)).

End Request.

(** The state [App] starts in. *)
Definition initialSession : Session :=
  mkSession
    [mkMessage assistant
       (JStr (lit "Hey there! Ask me anything about the GitBook docs we just ingested."))
       (Some (JArr []))]
    [] false (-1).

(** [onChange]: the input box is set to what the user typed. *)
Definition setInput (v : jsstring) (s : Session) : Session :=
  mkSession (messages s) v (isLoading s) (streamingAssistantIndex s).

(** ** Streams of events

    The events of a stream are the values [JSON.parse] yields for the
    non-empty lines it accepts, in order; [runEvents] hands them to the
    dispatcher as [processEventLine] does. *)

Fixpoint runEvents (evs : list JValue) (l : Local) (s : Session) : Completion :=
  match evs with
  | [] => Normal l s
  | e :: evs' => bind (handleEvent e l s) (runEvents evs')
  end.

(** A stream of events followed by the end of the stream. *)
Definition applyStream (evs : list JValue) (s : Session) : Completion :=
  bind (runEvents evs initialLocal s) emptyResultFallback.

(** The three events of the wire format. *)
Definition chunkEvent (delta : jsstring) : JValue :=
  JObj [(lit "type", JStr (lit "answer_chunk")); (lit "delta", JStr delta)].

Definition referencesEvent (refs : list jsstring) : JValue :=
  JObj [(lit "type", JStr (lit "references")); (lit "references", JArr (map JStr refs))].

Definition errorEvent (message : jsstring) : JValue :=
  JObj [(lit "type", JStr (lit "error")); (lit "message", JStr message)].

(** The message a request works on: the last one of the conversation. *)
Definition activeMessage (s : Session) : option Message := lastOf (messages s).

(** The strings of a reference list, as [renderAssistantMessage] hands them
    to [normalizeReferences]; [None] when [refs.map] or [ref.match] would
    throw. *)
Definition referenceStrings (refs : option JValue) : option (list jsstring) :=
  match orElse refs (JArr []) with
  | JArr l =>
      fold_right (fun v acc =>
                    match v, acc with
                    | JStr r, Some rs => Some (r :: rs)
                    | _, _ => None
                    end) (Some []) l
  | _ => None
  end.

(** ** The lines the decoder emits

    The decoding and the line splitting of the read loop on their own, for
    a stream that is read to its end: no line is dispatched here, so the
    loop is never left early (lines 385-388) and the remainder is always
    flushed (line 391).  What [readLoop] itself does, with the dispatcher
    and its abort flag, is related to these lines in the properties.

    One iteration: the decoder state and the remainder carried over, and
    the lines handed on. *)
Definition feed (st : TextDecoder.State * jsstring) (value : list N)
    : (TextDecoder.State * jsstring) * list jsstring :=
  let '(d, decoded) := TextDecoder.decode (fst st) value in
  let '(rest, lines) := popLine (split 10 (snd st ++ decoded)) in
  ((d, rest), map trim lines).

Fixpoint feedAll (st : TextDecoder.State * jsstring) (cs : list (list N))
    : (TextDecoder.State * jsstring) * list jsstring :=
  match cs with
  | [] => (st, [])
  | value :: cs' =>
      let '(st1, lines) := feed st value in
      let '(st2, lines') := feedAll st1 cs' in
      (st2, lines ++ lines')
  end.

(** The remainder flushed at the end of the stream, when not blank. *)
Definition flush (st : TextDecoder.State * jsstring) : list jsstring :=
  if JsString.eqb (trim (snd st)) [] then [] else [trim (snd st)].

(** All the lines handed to [processEventLine] for a stream that is read
    to its end, when no line sets the abort flag or throws. *)
Definition decoderLines (cs : list (list N)) : list jsstring :=
  let '(st, lines) := feedAll (TextDecoder.initial, []) cs in
  lines ++ flush st.

(** The events among the lines. *)
Definition eventsOf (JSON_parse : jsstring -> option JValue) (lines : list jsstring)
    : list JValue :=
  flat_map (fun line =>
              if JsString.eqb line [] then []
              else match JSON_parse line with
                   | Some e => [e]
                   | None => []
                   end) lines.

(** A stand-in for [JSON.parse] that accepts the literal names and the
    empty containers and rejects every other line; it instantiates the
    statements that hold for every parser. *)
Definition parseAtom (line : jsstring) : option JValue :=
  if JsString.eqb line (lit "null") then Some JNull
  else if JsString.eqb line (lit "true") then Some (JBool true)
  else if JsString.eqb line (lit "false") then Some (JBool false)
  else if JsString.eqb line (lit "{}") then Some (JObj [])
  else if JsString.eqb line (lit "[]") then Some (JArr [])
  else None.

(** ** Notions used in the statements *)

(** A conversation with earlier messages put in front: the index moves with
    the messages it points at. *)
Definition frame (before : list Message) (s : Session) : Session :=
  mkSession (before ++ messages s) (input s) (isLoading s)
    (Z.of_nat (length before) + streamingAssistantIndex s).

Definition frameC (before : list Message) (c : Completion) : Completion :=
  match c with
  | Normal l s => Normal l (frame before s)
  | Thrown e s => Thrown e (frame before s)
  end.

(** How the [switch] of [processEventLine] classifies a parsed line. *)
Inductive EventKind := KNull | KChunk | KReferences | KError | KUnknown.

Definition eventKind (event : JValue) : EventKind :=
  match event with
  | JNull => KNull
  | _ =>
      let type := get event (lit "type") in
      if isString type (lit "answer_chunk") then KChunk
      else if isString type (lit "references") then KReferences
      else if isString type (lit "error") then KError
      else KUnknown
  end.

Definition markChunk (l : Local) : Local :=
  mkLocal (decoder l) (buffer l) true (receivedError l) (shouldAbort l).

Definition markError (l : Local) : Local :=
  mkLocal (decoder l) (buffer l) (receivedChunk l) true true.

(** What [patchAssistantMessage] leaves for a mutator that returns [f msg]. *)
Definition patched (f : Message -> Message) (s : Session) : Session :=
  match patchAssistantMessage (fun msg => Some (f msg)) s with
  | Some s' => s'
  | None => s
  end.

(** The assistant entry a request appends. *)
Definition pendingMessage : Message :=
  mkMessage assistant (JStr STREAMING_PLACEHOLDER) (Some (JArr [])).

(** A conversation of one message, which the index points at. *)
Definition solo (m : Message) : Session := mkSession [m] [] true 0.

(** The reference string of the three-event stream, and the text with a
    References block. *)
Definition c5_reference : jsstring := lit "[1] Docs " ++ [0x2014] ++ lit " https://x".

Definition c1_input : jsstring :=
  lit "## Summary" ++ [10] ++ lit "- point one" ++ [10] ++ lit "- point two" ++ [10]
  ++ lit "## References" ++ [10] ++ lit "[1] Guide " ++ [0x2014] ++ lit " https://a".


(** The lines handed on while the loop runs, and the remainder flushed
    after it, for a stream that is read to its end. *)
Definition loopLines (cs : list (list N)) : list jsstring :=
  snd (feedAll (TextDecoder.initial, []) cs).

Definition flushed (cs : list (list N)) : list jsstring :=
  flush (fst (feedAll (TextDecoder.initial, []) cs)).

(** The emitted lines with the terminators put back: one after each line
    of the loop, none after the flushed remainder. *)
Definition reinsert (lines rest : list jsstring) : jsstring :=
  concat (map (fun l => l ++ [10]) lines) ++ concat rest.

(** The text the decoder produces for a whole byte sequence. *)
Definition decodedText (bytes : list N) : jsstring :=
  snd (TextDecoder.decode TextDecoder.initial bytes).

(** UTF-8 encoding of a string, as [TextEncoder] does it: surrogate pairs
    are combined, a lone surrogate becomes U+FFFD. *)
Fixpoint codePoints (s : jsstring) : list N :=
  match s with
  | [] => []
  | hi :: t =>
      if (0xD800 <=? hi) && (hi <=? 0xDBFF) then
        match t with
        | lo :: s' =>
            if (0xDC00 <=? lo) && (lo <=? 0xDFFF)
            then (0x10000 + (hi - 0xD800) * 0x400 + (lo - 0xDC00)) :: codePoints s'
            else 0xFFFD :: codePoints t
        | [] => [0xFFFD]
        end
      else if (0xDC00 <=? hi) && (hi <=? 0xDFFF) then 0xFFFD :: codePoints t
      else hi :: codePoints t
  end.

Definition encodeCodePoint (cp : N) : list N :=
  if cp <? 0x80 then [cp]
  else if cp <? 0x800 then [N.lor 0xC0 (N.shiftr cp 6); N.lor 0x80 (N.land cp 0x3F)]
  else if cp <? 0x10000 then
    [N.lor 0xE0 (N.shiftr cp 12); N.lor 0x80 (N.land (N.shiftr cp 6) 0x3F);
     N.lor 0x80 (N.land cp 0x3F)]
  else
    [N.lor 0xF0 (N.shiftr cp 18); N.lor 0x80 (N.land (N.shiftr cp 12) 0x3F);
     N.lor 0x80 (N.land (N.shiftr cp 6) 0x3F); N.lor 0x80 (N.land cp 0x3F)].

Definition utf8Encode (s : jsstring) : list N := flat_map encodeCodePoint (codePoints s).

(** What the rest of [sendMessage] can observe of a completion: the three
    flags and the component state, or the error and the component state. *)
Definition flagsOf (l : Local) : bool * bool * bool :=
  (receivedChunk l, receivedError l, shouldAbort l).

Definition outcome (c : Completion) : (bool * bool * bool) * Session + JsError * Session :=
  match c with
  | Normal l s => inl (flagsOf l, s)
  | Thrown e s => inr (e, s)
  end.

(** A chat session: the user types a text and submits it, the transport
    answers, one request after the other. *)
Fixpoint runRequests (P : jsstring -> option JValue) (reqs : list (jsstring * Fetch))
    (s : Session) : Session :=
  match reqs with
  | [] => s
  | (typed, f) :: reqs' => runRequests P reqs' (sendMessage P f (setInput typed s))
  end.

(** A string without white space at its ends. *)
Definition trimmed (s : jsstring) : bool :=
  match s with
  | [] => true
  | c :: _ => negb (isSpace c) && negb (isSpace (last s 0))
  end.

(** The closing [**] of the bold expression, looked for from the unit after
    the opening one: the capture of the lazy [.*?] and the text after the
    match. *)
Fixpoint findClose (t : jsstring) : option (jsstring * jsstring) :=
  match t with
  | [] => None
  | c :: t' =>
      if startsWith t [star; star] then Some ([], skipn 2 t)
      else if Regex.dot c then
        match findClose t' with
        | Some (cap, rest) => Some (c :: cap, rest)
        | None => None
        end
      else None
  end.

(** No unit of [s] starts a match of the bold expression. *)
Fixpoint noBold (s : jsstring) : Prop :=
  match s with
  | [] => True
  | _ :: s' => boldAt s = None /\ noBold s'
  end.

(** Every [*] is followed by a unit that is not a [*]. *)
Fixpoint starsApart (s : jsstring) : Prop :=
  match s with
  | [] => True
  | c :: s' =>
      (c = star -> match s' with [] => False | d :: _ => d <> star end) /\ starsApart s'
  end.

(** ** Re-serialising the sections *)

(** Modelled from the spec: the source has no function that writes sections
    back to text; [render] is the re-serialisation the spec's idempotence
    property speaks of ("re-serializing the block text"), in the syntax the
    parser reads: a [## heading] line for a section with a heading, a line
    per paragraph, a [- item] line per list item. *)
Definition renderBlock (b : Block) : list jsstring :=
  match b with
  | Paragraph t => [t]
  | ListBlock items => map (fun item => lit "- " ++ item) items
  end.

Definition renderSection (s : DisplaySection) : list jsstring :=
  (if JsString.eqb (heading s) [] then [] else [lit "## " ++ heading s])
  ++ flat_map renderBlock (body s).

Definition render (ss : list DisplaySection) : jsstring :=
  join [10] (flat_map renderSection ss).

(** What every text the parser stores satisfies: no newline, and nothing
    left for [inlineClean] to strip. *)
Definition textOk (t : jsstring) : Prop := ~ In 10 t /\ inlineClean t = t.

Definition blockOk (b : Block) : Prop :=
  match b with
  | Paragraph t => textOk t
  | ListBlock items => items <> [] /\ Forall textOk items
  end.

Definition isList (b : Block) : bool :=
  match b with
  | ListBlock _ => true
  | Paragraph _ => false
  end.

Fixpoint noAdjacentLists (b : list Block) : Prop :=
  match b with
  | [] => True
  | x :: b' =>
      (isList x = true -> match b' with y :: _ => isList y = false | [] => True end)
      /\ noAdjacentLists b'
  end.

Definition sectionOk (s : DisplaySection) : Prop :=
  ~ In 10 (heading s) /\ trimmed (heading s) = true /\
  (heading s = [] -> body s <> []) /\
  Forall blockOk (body s) /\ noAdjacentLists (body s).

(** The sections whose text does not read as markup: items and paragraphs
    are not empty and have no white space at their ends, a paragraph is not
    a rule and does not start like a heading or a bullet, a heading does
    not read as the References heading, and only the first section may be
    without a heading. *)
Definition plainText (t : jsstring) : bool := trimmed t && negb (JsString.eqb t []).

Definition plainParagraph (t : jsstring) : bool :=
  plainText t && negb (JsString.eqb t (lit "---")) &&
  negb (startsWith t (lit "## ")) && negb (startsWith t (lit "- ")).

Definition plainBlock (b : Block) : bool :=
  match b with
  | Paragraph t => plainParagraph t
  | ListBlock items => forallb plainText items
  end.

Definition plainHeading (h : jsstring) : bool :=
  negb (startsWith (toLowerCase (lit "## " ++ h)) (lit "## references")).

Definition plainSection (s : DisplaySection) : bool :=
  plainHeading (heading s) && forallb plainBlock (body s).

Definition plain (ss : list DisplaySection) : bool :=
  forallb plainSection ss &&
  forallb (fun s => negb (JsString.eqb (heading s) [])) (tl ss).

(** [current], or the section the parser opens when there is none. *)
Definition currentOr (cur : option DisplaySection) : DisplaySection :=
  match cur with
  | Some c => c
  | None => mkSection [] []
  end.

(** Whether the last block of a body is a list. *)
Definition endsWithList (b : list Block) : bool :=
  match lastOf b with
  | Some x => isList x
  | None => false
  end.

(** The invariant of the parser state. *)
Definition stateOk (st : ParseState) : Prop :=
  Forall sectionOk (fst st) /\
  match snd st with
  | Some c => sectionOk c
  | None => True
  end.

(** Two inputs of the parser: one it reads back unchanged after rendering,
    one whose bold markers hide a bullet. *)
Definition c6_plain_input : jsstring :=
  lit "Intro **text**" ++ [10] ++ lit "## Summary" ++ [10] ++
  lit "- **point** one" ++ [10] ++ lit "- point two" ++ [10] ++ [10] ++
  lit "Closing *remark*" ++ [10] ++ lit "---" ++ [10] ++ lit "## Next" ++ [10] ++
  lit "last".

Definition c6_hidden_bullet : jsstring := lit "**- **x".

(** Well-formed UTF-8 (the Unicode standard, table 3-7). *)
Fixpoint wellFormed (bs : list N) : bool :=
  match bs with
  | [] => true
  | b1 :: t1 =>
      if b1 <=? 0x7F then wellFormed t1
      else
        match t1 with
        | [] => false
        | b2 :: t2 =>
            if TextDecoder.inRange 0xC2 0xDF b1 then
              TextDecoder.inRange 0x80 0xBF b2 && wellFormed t2
            else
              match t2 with
              | [] => false
              | b3 :: t3 =>
                  if TextDecoder.inRange 0xE0 0xEF b1 then
                    TextDecoder.inRange (if b1 =? 0xE0 then 0xA0 else 0x80)
                      (if b1 =? 0xED then 0x9F else 0xBF) b2 &&
                    TextDecoder.inRange 0x80 0xBF b3 && wellFormed t3
                  else
                    match t3 with
                    | [] => false
                    | b4 :: t4 =>
                        TextDecoder.inRange 0xF0 0xF4 b1 &&
                        TextDecoder.inRange (if b1 =? 0xF0 then 0x90 else 0x80)
                          (if b1 =? 0xF4 then 0x8F else 0xBF) b2 &&
                        TextDecoder.inRange 0x80 0xBF b3 &&
                        TextDecoder.inRange 0x80 0xBF b4 && wellFormed t4
                    end
              end
        end
  end.

(** The bytes start with the byte-order mark. *)
Definition hasBOM (bs : list N) : bool := startsWith bs [0xEF; 0xBB; 0xBF].

(** The decoder between two characters. *)
Definition ready (bom : bool) : TextDecoder.State :=
  TextDecoder.mkState 0 0 0 0x80 0xBF bom.

(** A text holds a bold span: an opening and a closing pair of stars with
    no line terminator between them. *)
Definition hasBold (s : jsstring) : Prop :=
  exists a b c,
    s = a ++ [star; star] ++ b ++ [star; star] ++ c /\
    Forall (fun u => Regex.dot u = true) b.

Definition notStar (c : N) : bool := negb (c =? star).

(** ** How the parser reads a line

    The tests of the [forEach] callback of [parseAssistantSections], each
    on the trimmed line. *)
Definition skipped (rawLine : jsstring) : bool :=
  JsString.eqb (trim rawLine) [] || JsString.eqb (trim rawLine) (lit "---").

Definition isReferencesHeading (rawLine : jsstring) : bool :=
  startsWith (toLowerCase (trim rawLine)) (lit "## references").

Definition isHeading (rawLine : jsstring) : bool :=
  startsWith (trim rawLine) (lit "## ").

(** The lines that open a section, and the heading they give it. *)
Definition opensSection (rawLine : jsstring) : bool :=
  isHeading rawLine && negb (isReferencesHeading rawLine).

Definition headingText (rawLine : jsstring) : jsstring :=
  trim (slice 3 (trim rawLine)).

(** The lines that end up in a body, and the text stored for them. *)
Definition isContent (rawLine : jsstring) : bool :=
  negb (skipped rawLine) && negb (isHeading rawLine).

Definition lineText (rawLine : jsstring) : jsstring :=
  if startsWith (trim rawLine) (lit "- ")
  then inlineClean (trim (slice 2 (trim rawLine)))
  else inlineClean (trim rawLine).

(** The texts of the sections, in display order. *)
Definition blockTexts (b : Block) : list jsstring :=
  match b with
  | Paragraph t => [t]
  | ListBlock items => items
  end.

Definition sectionTexts (s : DisplaySection) : list jsstring :=
  flat_map blockTexts (body s).

Definition texts (ss : list DisplaySection) : list jsstring :=
  flat_map sectionTexts ss.

(** The headings of the sections that have one. *)
Definition headings (ss : list DisplaySection) : list jsstring :=
  filter (fun h => negb (JsString.eqb h [])) (map heading ss).

Definition md_messy : jsstring :=
  lit "  ## Setup" ++ [13; 10; 10] ++ lit "---" ++ [10; 9] ++ lit "- install **it**  ".

Definition md_tidy : jsstring := lit "## Setup" ++ [10] ++ lit "- install **it**".

(** ** Reference strings

    A reference string in the form the expression of [normalizeReferences]
    reads: a number in brackets, a title, a dash and a link. *)
Definition isDash (c : N) : bool := (c =? 0x2014) || (c =? 45).

Definition all (cls : N -> bool) (s : jsstring) : Prop :=
  Forall (fun c => cls c = true) s.

Definition referenceText (l ws1 t ws2 : jsstring) (d : N)
    (ws3 scheme run tail : jsstring) : jsstring :=
  [91] ++ l ++ [93] ++ ws1 ++ t ++ ws2 ++ [d] ++ ws3 ++
  scheme ++ lit "://" ++ run ++ tail.

(** The text after a link: nothing, or something that starts with white
    space. *)
Definition endsLink (tail : jsstring) : Prop :=
  match tail with
  | [] => True
  | c :: _ => isSpace c = true
  end.

(** [(https?:\/\/\S+)], with the continuation of the group. *)
Definition linkGroup {R : Type} (k : jsstring -> jsstring -> option R) : jsstring -> option R :=
  Regex.group_
    (fun k' => Regex.str_ (lit "http")
                (Regex.opt_ (Regex.unit_ 115)
                (Regex.str_ (lit "://")
                (Regex.plus_greedy Regex.nonspace (fun _ rest => k' rest)))))
    k.

(** ** Requests and conversations *)

(** A completion whose conversation is one message of role [r], which the
    index points at. *)
Definition onSolo (r : Role) (c : Completion) : Prop :=
  exists m, sessionOf c = solo m /\ role m = r.

(** The entry the [catch] block leaves. *)
Definition failedMessage : Message :=
  mkMessage assistant (JStr (lit "Search failed. Check the FastAPI logs."))
    (Some (JArr [])).

(** The transports that fail without a status: [fetch] rejects, the
    response has no body, or a read rejects before an error event has
    stopped the loop. *)
Inductive TransportFails (P : jsstring -> option JValue) : Fetch -> Prop :=
| fetch_rejects : TransportFails P FetchRejects
| body_missing t : TransportFails P (FetchResolves (mkResponse true t None))
| read_rejects t cs :
    Forall (fun e => eventKind e <> KError) (eventsOf P (loopLines cs)) ->
    TransportFails P (FetchResolves (mkResponse true t (Some (mkBody cs ReadRejects)))).

(** The questions of a chat session that are sent: the texts typed,
    trimmed, that are not empty. *)
Definition asked (reqs : list (jsstring * Fetch)) : list jsstring :=
  filter (fun q => negb (JsString.eqb q [])) (map (fun r => trim (fst r)) reqs).

(** The two entries of a request, once it is over. *)
Definition exchange (qa : jsstring * Message) : list Message :=
  [mkMessage user (JStr (fst qa)) None; snd qa].

(** A stand-in for [JSON.parse] that reads every line as the delta of an
    answer chunk. *)
Definition parseAsChunk (line : jsstring) : option JValue := Some (chunkEvent line).

(** ** Streams of answer chunks *)

(** The content after one more delta [d], as [appendAssistantDelta]
    computes it from the content [c]. *)
Definition appendDelta (c d : jsstring) : jsstring :=
  (if JsString.eqb c STREAMING_PLACEHOLDER then [] else c) ++ d.

(** No part of the answer that is followed by more deltas reads as the
    placeholder. *)
Definition collisionFree (ds : list jsstring) : Prop :=
  forall p r, ds = p ++ r -> p <> [] -> r <> [] -> concat p <> STREAMING_PLACEHOLDER.

(** The events the dispatcher handles without throwing and without
    stopping the loop: a references event, an event of unknown type, and an
    answer chunk whose delta can be converted to a string. *)
Definition benign (e : JValue) : Prop :=
  match eventKind e with
  | KChunk => ToString (orElse (get e (lit "delta")) (JStr [])) <> None
  | KReferences | KUnknown => True
  | KNull | KError => False
  end.

(** A message whose content is a string. *)
Definition textual (m : Message) : Prop := exists c, content m = JStr c.

(** What a benign event does to the message it is applied to. *)
Definition applyEvent (m : Message) (e : JValue) : Message :=
  match eventKind e with
  | KChunk =>
      match withDelta (orElse (get e (lit "delta")) (JStr [])) m with
      | Some m' => m'
      | None => m
      end
  | KReferences => withReferences (orElse (get e (lit "references")) (JArr [])) m
  | _ => m
  end.

Definition isChunkEvent (e : JValue) : bool :=
  match eventKind e with KChunk => true | _ => false end.

Definition isReferencesEvent (e : JValue) : bool :=
  match eventKind e with KReferences => true | _ => false end.

(** The assistant entry of a request while the events [evs] have been
    dispatched. *)
Definition streamedMessage (evs : list JValue) (q : jsstring) (s : Session)
    : option Message :=
  activeMessage (sessionOf (runEvents evs initialLocal (startRequest q s))).

(** ** Rendering a message

    What the render functions return: React elements with their
    properties and children, strings, and [false], which React does not
    show.  The [key] of an element is left out, and the array a [map]
    gives is put in line among the children. *)
Inductive Node :=
| Text (s : jsstring)
| False_
| Elem (tag : jsstring) (props : list (jsstring * jsstring)) (children : list Node).

(** What [renderMessageContent] returns: the content as it is, or an
    element. *)
Inductive Rendered :=
| Raw (content : JValue)
| Tree (root : Node).

Definition className (c : string) : jsstring * jsstring := (lit "className", lit c).

Definition blockNode (block : Block) : Node :=
  match block with
  | ListBlock items =>
      Elem (lit "ul") [className "detail-list"]
        (map (fun item => Elem (lit "li") [] [Text item]) items)
  | Paragraph t => Elem (lit "p") [] [Text t]
  end.

Definition sectionNode (section : DisplaySection) : Node :=
  Elem (lit "div") [className "section-block"]
    ((if JsString.eqb (heading section) [] then Text []
      else Elem (lit "p") [className "section-title"] [Text (heading section)])
     :: map blockNode (body section)).

Definition referenceNode (ref : NormalizedReference) : Node :=
  Elem (lit "li") []
    [if JsString.eqb (url ref) [] then Text (title ref)
     else Elem (lit "a")
            [(lit "href", url ref); (lit "target", lit "_blank");
             (lit "rel", lit "noreferrer")]
            [Text (if JsString.eqb (label ref) [] then [] else label ref ++ lit ". ");
             Text (title ref)]].

Definition referencesNode (referenceEntries : list NormalizedReference) : Node :=
  if (0 <? length referenceEntries)%nat then
    Elem (lit "div") [className "references-block"]
      [Elem (lit "p") [className "section-title"] [Text (lit "References")];
       Elem (lit "ol") [] (map referenceNode referenceEntries)]
  else False_.

(** [renderAssistantMessage]; [None] when it throws: [msg.content] is not a
    string, so that [markdown.split] cannot be called, or [msg.references]
    is not a list of strings, so that [refs.map] or [ref.match] cannot. *)
Definition renderAssistantMessage (msg : Message) : option Rendered :=
  match content msg with
  | JStr markdown =>
      let sections := parseAssistantSections markdown in
      match referenceStrings (references msg) with
      | Some refs =>
          let referenceEntries := normalizeReferences refs in
          if (length sections =? 0)%nat && (length referenceEntries =? 0)%nat
          then Some (Raw (content msg))
          else Some (Tree (Elem (lit "div") [className "assistant-response"]
                             (map sectionNode sections ++
                              [referencesNode referenceEntries])))
      | None => None
      end
  | _ => None
  end.

Definition renderMessageContent (msg : Message) : option Rendered :=
  match role msg with
  | assistant => renderAssistantMessage msg
  | user => Some (Raw (content msg))
  end.

(** The targets of the links of a tree. *)
Fixpoint hrefs (n : Node) : list jsstring :=
  match n with
  | Elem _ props children =>
      map snd (filter (fun p => JsString.eqb (fst p) (lit "href")) props) ++
      flat_map hrefs children
  | _ => []
  end.

(** A link to the web: [http://] or [https://] and no white space. *)
Definition webLink (u : jsstring) : Prop :=
  (startsWith u (lit "http://") || startsWith u (lit "https://")) = true /\
  all Regex.nonspace u.

(** The events whose payload has the type the wire format gives it: the
    message of an error event is a string, the references of a references
    event are a list of strings; a payload that is missing or falsy is
    replaced by the default. *)
Definition wellTyped (e : JValue) : Prop :=
  match eventKind e with
  | KError =>
      exists m, orElse (get e (lit "message")) (JStr (lit "Chat failed. Please retry."))
                = JStr m
  | KReferences =>
      referenceStrings (Some (orElse (get e (lit "references")) (JArr []))) <> None
  | _ => True
  end.

(** A message that can be rendered. *)
Definition renderable (m : Message) : Prop :=
  (exists c, content m = JStr c) /\ referenceStrings (references m) <> None.

(** A completion whose conversation is one message with the property
    [Q], which the index points at. *)
Definition onSoloQ (Q : Message -> Prop) (c : Completion) : Prop :=
  exists m, sessionOf c = solo m /\ Q m.

(** The lines the parser shows nothing for. *)
Definition showsNothing (rawLine : jsstring) : bool :=
  skipped rawLine || isReferencesHeading rawLine.

(** ** The body of a response, line by line

    The text of a body is what the decoder makes of its bytes, put end to
    end.  Its lines are the segments of the text between line feeds: the
    ones a line feed ends, and the remainder after the last line feed
    when it is not blank. *)
Definition terminatedLines (cs : list (list N)) : list jsstring :=
  removelast (split 10 (decodedText (concat cs))).

Definition remainderLine (cs : list (list N)) : list jsstring :=
  if JsString.eqb (trim (last (split 10 (decodedText (concat cs))) [])) [] then []
  else [last (split 10 (decodedText (concat cs))) []].

Definition streamLines (cs : list (list N)) : list jsstring :=
  terminatedLines cs ++ remainderLine cs.

(** The events of a body: what [JSON.parse] makes of its lines, trimmed,
    the empty ones and the ones it rejects left out. *)
Definition streamEvents (P : jsstring -> option JValue) (cs : list (list N))
    : list JValue :=
  eventsOf P (map trim (streamLines cs)).

(** A stand-in for [JSON.parse] on a toy wire format: the line [c:text] is
    an answer chunk with the delta [text], [r:text] a references event with
    the one reference [text], [e:text] an error event with the message
    [text]; any other line is read as [parseAtom] reads it. *)
Definition parseDemo (line : jsstring) : option JValue :=
  if startsWith line (lit "c:") then Some (chunkEvent (slice 2 line))
  else if startsWith line (lit "r:") then Some (referencesEvent [slice 2 line])
  else if startsWith line (lit "e:") then Some (errorEvent (slice 2 line))
  else parseAtom line.

(** An answer chunk whose delta is an object with a [toString] entry of
    its own, as [JSON.parse] gives for the line
    [{"type":"answer_chunk","delta":{"toString":null}}]; and a stand-in
    parser that reads the line [o] as this event. *)
Definition opaqueChunk : JValue :=
  JObj [(lit "type", JStr (lit "answer_chunk"));
        (lit "delta", JObj [(lit "toString", JNull)])].

Definition parseOpaque (line : jsstring) : option JValue :=
  if JsString.eqb line (lit "o") then Some opaqueChunk else parseDemo line.

(** The parser that rejects the lines [P] reads as events of unknown
    type. *)
Definition withoutUnknown (P : jsstring -> option JValue) (line : jsstring)
    : option JValue :=
  match P line with
  | Some e =>
      match eventKind e with
      | KUnknown => None
      | _ => Some e
      end
  | None => None
  end.


(** * Properties *)

(** ** Strings *)

Lemma eqb_eq (a b : jsstring) : JsString.eqb a b = true <-> a = b.
Proof.
  revert b; induction a as [|x a IH]; intros [|y b]; simpl; split; intro H;
    try reflexivity; try discriminate.
  - apply andb_true_iff in H as [H1 H2].
    apply N.eqb_eq in H1. apply IH in H2. now subst.
  - injection H as -> ->. rewrite N.eqb_refl. now apply IH.
Qed.

Lemma eqb_refl (a : jsstring) : JsString.eqb a a = true.
Proof. now apply eqb_eq. Qed.

Lemma eqb_neq (a b : jsstring) : JsString.eqb a b = false <-> a <> b.
Proof.
  split.
  - intros H E. apply eqb_eq in E. congruence.
  - intro H. destruct (JsString.eqb a b) eqn:E; [|reflexivity].
    apply eqb_eq in E. contradiction.
Qed.

(** ** Lists *)

Lemma lastOf_snoc {A : Type} (l : list A) (x : A) : lastOf (l ++ [x]) = Some x.
Proof. unfold lastOf. rewrite rev_unit. reflexivity. Qed.

(** ** Framing *)

Lemma mapFrom_app {A B : Type} (f : A -> nat -> option B) (l1 l2 : list A) (i : nat) :
  mapFrom i f (l1 ++ l2) =
  match mapFrom i f l1, mapFrom (i + length l1) f l2 with
  | Some a, Some b => Some (a ++ b)
  | _, _ => None
  end.
Proof.
  revert i; induction l1 as [|x l1 IH]; intro i; simpl.
  - rewrite Nat.add_0_r. destruct (mapFrom i f l2); reflexivity.
  - destruct (f x i); [|reflexivity]. rewrite IH.
    replace (S i + length l1)%nat with (i + S (length l1))%nat by lia.
    destruct (mapFrom (S i) f l1); [|reflexivity].
    destruct (mapFrom (i + S (length l1)) f l2); reflexivity.
Qed.

Lemma mapFrom_ext {A B : Type} (f g : A -> nat -> option B) (l : list A) (i : nat) :
  (forall x j, (i <= j < i + length l)%nat -> f x j = g x j) ->
  mapFrom i f l = mapFrom i g l.
Proof.
  revert i; induction l as [|x l IH]; intros i H; simpl; [reflexivity|].
  rewrite H by (simpl; lia). rewrite (IH (S i)); [reflexivity|].
  intros y j Hj. apply H. simpl. lia.
Qed.

Lemma mapFrom_shift {A B : Type} (f : A -> nat -> option B) (l : list A) (n i : nat) :
  mapFrom (n + i) f l = mapFrom i (fun x j => f x (n + j)%nat) l.
Proof.
  revert i; induction l as [|x l IH]; intro i; simpl; [reflexivity|].
  rewrite <- IH. replace (n + S i)%nat with (S (n + i)) by lia. reflexivity.
Qed.

Lemma mapFrom_id {A : Type} (l : list A) (i : nat) :
  mapFrom i (fun x _ => Some x) l = Some l.
Proof. revert i; induction l as [|x l IH]; intro i; simpl; [|rewrite IH]; reflexivity. Qed.

(** A mutator that returns never makes the update throw. *)
Lemma mapFrom_total {A B : Type} (f : A -> nat -> option B) (l : list A) (i : nat) :
  (forall x j, f x j <> None) -> mapFrom i f l <> None.
Proof.
  intro H. revert i; induction l as [|x l IH]; intro i; simpl; [discriminate|].
  destruct (f x i) eqn:E; [|now apply H in E].
  specialize (IH (S i)). destruct (mapFrom (S i) f l); [discriminate|contradiction].
Qed.

Lemma patch_frame_opt (mutator : Message -> option Message) before s :
  (0 <= streamingAssistantIndex s)%Z ->
  patchAssistantMessage mutator (frame before s) =
  option_map (frame before) (patchAssistantMessage mutator s).
Proof.
  intro H. unfold patchAssistantMessage, frame, setMessages, mapIdx; simpl.
  destruct (Z.ltb_spec (Z.of_nat (length before) + streamingAssistantIndex s) 0); [lia|].
  destruct (Z.ltb_spec (streamingAssistantIndex s) 0); [lia|].
  rewrite mapFrom_app.
  assert (E1 : mapFrom 0
                 (fun (msg : Message) (idx : nat) =>
                    if (Z.of_nat idx =? Z.of_nat (length before) + streamingAssistantIndex s)%Z
                    then mutator msg else Some msg) before = Some before).
  { etransitivity; [|apply (mapFrom_id before 0)]. apply mapFrom_ext.
    intros x j Hj. destruct (Z.eqb_spec (Z.of_nat j)
      (Z.of_nat (length before) + streamingAssistantIndex s)); [lia|reflexivity]. }
  rewrite E1.
  assert (E2 : mapFrom (0 + length before)
                 (fun (msg : Message) (idx : nat) =>
                    if (Z.of_nat idx =? Z.of_nat (length before) + streamingAssistantIndex s)%Z
                    then mutator msg else Some msg) (messages s) =
               mapFrom 0
                 (fun (msg : Message) (idx : nat) =>
                    if (Z.of_nat idx =? streamingAssistantIndex s)%Z
                    then mutator msg else Some msg) (messages s)).
  { simpl. rewrite <- (Nat.add_0_r (length before)) at 1. rewrite mapFrom_shift.
    apply mapFrom_ext. intros x j _.
    destruct (Z.eqb_spec (Z.of_nat (length before + j))
      (Z.of_nat (length before) + streamingAssistantIndex s));
    destruct (Z.eqb_spec (Z.of_nat j) (streamingAssistantIndex s)); try reflexivity; lia. }
  rewrite E2. destruct (mapFrom 0 _ (messages s)); reflexivity.
Qed.

Lemma patch_index_opt mutator s s' :
  patchAssistantMessage mutator s = Some s' ->
  streamingAssistantIndex s' = streamingAssistantIndex s.
Proof.
  unfold patchAssistantMessage. destruct (_ <? _)%Z; [now intros [= <-]|].
  destruct (mapIdx _ _); [now intros [= <-]|discriminate].
Qed.


Lemma patch_total (f : Message -> Message) s :
  patchAssistantMessage (fun msg => Some (f msg)) s = Some (patched f s).
Proof.
  unfold patched. destruct (patchAssistantMessage _ s) eqn:E; [reflexivity|].
  exfalso. unfold patchAssistantMessage in E. destruct (_ <? _)%Z; [discriminate|].
  unfold mapIdx in E.
  destruct (mapFrom 0 _ (messages s)) eqn:E'; [discriminate|].
  revert E'. apply mapFrom_total. intros x j. destruct (_ =? _)%Z; discriminate.
Qed.

Lemma references_patched refs s :
  applyAssistantReferences refs s = Some (patched (withReferences refs) s).
Proof. apply patch_total. Qed.

Lemma overwrite_patched text s :
  overwriteAssistant text s = Some (patched (withText text) s).
Proof. apply patch_total. Qed.

Lemma patch_frame (f : Message -> Message) before s :
  (0 <= streamingAssistantIndex s)%Z ->
  patched f (frame before s) = frame before (patched f s).
Proof.
  intro H. unfold patched at 1. rewrite patch_frame_opt by exact H.
  rewrite patch_total. reflexivity.
Qed.

Lemma patch_index f s :
  streamingAssistantIndex (patched f s) = streamingAssistantIndex s.
Proof. apply (patch_index_opt (fun msg => Some (f msg))), patch_total. Qed.

Lemma updated_index l s r :
  (forall s', r = Some s' -> streamingAssistantIndex s' = streamingAssistantIndex s) ->
  streamingAssistantIndex (sessionOf (updated l s r)) = streamingAssistantIndex s.
Proof. destruct r as [s'|]; cbn [updated sessionOf]; [intro H; now apply H|reflexivity]. Qed.

Lemma updated_frame l before s r :
  updated l (frame before s) (option_map (frame before) r) = frameC before (updated l s r).
Proof. destruct r; reflexivity. Qed.

(** ** The dispatcher *)

Lemma dispatch_kind (e : JValue) (l : Local) (s : Session) :
  dispatch e l s =
  match eventKind e with
  | KNull => Thrown TypeError_ s
  | KChunk =>
      updated (markChunk l) s
        (appendAssistantDelta (orElse (get e (lit "delta")) (JStr [])) s)
  | KReferences =>
      Normal l (patched (withReferences (orElse (get e (lit "references")) (JArr []))) s)
  | KError =>
      Normal (markError l)
        (patched
           (withText (orElse (get e (lit "message"))
                        (JStr (lit "Chat failed. Please retry.")))) s)
  | KUnknown => Normal l s
  end.
Proof.
  unfold dispatch, eventKind.
  destruct e; try reflexivity;
    repeat match goal with |- context [if ?b then _ else _] => destruct b end;
    rewrite ?references_patched, ?overwrite_patched; reflexivity.
Qed.

Lemma dispatch_index e l s :
  streamingAssistantIndex (sessionOf (dispatch e l s)) = streamingAssistantIndex s.
Proof.
  rewrite dispatch_kind. destruct (eventKind e); cbn [sessionOf];
    rewrite ?patch_index; try reflexivity.
  apply updated_index. intros s'. apply patch_index_opt.
Qed.

Lemma dispatch_frame e l before s :
  (0 <= streamingAssistantIndex s)%Z ->
  dispatch e l (frame before s) = frameC before (dispatch e l s).
Proof.
  intro H. rewrite !dispatch_kind. destruct (eventKind e); cbn [frameC];
    rewrite ?patch_frame by exact H; try reflexivity.
  unfold appendAssistantDelta. rewrite patch_frame_opt by exact H.
  apply updated_frame.
Qed.

Lemma handleEvent_index e l s :
  streamingAssistantIndex (sessionOf (handleEvent e l s)) = streamingAssistantIndex s.
Proof.
  unfold handleEvent. destruct (shouldAbort l); [reflexivity|apply dispatch_index].
Qed.

Lemma handleEvent_frame e l before s :
  (0 <= streamingAssistantIndex s)%Z ->
  handleEvent e l (frame before s) = frameC before (handleEvent e l s).
Proof.
  intro H. unfold handleEvent. destruct (shouldAbort l); [reflexivity|].
  now apply dispatch_frame.
Qed.

Lemma runEvents_index evs l s :
  streamingAssistantIndex (sessionOf (runEvents evs l s)) = streamingAssistantIndex s.
Proof.
  revert l s; induction evs as [|e evs IH]; intros l s; simpl; [reflexivity|].
  pose proof (handleEvent_index e l s) as H.
  destruct (handleEvent e l s) as [l' s'|err s']; simpl in *; [|exact H].
  rewrite IH. exact H.
Qed.

Lemma runEvents_frame evs l before s :
  (0 <= streamingAssistantIndex s)%Z ->
  runEvents evs l (frame before s) = frameC before (runEvents evs l s).
Proof.
  revert l s; induction evs as [|e evs IH]; intros l s H; simpl; [reflexivity|].
  rewrite handleEvent_frame by exact H.
  pose proof (handleEvent_index e l s) as Hi.
  destruct (handleEvent e l s) as [l' s'|err s']; simpl in *; [|reflexivity].
  apply IH. lia.
Qed.

Lemma emptyResultFallback_frame l before s :
  (0 <= streamingAssistantIndex s)%Z ->
  emptyResultFallback l (frame before s) = frameC before (emptyResultFallback l s).
Proof.
  intro H. unfold emptyResultFallback.
  destruct (negb (receivedChunk l) && negb (receivedError l)); [|reflexivity].
  rewrite !overwrite_patched. cbn [updated frameC].
  rewrite patch_frame by exact H. reflexivity.
Qed.

Lemma applyStream_frame evs before s :
  (0 <= streamingAssistantIndex s)%Z ->
  applyStream evs (frame before s) = frameC before (applyStream evs s).
Proof.
  intro H. unfold applyStream. rewrite runEvents_frame by exact H.
  pose proof (runEvents_index evs initialLocal s) as Hi.
  destruct (runEvents evs initialLocal s) as [l' s'|err s']; simpl in *; [|reflexivity].
  apply emptyResultFallback_frame. lia.
Qed.

Lemma finishRequest_frame before c :
  (0 <= streamingAssistantIndex (sessionOf c))%Z ->
  messages (finishRequest (frameC before c)) = before ++ messages (finishRequest c).
Proof.
  intro H. destruct c as [l s|e s]; simpl in *; [reflexivity|].
  rewrite !overwrite_patched. rewrite patch_frame by exact H. reflexivity.
Qed.

Lemma requestState_frame before c : requestState (frameC before c) = requestState c.
Proof. destruct c; reflexivity. Qed.

(** A request starts from a one-message conversation framed by what came
    before. *)
Lemma startRequest_frame (q : jsstring) (s : Session) :
  startRequest q s =
  frame (messages s ++ [mkMessage user (JStr q) None])
    (mkSession [pendingMessage] [] true 0).
Proof.
  unfold startRequest, frame, pendingMessage. simpl.
  rewrite <- app_assoc. simpl. f_equal.
  rewrite !length_app. simpl. lia.
Qed.

(** ** Streams on the active message *)

Lemma startRequest_solo (q : jsstring) (s : Session) :
  startRequest q s =
  frame (messages s ++ [mkMessage user (JStr q) None]) (solo pendingMessage).
Proof. apply startRequest_frame. Qed.

Lemma patch_solo_opt mutator m :
  patchAssistantMessage mutator (solo m) = option_map solo (mutator m).
Proof.
  unfold patchAssistantMessage, mapIdx. cbn. destruct (mutator m); reflexivity.
Qed.

Lemma patch_solo f m : patched f (solo m) = solo (f m).
Proof. unfold patched. rewrite patch_solo_opt. reflexivity. Qed.

Lemma runEvents_app a b l s :
  runEvents (a ++ b) l s = bind (runEvents a l s) (runEvents b).
Proof.
  revert l s; induction a as [|e a IH]; intros l s; simpl.
  - reflexivity.
  - destruct (handleEvent e l s) as [l' s'|err s']; simpl; [apply IH|reflexivity].
Qed.

(** Once the abort flag is set, no event is dispatched. *)
Lemma runEvents_aborted evs l s :
  shouldAbort l = true -> runEvents evs l s = Normal l s.
Proof.
  intro H. induction evs as [|e evs IH]; simpl; [reflexivity|].
  unfold handleEvent. rewrite H. simpl. exact IH.
Qed.


Lemma solo_index m : (0 <= streamingAssistantIndex (solo m))%Z.
Proof. simpl. lia. Qed.

Lemma finish_solo l before m :
  messages (finishRequest (frameC before (Normal l (solo m)))) = before ++ [m].
Proof. reflexivity. Qed.

(** ** C5: the three-event stream *)

(** C5. The stream [chunk "Hello "; chunk "world"; references ["[1] Docs —
    https://x"]] applied to a fresh pending assistant message and followed
    by the end of the stream leaves the request Finalized with content
    "Hello world"; the reference list normalises to the single entry with
    label "1", title "Docs" and url "https://x"; the first delta replaces
    the placeholder and the second is appended. *)
Theorem C5_hello_world_stream (s : Session) (q : jsstring) :
  let s0 := startRequest q s in
  let c := applyStream [chunkEvent (lit "Hello "); chunkEvent (lit "world");
                        referencesEvent [c5_reference]] s0 in
  content pendingMessage = JStr STREAMING_PLACEHOLDER /\
  activeMessage s0 = Some pendingMessage /\
  requestState c = Finalized /\
  messages (finishRequest c) =
    messages s ++ [mkMessage user (JStr q) None;
                   mkMessage assistant (JStr (lit "Hello world"))
                     (Some (JArr [JStr c5_reference]))] /\
  option_map normalizeReferences (referenceStrings (Some (JArr [JStr c5_reference]))) =
    Some [mkRef (lit "1") (lit "Docs") (lit "https://x")] /\
  messages (sessionOf (runEvents [chunkEvent (lit "Hello ")] initialLocal s0)) =
    messages s ++ [mkMessage user (JStr q) None;
                   mkMessage assistant (JStr (lit "Hello ")) (Some (JArr []))] /\
  messages (sessionOf (runEvents [chunkEvent (lit "Hello "); chunkEvent (lit "world")]
                         initialLocal s0)) =
    messages s ++ [mkMessage user (JStr q) None;
                   mkMessage assistant (JStr (lit "Hello world")) (Some (JArr []))].
Proof.
  intros s0 c. subst c s0. rewrite startRequest_solo.
  rewrite applyStream_frame, !runEvents_frame by apply solo_index.
  rewrite requestState_frame.
  repeat split; try reflexivity.
  - unfold activeMessage, frame. cbn [messages solo].
    apply lastOf_snoc.
  - rewrite finishRequest_frame by (vm_compute; discriminate).
    rewrite <- app_assoc. reflexivity.
  - cbn. rewrite <- app_assoc. reflexivity.
  - cbn. rewrite <- app_assoc. reflexivity.
Qed.

(** ** C2: a non-success status *)

Lemma finish_thrown e q s :
  messages (finishRequest (Thrown e (startRequest q s))) =
  messages s ++ [mkMessage user (JStr q) None;
                 mkMessage assistant (JStr (lit "Search failed. Check the FastAPI logs."))
                   (Some (JArr []))].
Proof.
  rewrite startRequest_solo.
  change (Thrown e (frame ?b ?x)) with (frameC b (Thrown e x)).
  rewrite finishRequest_frame by apply solo_index.
  rewrite <- app_assoc. reflexivity.
Qed.

(** C2 (amended). A response with a non-success status makes the request
    fail at transport level: the [try] block throws an error whose message
    is the response body (or "Chat failed." when the body is empty), the
    request is Failed, and the content of the assistant message is the fixed
    text "Search failed. Check the FastAPI logs.", whatever the body. *)
Theorem C2_non_success_status (P : jsstring -> option JValue) (r : Response) (s : Session) :
  ok r = false ->
  isLoading s = false ->
  trim (input s) <> [] ->
  let q := trim (input s) in
  sendMessageState P (FetchResolves r) s = Failed /\
  messages (sendMessage P (FetchResolves r) s) =
    messages s ++ [mkMessage user (JStr q) None;
                   mkMessage assistant (JStr (lit "Search failed. Check the FastAPI logs."))
                     (Some (JArr []))] /\
  (forall body, text r = Some body ->
     tryBlock P (FetchResolves r) (startRequest q s) =
     Thrown (Error_ (if JsString.eqb body [] then lit "Chat failed." else body))
       (startRequest q s)).
Proof.
  intros Hok Hl Hq q. subst q.
  apply eqb_neq in Hq.
  unfold sendMessageState, sendMessage. rewrite Hl, Hq.
  unfold tryBlock. rewrite Hok. cbn [negb].
  destruct (text r) as [body|]; (split; [reflexivity|]); (split; [apply finish_thrown|]).
  - intros b [= <-]. reflexivity.
  - discriminate.
Qed.

Lemma C2_non_success_status_witness :
  let r := mkResponse false (Some (lit "boom")) None in
  let s := setInput (lit "hi") initialSession in
  sendMessageState parseAtom (FetchResolves r) s = Failed /\
  messages (sendMessage parseAtom (FetchResolves r) s) =
    messages s ++ [mkMessage user (JStr (lit "hi")) None;
                   mkMessage assistant (JStr (lit "Search failed. Check the FastAPI logs."))
                     (Some (JArr []))] /\
  tryBlock parseAtom (FetchResolves r) (startRequest (lit "hi") s) =
    Thrown (Error_ (lit "boom")) (startRequest (lit "hi") s).
Proof.
  destruct (C2_non_success_status parseAtom (mkResponse false (Some (lit "boom")) None)
              (setInput (lit "hi") initialSession)) as (H1 & H2 & H3).
  - reflexivity.
  - reflexivity.
  - vm_compute. discriminate.
  - split; [exact H1|]. split; [exact H2|]. apply (H3 (lit "boom")). reflexivity.
Defined.

(** C2, as stated, fails: the body "boom" of a non-success response is not
    the content shown. *)
Lemma C2_counterexample_body_not_shown :
  let r := mkResponse false (Some (lit "boom")) None in
  let s' := sendMessage parseAtom (FetchResolves r) (setInput (lit "hi") initialSession) in
  activeMessage s' =
    Some (mkMessage assistant (JStr (lit "Search failed. Check the FastAPI logs."))
            (Some (JArr []))) /\
  ~ (exists refs, activeMessage s' = Some (mkMessage assistant (JStr (lit "boom")) refs)).
Proof.
  split; [reflexivity|].
  intros [refs H]. vm_compute in H. discriminate.
Qed.

(** ** C7: lines that are not events *)

(** A line [JSON.parse] rejects, and a parsed line the switch does not
    recognise, leave everything as it is. *)
Lemma processEventLine_rejected (P : jsstring -> option JValue) line l s :
  P line = None -> processEventLine P line l s = Normal l s.
Proof.
  intro H. unfold processEventLine. rewrite H.
  destruct (JsString.eqb line [] || shouldAbort l); reflexivity.
Qed.

Lemma processEventLine_unknown (P : jsstring -> option JValue) line e l s :
  P line = Some e -> eventKind e = KUnknown -> processEventLine P line l s = Normal l s.
Proof.
  intros H K. unfold processEventLine. rewrite H, dispatch_kind, K.
  destruct (JsString.eqb line [] || shouldAbort l); reflexivity.
Qed.

(** C7 (the failing case). A line [JSON.parse] rejects is ignored, and so is
    a parsed line that is not null and whose [type] is missing or not
    recognised; but the line [null] is valid JSON without a [type] field,
    reading [event.type] on it throws, so the dispatcher does not return
    normally, and the request that receives the line ends Failed with the
    assistant message overwritten. *)
Theorem C7_null_line_throws (P : jsstring -> option JValue) :
  (forall line l s, P line = None -> processEventLine P line l s = Normal l s) /\
  (forall line e l s, P line = Some e -> eventKind e = KUnknown ->
     processEventLine P line l s = Normal l s) /\
  (P (lit "null") = Some JNull ->
   (forall l s, shouldAbort l = false ->
      processEventLine P (lit "null") l s = Thrown TypeError_ s) /\
   let f := FetchResolves (mkResponse true None (Some (mkBody [lit "null" ++ [10]] Done))) in
   let s := setInput (lit "hi") initialSession in
   sendMessageState P f s = Failed /\
   messages (sendMessage P f s) =
     messages initialSession ++
       [mkMessage user (JStr (lit "hi")) None;
        mkMessage assistant (JStr (lit "Search failed. Check the FastAPI logs."))
          (Some (JArr []))]).
Proof.
  split; [|split].
  - intros line l s H. now apply processEventLine_rejected.
  - intros line e l s H K. now apply (processEventLine_unknown P line e).
  - intro H. split.
    + intros l s Hl. unfold processEventLine. rewrite Hl, H. reflexivity.
    + vm_compute in H. vm_compute. rewrite H. split; reflexivity.
Qed.

Lemma C7_null_line_throws_witness :
  processEventLine parseAtom (lit "not json") initialLocal initialSession =
    Normal initialLocal initialSession /\
  processEventLine parseAtom (lit "{}") initialLocal initialSession =
    Normal initialLocal initialSession /\
  processEventLine parseAtom (lit "null") initialLocal initialSession =
    Thrown TypeError_ initialSession /\
  let f := FetchResolves (mkResponse true None (Some (mkBody [lit "null" ++ [10]] Done))) in
  let s := setInput (lit "hi") initialSession in
  sendMessageState parseAtom f s = Failed /\
  messages (sendMessage parseAtom f s) =
    messages initialSession ++
      [mkMessage user (JStr (lit "hi")) None;
       mkMessage assistant (JStr (lit "Search failed. Check the FastAPI logs."))
         (Some (JArr []))].
Proof.
  destruct (C7_null_line_throws parseAtom) as (H1 & H2 & H3).
  split; [apply H1; reflexivity|].
  split; [apply (H2 (lit "{}") (JObj [])); reflexivity|].
  destruct H3 as [H3 H4]; [reflexivity|].
  split; [|exact H4]. apply H3. reflexivity.
Defined.

(** ** C1: the References block *)

(** C1 (what the code does). On the input of the claim the parser returns two
    sections: "Summary" with its list, and a section with an empty heading
    that holds the line after the References heading as a paragraph. *)
Theorem C1_references_body_parsed :
  parseAssistantSections c1_input =
    [mkSection (lit "Summary") [ListBlock [lit "point one"; lit "point two"]];
     mkSection [] [Paragraph (lit "[1] Guide " ++ [0x2014] ++ lit " https://a")]].
Proof. vm_compute. reflexivity. Qed.

(** ** The line decoder *)

Lemma split_nonempty sep s : split sep s <> [].
Proof.
  destruct s as [|c s]; simpl; [discriminate|].
  destruct (c =? sep); [discriminate|]. destruct (split sep s); discriminate.
Qed.

Lemma split_cons_other sep c s :
  (c =? sep) = false ->
  split sep (c :: s) = (c :: hd [] (split sep s)) :: tl (split sep s).
Proof.
  intro H. simpl. rewrite H.
  pose proof (split_nonempty sep s). destruct (split sep s); [contradiction|reflexivity].
Qed.

(** Splitting a concatenation: the complete segments of the first part,
    then the split of its last segment followed by the second part. *)
Lemma split_app sep a b :
  split sep (a ++ b) =
  removelast (split sep a) ++ split sep (last (split sep a) [] ++ b).
Proof.
  induction a as [|c a IH].
  - reflexivity.
  - pose proof (split_nonempty sep a) as Hne.
    cbn [app]. destruct (c =? sep) eqn:E.
    + simpl. rewrite E.
      destruct (split sep a) as [|seg segs] eqn:Es; [contradiction|].
      rewrite IH. reflexivity.
    + rewrite !(split_cons_other _ _ _ E). rewrite IH.
      destruct (split sep a) as [|seg segs] eqn:Es; [contradiction|].
      destruct segs as [|seg' segs].
      * cbn -[split]. rewrite (split_cons_other _ _ _ E). reflexivity.
      * reflexivity.
Qed.

Lemma split_no_sep sep s : ~ In sep s -> split sep s = [s].
Proof.
  induction s as [|c s IH]; intro H; [reflexivity|].
  simpl. destruct (N.eqb_spec c sep) as [->|_].
  - exfalso. apply H. now left.
  - rewrite IH; [reflexivity|]. intro Hin. apply H. now right.
Qed.

Lemma split_segments_no_sep sep s : Forall (fun seg => ~ In sep seg) (split sep s).
Proof.
  induction s as [|c s IH]; simpl.
  - constructor; [intros []|constructor].
  - destruct (N.eqb_spec c sep) as [->|Hc].
    + constructor; [intros []|exact IH].
    + destruct (split sep s) as [|seg segs]; [repeat constructor; intros [?|[]]; congruence|].
      inversion IH; subst. constructor; [|assumption].
      intros [?|?]; [congruence|contradiction].
Qed.

Lemma last_split_no_sep sep s : ~ In sep (last (split sep s) []).
Proof.
  pose proof (split_segments_no_sep sep s) as H.
  pose proof (split_nonempty sep s) as Hne.
  rewrite Forall_forall in H. apply H.
  destruct (split sep s) as [|x l]; [contradiction|].
  destruct (exists_last Hne) as (l' & y & E). rewrite E, last_last.
  apply in_or_app. right. now left.
Qed.

Lemma join_cons sep p l : l <> [] -> join sep (p :: l) = p ++ sep ++ join sep l.
Proof. destruct l; [contradiction|reflexivity]. Qed.

Lemma join_split (s : jsstring) : join [10] (split 10 s) = s.
Proof.
  induction s as [|c s IH]; [reflexivity|].
  pose proof (split_nonempty 10 s) as Hne.
  change (split 10 (c :: s)) with
    (if c =? 10 then [] :: split 10 s
     else match split 10 s with seg :: segs => (c :: seg) :: segs | [] => [[c]] end).
  destruct (N.eqb_spec c 10) as [->|Hc].
  - rewrite join_cons by exact Hne. rewrite IH. reflexivity.
  - destruct (split 10 s) as [|seg segs]; [contradiction|].
    destruct segs as [|seg' segs].
    + cbn [join] in *. now rewrite IH.
    + rewrite join_cons by discriminate. rewrite join_cons in IH by discriminate.
      rewrite <- IH. reflexivity.
Qed.

(** Decoding is a left fold over the bytes: decoding a concatenation is
    decoding the parts in turn, the state carried over. *)
Lemma decode_acc (f : TextDecoder.State -> N -> TextDecoder.State * jsstring)
    bytes st out :
  fold_left (fun acc b => let '(st', o) := acc in
                          let '(st'', o') := f st' b in (st'', o ++ o'))
    bytes (st, out) =
  let '(st1, o1) :=
    fold_left (fun acc b => let '(st', o) := acc in
                            let '(st'', o') := f st' b in (st'', o ++ o'))
      bytes (st, []) in
  (st1, out ++ o1).
Proof.
  revert st out. induction bytes as [|b bytes IH]; intros st out; simpl.
  - now rewrite app_nil_r.
  - destruct (f st b) as [st' o']. cbn [app].
    rewrite (IH st' (out ++ o')), (IH st' o').
    destruct (fold_left _ bytes (st', [])) as [st1 o1].
    now rewrite app_assoc.
Qed.

Lemma decode_app st a b :
  TextDecoder.decode st (a ++ b) =
  let '(st1, o1) := TextDecoder.decode st a in
  let '(st2, o2) := TextDecoder.decode st1 b in
  (st2, o1 ++ o2).
Proof.
  unfold TextDecoder.decode. rewrite fold_left_app.
  destruct (fold_left _ a (st, [])) as [st1 o1].
  apply (decode_acc TextDecoder.decodeByte).
Qed.

Lemma removelast_app_split sep (l : list jsstring) s :
  removelast (l ++ split sep s) = l ++ removelast (split sep s).
Proof. apply removelast_app, split_nonempty. Qed.

Lemma last_app_split sep (l : list jsstring) s :
  last (l ++ split sep s) [] = last (split sep s) [].
Proof.
  pose proof (split_nonempty sep s) as H.
  destruct (exists_last H) as (l' & y & E). rewrite E, app_assoc, !last_last.
  reflexivity.
Qed.

(** The loop over the chunks: what is carried over and what is handed on
    depend only on the text decoded so far. *)
Lemma feedAll_spec cs d buf :
  ~ In 10 buf ->
  feedAll (d, buf) cs =
  let '(d', t) := TextDecoder.decode d (concat cs) in
  ((d', last (split 10 (buf ++ t)) []), map trim (removelast (split 10 (buf ++ t)))).
Proof.
  revert d buf. induction cs as [|v cs IH]; intros d buf Hbuf.
  - simpl. rewrite app_nil_r, split_no_sep by exact Hbuf. reflexivity.
  - cbn [feedAll concat]. unfold feed. cbn [fst snd]. rewrite decode_app.
    destruct (TextDecoder.decode d v) as [d1 t1]. unfold popLine.
    rewrite IH by apply last_split_no_sep.
    destruct (TextDecoder.decode d1 (concat cs)) as [d2 t2].
    rewrite (app_assoc buf t1 t2), (split_app 10 (buf ++ t1) t2).
    rewrite removelast_app_split, last_app_split, map_app. reflexivity.
Qed.

Lemma decoderLines_spec cs :
  let segs := split 10 (decodedText (concat cs)) in
  loopLines cs = map trim (removelast segs) /\
  flushed cs = (if JsString.eqb (trim (last segs [])) [] then [] else [trim (last segs [])]) /\
  decoderLines cs = loopLines cs ++ flushed cs.
Proof.
  unfold loopLines, flushed, decoderLines, decodedText, flush.
  rewrite (feedAll_spec cs TextDecoder.initial []) by (intros []).
  destruct (TextDecoder.decode TextDecoder.initial (concat cs)) as [d t].
  cbn [fst snd app]. auto.
Qed.

Lemma reinsert_join (segs : list jsstring) :
  segs <> [] ->
  concat (map (fun l => l ++ [10]) (removelast segs)) ++ last segs [] = join [10] segs.
Proof.
  induction segs as [|p segs IH]; intro H; [contradiction|].
  destruct segs as [|p' segs].
  - reflexivity.
  - rewrite join_cons by discriminate.
    change (removelast (p :: p' :: segs)) with (p :: removelast (p' :: segs)).
    change (last (p :: p' :: segs) []) with (last (p' :: segs) []).
    cbn [map concat]. rewrite <- !app_assoc. rewrite IH by discriminate. reflexivity.
Qed.

(** ** The read loop hands the events of the stream to the dispatcher *)

Lemma outcome_finish c1 c2 :
  outcome c1 = outcome c2 ->
  finishRequest c1 = finishRequest c2 /\ requestState c1 = requestState c2.
Proof.
  destruct c1 as [l1 s1|e1 s1], c2 as [l2 s2|e2 s2]; cbn [outcome]; intro H;
    try discriminate.
  - assert (Hf : flagsOf l1 = flagsOf l2) by congruence.
    assert (Hs : s1 = s2) by congruence. subst.
    unfold flagsOf in Hf. cbn [requestState finishRequest].
    assert (He : receivedError l1 = receivedError l2) by congruence.
    rewrite He. auto.
  - assert (He : e1 = e2) by congruence.
    assert (Hs : s1 = s2) by congruence. subst. auto.
Qed.

Lemma outcome_bind c1 c2 k1 k2 :
  outcome c1 = outcome c2 ->
  (forall l1 l2 s, flagsOf l1 = flagsOf l2 -> outcome (k1 l1 s) = outcome (k2 l2 s)) ->
  outcome (bind c1 k1) = outcome (bind c2 k2).
Proof.
  destruct c1 as [l1 s1|e1 s1], c2 as [l2 s2|e2 s2]; cbn [outcome bind]; intros H K;
    try discriminate; [|exact H].
  assert (Hf : flagsOf l1 = flagsOf l2) by congruence.
  assert (Hs : s1 = s2) by congruence. subst. now apply K.
Qed.

Lemma flagsOf_eq l1 l2 :
  flagsOf l1 = flagsOf l2 ->
  receivedChunk l1 = receivedChunk l2 /\ receivedError l1 = receivedError l2 /\
  shouldAbort l1 = shouldAbort l2.
Proof. unfold flagsOf. intros [= -> -> ->]. auto. Qed.

Lemma dispatch_flags e l1 l2 s :
  flagsOf l1 = flagsOf l2 -> outcome (dispatch e l1 s) = outcome (dispatch e l2 s).
Proof.
  intro H. apply flagsOf_eq in H as (Hc & He & Ha).
  rewrite !dispatch_kind.
  destruct (eventKind e); try destruct (appendAssistantDelta _ s);
    simpl; unfold flagsOf; simpl; rewrite ?Hc, ?He, ?Ha; reflexivity.
Qed.

Lemma handleEvent_flags e l1 l2 s :
  flagsOf l1 = flagsOf l2 -> outcome (handleEvent e l1 s) = outcome (handleEvent e l2 s).
Proof.
  intro H. unfold handleEvent. pose proof (flagsOf_eq _ _ H) as (_ & _ & Ha).
  rewrite Ha. destruct (shouldAbort l2).
  - simpl. now rewrite H.
  - now apply dispatch_flags.
Qed.

Lemma runEvents_flags evs l1 l2 s :
  flagsOf l1 = flagsOf l2 -> outcome (runEvents evs l1 s) = outcome (runEvents evs l2 s).
Proof.
  revert l1 l2 s. induction evs as [|e evs IH]; intros l1 l2 s H; simpl.
  - now rewrite H.
  - apply outcome_bind; [now apply handleEvent_flags|]. intros. now apply IH.
Qed.

Lemma emptyResultFallback_flags l1 l2 s :
  flagsOf l1 = flagsOf l2 ->
  outcome (emptyResultFallback l1 s) = outcome (emptyResultFallback l2 s).
Proof.
  intro H. pose proof (flagsOf_eq _ _ H) as (Hc & He & _).
  unfold emptyResultFallback. rewrite Hc, He.
  destruct (negb (receivedChunk l2) && negb (receivedError l2));
    rewrite ?overwrite_patched; simpl; now rewrite H.
Qed.

(** The dispatcher does not touch the decoder or the buffer. *)
Lemma dispatch_buffer e l s l' s' :
  dispatch e l s = Normal l' s' -> decoder l' = decoder l /\ buffer l' = buffer l.
Proof.
  rewrite dispatch_kind.
  destruct (eventKind e); try destruct (appendAssistantDelta _ s);
    cbn [updated]; try discriminate; intros [= <- _]; auto.
Qed.

Lemma runEvents_buffer evs l s l' s' :
  runEvents evs l s = Normal l' s' -> decoder l' = decoder l /\ buffer l' = buffer l.
Proof.
  revert l s. induction evs as [|e evs IH]; intros l s; simpl.
  - intros [= <- _]. auto.
  - unfold handleEvent. destruct (shouldAbort l); simpl.
    + apply IH.
    + destruct (dispatch e l s) as [l1 s1|] eqn:E; simpl; [|discriminate].
      intro H. apply IH in H as [H1 H2]. apply dispatch_buffer in E as [E1 E2].
      split; congruence.
Qed.

Lemma eventsOf_app P a b : eventsOf P (a ++ b) = eventsOf P a ++ eventsOf P b.
Proof. apply flat_map_app. Qed.

Lemma processEventLine_events P line l s :
  processEventLine P line l s = runEvents (eventsOf P [line]) l s.
Proof.
  unfold processEventLine, eventsOf. cbn [flat_map]. rewrite app_nil_r.
  destruct (JsString.eqb line []); [reflexivity|]. cbn [orb].
  destruct (P line) as [e|]; cbn [runEvents]; unfold handleEvent;
    destruct (shouldAbort l); try reflexivity.
  destruct (dispatch e l s); reflexivity.
Qed.

Lemma forEachLine_events P lines l s :
  forEachLine P lines l s = runEvents (eventsOf P (map trim lines)) l s.
Proof.
  revert l s. induction lines as [|line lines IH]; intros l s; [reflexivity|].
  cbn [forEachLine map].
  change (trim line :: map trim lines) with ([trim line] ++ map trim lines).
  rewrite eventsOf_app, runEvents_app, processEventLine_events.
  destruct (runEvents (eventsOf P [trim line]) l s); simpl; [apply IH|reflexivity].
Qed.

Lemma bind_assoc c k1 k2 :
  bind (bind c k1) k2 = bind c (fun l s => bind (k1 l s) k2).
Proof. destruct c; reflexivity. Qed.

(** The loop and the flush after it: the events of the lines, in order. *)
Lemma readLoop_flush_events P cs l s :
  ~ In 10 (buffer l) ->
  outcome (bind (readLoop P cs Done l s) (flushBuffer P)) =
  outcome (runEvents
             (eventsOf P (snd (feedAll (decoder l, buffer l) cs) ++
                          flush (fst (feedAll (decoder l, buffer l) cs)))) l s).
Proof.
  revert l s. induction cs as [|v cs IH]; intros l s Hb.
  - cbn [readLoop feedAll fst snd bind app]. unfold flushBuffer, flush. cbn [snd].
    destruct (shouldAbort l) eqn:Ha; cbn [negb andb].
    + rewrite runEvents_aborted by exact Ha. reflexivity.
    + destruct (JsString.eqb (trim (buffer l)) []); cbn [negb].
      * reflexivity.
      * rewrite processEventLine_events. reflexivity.
  - cbn [readLoop feedAll]. unfold feed. cbn [fst snd].
    destruct (TextDecoder.decode (decoder l) v) as [d1 decoded].
    unfold popLine.
    set (rest := last (split 10 (buffer l ++ decoded)) []).
    set (lines := removelast (split 10 (buffer l ++ decoded))).
    set (l1 := mkLocal d1 rest (receivedChunk l) (receivedError l) (shouldAbort l)).
    destruct (feedAll (d1, rest) cs) as [st2 lines'] eqn:Ef. cbn [fst snd].
    rewrite <- app_assoc, eventsOf_app, runEvents_app, forEachLine_events.
    pose proof (runEvents_flags (eventsOf P (map trim lines)) l1 l s eq_refl) as Ho.
    destruct (runEvents (eventsOf P (map trim lines)) l1 s) as [l2 s2|e2 s2] eqn:E1;
      destruct (runEvents (eventsOf P (map trim lines)) l s) as [l2' s2'|e2' s2'] eqn:E1';
      cbn [outcome] in Ho; try discriminate; [|exact Ho].
    assert (Hfl : flagsOf l2 = flagsOf l2') by congruence.
    assert (Hs : s2 = s2') by congruence. subst s2'. clear Ho. cbn [bind].
    pose proof (flagsOf_eq _ _ Hfl) as (_ & _ & Ha).
    apply runEvents_buffer in E1 as [Hd2 Hb2]. cbn in Hd2, Hb2.
    destruct (shouldAbort l2) eqn:Ha2.
    + cbn [bind]. unfold flushBuffer. rewrite Ha2. cbn [negb andb].
      rewrite runEvents_aborted by congruence. cbn [outcome]. now rewrite Hfl.
    + rewrite IH by (rewrite Hb2; apply last_split_no_sep).
      rewrite Hd2, Hb2, Ef. cbn [fst snd].
      now apply runEvents_flags.
Qed.

Lemma readLoop_events P cs l s :
  ~ In 10 (buffer l) ->
  outcome (bind (readLoop P cs Done l s) (afterLoop P)) =
  outcome (bind (runEvents
                   (eventsOf P (snd (feedAll (decoder l, buffer l) cs) ++
                                flush (fst (feedAll (decoder l, buffer l) cs)))) l s)
             emptyResultFallback).
Proof.
  intro Hb.
  change (afterLoop P) with (fun l s => bind (flushBuffer P l s) emptyResultFallback).
  rewrite <- bind_assoc.
  apply outcome_bind; [now apply readLoop_flush_events|].
  intros. now apply emptyResultFallback_flags.
Qed.

(** X20. A request whose response streams to its end is the stream of the
    events of its lines applied to the pending message: what the read loop
    does with the buffers, the decoder, the line buffer and the flush after
    the loop is to hand the events of the non-empty trimmed lines that
    [JSON.parse] accepts to the dispatcher, in order, and to apply the
    empty-result fallback at the end. *)
Theorem sendMessage_applyStream (P : jsstring -> option JValue) t cs (s : Session) :
  isLoading s = false ->
  trim (input s) <> [] ->
  let f := FetchResolves (mkResponse true t (Some (mkBody cs Done))) in
  let c := applyStream (eventsOf P (decoderLines cs)) (startRequest (trim (input s)) s) in
  sendMessage P f s = finishRequest c /\ sendMessageState P f s = requestState c.
Proof.
  intros Hl Hq f c. apply eqb_neq in Hq.
  unfold sendMessage, sendMessageState. rewrite Hl, Hq.
  apply outcome_finish. subst f c. cbn [tryBlock ok negb responseBody chunks ending].
  rewrite readLoop_events by (intros []).
  destruct (decoderLines_spec cs) as (_ & _ & ->). reflexivity.
Qed.

(** A request end to end: the two bytes of the line [{}] arrive in separate
    buffers, the line is an event of no known type, and the stream ends
    without a chunk. *)
Example sendMessage_empty_result :
  let f := FetchResolves (mkResponse true None (Some (mkBody [[123]; [125; 10]] Done))) in
  let s := setInput (lit " hi ") initialSession in
  sendMessageState parseAtom f s = Finalized /\
  sendMessage parseAtom f s =
    mkSession
      (messages initialSession ++
       [mkMessage user (JStr (lit "hi")) None;
        mkMessage assistant (JStr (lit "I couldn't find anything for that query."))
          (Some (JArr []))])
      [] false (-1).
Proof. split; reflexivity. Qed.

(** ** The request leaves the earlier messages alone *)


Lemma bind_frame before c k k' :
  (forall l s, streamingAssistantIndex s = streamingAssistantIndex (sessionOf c) ->
     k l (frame before s) = frameC before (k' l s)) ->
  bind (frameC before c) k = frameC before (bind c k').
Proof. destruct c as [l s|e s]; simpl; intro H; [now apply H|reflexivity]. Qed.

Lemma forEachLine_index P lines l s :
  streamingAssistantIndex (sessionOf (forEachLine P lines l s)) = streamingAssistantIndex s.
Proof. rewrite forEachLine_events. apply runEvents_index. Qed.

Lemma forEachLine_frame P lines l before s :
  (0 <= streamingAssistantIndex s)%Z ->
  forEachLine P lines l (frame before s) = frameC before (forEachLine P lines l s).
Proof. intro H. rewrite !forEachLine_events. now apply runEvents_frame. Qed.

Lemma processEventLine_frame P line l before s :
  (0 <= streamingAssistantIndex s)%Z ->
  processEventLine P line l (frame before s) = frameC before (processEventLine P line l s).
Proof. intro H. rewrite !processEventLine_events. now apply runEvents_frame. Qed.

Lemma processEventLine_index P line l s :
  streamingAssistantIndex (sessionOf (processEventLine P line l s)) =
  streamingAssistantIndex s.
Proof. rewrite processEventLine_events. apply runEvents_index. Qed.

Lemma readLoop_frame P cs e l before s :
  (0 <= streamingAssistantIndex s)%Z ->
  readLoop P cs e l (frame before s) = frameC before (readLoop P cs e l s).
Proof.
  revert l s. induction cs as [|v cs IH]; intros l s H.
  - destruct e; reflexivity.
  - cbn [readLoop]. destruct (TextDecoder.decode (decoder l) v) as [d decoded].
    destruct (popLine (split 10 (buffer l ++ decoded))) as [rest lines].
    rewrite forEachLine_frame by exact H.
    apply bind_frame. intros l2 s2 Hi.
    destruct (shouldAbort l2); [reflexivity|].
    apply IH. rewrite Hi, forEachLine_index. exact H.
Qed.

Lemma readLoop_index P cs e l s :
  streamingAssistantIndex (sessionOf (readLoop P cs e l s)) = streamingAssistantIndex s.
Proof.
  revert l s. induction cs as [|v cs IH]; intros l s.
  - destruct e; reflexivity.
  - cbn [readLoop]. destruct (TextDecoder.decode (decoder l) v) as [d decoded].
    destruct (popLine (split 10 (buffer l ++ decoded))) as [rest lines].
    pose proof (forEachLine_index P lines
                  (mkLocal d rest (receivedChunk l) (receivedError l) (shouldAbort l)) s) as Hi.
    destruct (forEachLine P lines _ s) as [l2 s2|e2 s2]; cbn [bind sessionOf] in *;
      [|exact Hi].
    destruct (shouldAbort l2); [exact Hi|]. rewrite IH. exact Hi.
Qed.

Lemma afterLoop_frame P l before s :
  (0 <= streamingAssistantIndex s)%Z ->
  afterLoop P l (frame before s) = frameC before (afterLoop P l s).
Proof.
  intro H. unfold afterLoop, flushBuffer.
  destruct (negb (shouldAbort l) && negb (JsString.eqb (trim (buffer l)) [])).
  - rewrite processEventLine_frame by exact H.
    apply bind_frame. intros l2 s2 Hi. apply emptyResultFallback_frame.
    rewrite Hi, processEventLine_index. exact H.
  - cbn [bind]. now apply emptyResultFallback_frame.
Qed.

Lemma tryBlock_frame P f before s :
  (0 <= streamingAssistantIndex s)%Z ->
  tryBlock P f (frame before s) = frameC before (tryBlock P f s).
Proof.
  intro H. unfold tryBlock. destruct f as [|r]; [reflexivity|].
  destruct (negb (ok r)).
  - destruct (text r); reflexivity.
  - destruct (responseBody r) as [b|]; [|reflexivity].
    rewrite readLoop_frame by exact H.
    apply bind_frame. intros l2 s2 Hi. apply afterLoop_frame.
    rewrite Hi, readLoop_index. exact H.
Qed.









(** ** C9: the index is invalidated *)






(** ** Trimming *)

Lemma trimStart_fix s :
  match s with [] => True | c :: _ => isSpace c = false end -> trimStart s = s.
Proof. destruct s as [|c s]; simpl; [reflexivity|]. now intros ->. Qed.

Lemma trimStart_head s :
  match trimStart s with [] => True | c :: _ => isSpace c = false end.
Proof.
  induction s as [|c s IH]; simpl; [exact I|].
  destruct (isSpace c) eqn:E; [exact IH|exact E].
Qed.

Lemma trimStart_suffix s : exists p, s = p ++ trimStart s.
Proof.
  induction s as [|c s [p IH]]; simpl.
  - now exists [].
  - destruct (isSpace c).
    + exists (c :: p). simpl. now rewrite <- IH.
    + now exists [].
Qed.

Lemma last_cons_nonempty {A : Type} (x : A) (l : list A) (d : A) :
  l <> [] -> last (x :: l) d = last l d.
Proof. destruct l; [contradiction|reflexivity]. Qed.

Lemma hd_rev {A : Type} (l : list A) (d : A) : hd d (rev l) = last l d.
Proof.
  induction l as [|x l IH]; [reflexivity|].
  destruct l as [|y l]; [reflexivity|].
  change (rev (x :: y :: l)) with (rev (y :: l) ++ [x]).
  rewrite last_cons_nonempty by discriminate. rewrite <- IH.
  destruct (rev (y :: l)) eqn:E; [|reflexivity].
  apply (f_equal (@length _)) in E. rewrite length_rev in E. discriminate.
Qed.

Lemma trimmed_trim_id s : trimmed s = true -> trim s = s.
Proof.
  destruct s as [|c s]; [reflexivity|]. unfold trimmed. intro H.
  apply andb_true_iff in H as [H1 H2]. apply negb_true_iff in H1, H2.
  unfold trim, trimEnd. rewrite (trimStart_fix (c :: s)) by exact H1.
  rewrite trimStart_fix; [apply rev_involutive|].
  pose proof (hd_rev (c :: s) 0) as Hh.
  destruct (rev (c :: s)) as [|x r]; [exact I|]. simpl in Hh. now rewrite Hh.
Qed.

Lemma trim_trimmed s : trimmed (trim s) = true.
Proof.
  unfold trim, trimEnd.
  pose proof (trimStart_head s) as Hu.
  set (u := trimStart s) in *.
  pose proof (trimStart_head (rev u)) as Hv.
  destruct (trimStart_suffix (rev u)) as [p Hp].
  set (v := trimStart (rev u)) in *.
  destruct (rev v) as [|c r] eqn:Er; [reflexivity|].
  unfold trimmed. rewrite <- Er.
  assert (Hvne : v <> []) by (intro E; rewrite E in Er; discriminate).
  apply andb_true_iff. split; apply negb_true_iff.
  - (* the head of [rev v] is the last of [v], which is the last of [rev u],
       the head of [u] *)
    pose proof (hd_rev v 0) as Hh. rewrite Er in Hh. simpl in Hh. rewrite Hh.
    assert (Hl : last v 0 = last (rev u) 0).
    { rewrite Hp. destruct (exists_last Hvne) as (v' & y & Ev).
      rewrite Ev at 2. rewrite Ev. rewrite app_assoc, !last_last. reflexivity. }
    rewrite Hl, <- hd_rev, rev_involutive.
    destruct u as [|x u']; [|exact Hu].
    exfalso. apply Hvne. subst v. reflexivity.
  - rewrite <- hd_rev, rev_involutive.
    destruct v as [|x v']; [contradiction|exact Hv].
Qed.

Lemma trim_idempotent s : trim (trim s) = trim s.
Proof. apply trimmed_trim_id, trim_trimmed. Qed.

Lemma trim_id_trimmed s : trim s = s -> trimmed s = true.
Proof. intro H. rewrite <- H. apply trim_trimmed. Qed.

Lemma trimStart_incl s x : In x (trimStart s) -> In x s.
Proof.
  destruct (trimStart_suffix s) as [p Hp]. intro H. rewrite Hp.
  apply in_or_app. now right.
Qed.

Lemma trim_incl s x : In x (trim s) -> In x s.
Proof.
  unfold trim, trimEnd. intro H. apply in_rev in H.
  apply trimStart_incl in H. apply in_rev in H. now apply trimStart_incl.
Qed.

Lemma trimmed_app p h :
  h <> [] -> trimmed h = true ->
  match p with [] => True | c :: _ => isSpace c = false end ->
  trimmed (p ++ h) = true.
Proof.
  intros Hne Ht Hp. destruct h as [|x h]; [contradiction|].
  unfold trimmed in Ht. apply andb_true_iff in Ht as [H1 H2].
  destruct p as [|c p].
  - unfold trimmed. cbn [app]. now rewrite H1, H2.
  - unfold trimmed. cbn [app]. rewrite Hp. cbn [negb andb].
    change (c :: p ++ x :: h) with ((c :: p) ++ x :: h).
    destruct (exists_last (l := x :: h)) as (h' & y & E); [discriminate|].
    rewrite E in *. rewrite app_assoc, last_last. rewrite last_last in H2. exact H2.
Qed.

(** ** The bold expression *)

Lemma star_lazy_findClose acc t :
  Regex.star_lazy Regex.dot
    (fun cap => Regex.str_ [star; star] (fun rest => Some (cap, rest))) acc t =
  match findClose t with
  | Some (cap, rest) => Some (acc ++ cap, rest)
  | None => None
  end.
Proof.
  revert acc. induction t as [|c t IH]; intro acc.
  - reflexivity.
  - cbn [Regex.star_lazy findClose].
    destruct (Regex.str_ [star; star] (fun rest => Some (acc, rest)) (c :: t)) as [r|] eqn:E.
    + unfold Regex.str_, Regex.unit_, star in E.
      destruct (N.eqb_spec c 42) as [->|]; [|discriminate].
      destruct t as [|d t']; [discriminate|].
      destruct (N.eqb_spec d 42) as [->|]; [|discriminate].
      injection E as <-. cbn. now rewrite app_nil_r.
    + assert (Hs : startsWith (c :: t) [star; star] = false).
      { unfold Regex.str_, Regex.unit_, star in E. cbn [startsWith]. unfold star.
        rewrite (N.eqb_sym 42 c).
        destruct (c =? 42); [|reflexivity].
        destruct t as [|d t']; [reflexivity|].
        rewrite (N.eqb_sym 42 d).
        destruct (d =? 42); [discriminate|reflexivity]. }
      rewrite Hs. destruct (Regex.dot c); [|reflexivity].
      rewrite IH. destruct (findClose t) as [[cap rest]|]; [|reflexivity].
      now rewrite <- app_assoc.
Qed.

(** The match at the start of [s]: two stars, then the closing pair found by
    [findClose]. *)
Lemma boldAt_findClose s :
  boldAt s =
  match s with
  | c :: d :: t => if (c =? star) && (d =? star) then findClose t else None
  | _ => None
  end.
Proof.
  unfold boldAt, Regex.str_, Regex.unit_.
  destruct s as [|c [|d t]]; try reflexivity.
  - destruct (c =? star); reflexivity.
  - destruct (c =? star); [|reflexivity]. destruct (d =? star); [|reflexivity].
    cbn [andb]. rewrite star_lazy_findClose.
    destruct (findClose t) as [[cap rest]|]; reflexivity.
Qed.

Lemma findClose_shape t cap rest :
  findClose t = Some (cap, rest) ->
  t = cap ++ [star; star] ++ rest /\ starsApart cap /\
  Forall (fun c => Regex.dot c = true) cap.
Proof.
  revert cap rest. induction t as [|c t IH]; intros cap rest; [discriminate|].
  cbn [findClose]. destruct (startsWith (c :: t) [star; star]) eqn:Hs.
  - intros [= <- <-]. cbn [startsWith] in Hs.
    destruct t as [|d t]; [now rewrite andb_false_r in Hs|].
    apply andb_true_iff in Hs as [H1 H2]. apply andb_true_iff in H2 as [H2 _].
    apply N.eqb_eq in H1, H2. subst. repeat split. constructor.
  - destruct (Regex.dot c) eqn:Hd; [|discriminate].
    destruct (findClose t) as [[cap' rest']|] eqn:E; [|discriminate].
    intros [= <- <-]. destruct (IH _ _ eq_refl) as (Ht & Hg & Hf).
    split; [now rewrite Ht|]. split; [|now constructor].
    split; [|exact Hg]. intros ->.
    destruct cap' as [|d cap''].
    + cbn [app] in Ht. rewrite Ht in Hs. discriminate.
    + intros ->. cbn [app] in Ht. rewrite Ht in Hs. discriminate.
Qed.

Lemma boldAt_shape s cap rest :
  boldAt s = Some (cap, rest) ->
  s = [star; star] ++ cap ++ [star; star] ++ rest /\ starsApart cap /\
  Forall (fun c => Regex.dot c = true) cap.
Proof.
  rewrite boldAt_findClose. destruct s as [|c [|d t]]; try discriminate.
  destruct (c =? star) eqn:Ec; [|discriminate].
  destruct (d =? star) eqn:Ed; [|discriminate]. cbn [andb].
  apply N.eqb_eq in Ec, Ed. subst. intro H.
  apply findClose_shape in H as (-> & Hg & Hf). auto.
Qed.

Lemma boldAt_rest_shorter s cap rest :
  boldAt s = Some (cap, rest) -> (length rest < length s)%nat.
Proof.
  intro H. apply boldAt_shape in H as (-> & _). rewrite !length_app. simpl. lia.
Qed.

(** ** [inlineClean]: the fuel is enough *)

Lemma replaceBold_fuel n m s :
  (length s <= n)%nat -> (length s <= m)%nat -> replaceBold n s = replaceBold m s.
Proof.
  revert m s. induction n as [|n IH]; intros m s Hn Hm.
  - destruct s; [|simpl in Hn; lia]. destruct m; reflexivity.
  - destruct s as [|c s]; [destruct m; reflexivity|].
    destruct m as [|m]; [simpl in Hm; lia|].
    cbn [replaceBold]. destruct (boldAt (c :: s)) as [[cap rest]|] eqn:E.
    + apply boldAt_rest_shorter in E. f_equal. apply IH; simpl in *; lia.
    + f_equal. apply IH; simpl in *; lia.
Qed.

Lemma inlineClean_nil : inlineClean [] = [].
Proof. reflexivity. Qed.

Lemma inlineClean_match s cap rest :
  boldAt s = Some (cap, rest) -> inlineClean s = cap ++ inlineClean rest.
Proof.
  intro H. pose proof (boldAt_rest_shorter _ _ _ H) as Hlen.
  unfold inlineClean. destruct s as [|c s]; [discriminate|].
  cbn [length replaceBold]. rewrite H. f_equal.
  apply replaceBold_fuel; simpl in *; lia.
Qed.

Lemma inlineClean_copy c s :
  boldAt (c :: s) = None -> inlineClean (c :: s) = c :: inlineClean s.
Proof.
  intro H. unfold inlineClean. cbn [length replaceBold]. rewrite H. reflexivity.
Qed.

(** A list by strong induction on its length. *)
Lemma list_length_ind {A : Type} (Q : list A -> Prop) :
  (forall s, (forall t, (length t < length s)%nat -> Q t) -> Q s) -> forall s, Q s.
Proof.
  intros H s. remember (length s) as n eqn:E. revert s E.
  induction n as [n IH] using lt_wf_ind. intros s ->.
  apply H. intros t Ht. now apply (IH (length t)).
Qed.

Lemma inlineClean_incl s x : In x (inlineClean s) -> In x s.
Proof.
  revert x. induction s as [s IH] using list_length_ind. intro x.
  destruct s as [|c s]; [now rewrite inlineClean_nil|].
  destruct (boldAt (c :: s)) as [[cap rest]|] eqn:E.
  - rewrite (inlineClean_match _ _ _ E).
    pose proof (boldAt_rest_shorter _ _ _ E) as Hlen.
    apply boldAt_shape in E as (-> & _). intro H.
    apply in_app_or in H as [H|H].
    + apply in_or_app. right. apply in_or_app. now left.
    + apply IH in H; [|exact Hlen].
      apply in_or_app. right. apply in_or_app. right. apply in_or_app. now right.
  - rewrite (inlineClean_copy _ _ E). intros [->|H]; [now left|].
    right. apply IH; [simpl; lia|exact H].
Qed.

(** ** [inlineClean] is idempotent *)

Lemma inlineClean_head_star s o :
  inlineClean s = star :: o -> exists t, s = star :: t.
Proof.
  destruct s as [|c s]; [discriminate|].
  destruct (boldAt (c :: s)) as [[cap rest]|] eqn:E.
  - apply boldAt_shape in E as (E & _). cbn [app] in E. injection E as -> _.
    intros _. now eexists.
  - rewrite (inlineClean_copy _ _ E). intros [= -> _]. now eexists.
Qed.

Lemma startsWith_stars c t :
  startsWith (c :: t) [star; star] = true <-> c = star /\ exists t', t = star :: t'.
Proof.
  cbn [startsWith]. split.
  - intro H. apply andb_true_iff in H as [H1 H2]. apply N.eqb_eq in H1.
    destruct t as [|d t]; [discriminate|].
    apply andb_true_iff in H2 as [H2 _]. apply N.eqb_eq in H2. subst. eauto.
  - intros (-> & t' & ->). reflexivity.
Qed.

Lemma boldAt_no_stars c t :
  startsWith (c :: t) [star; star] = false -> boldAt (c :: t) = None.
Proof.
  intro H. rewrite boldAt_findClose. destruct t as [|d t]; [reflexivity|].
  destruct (N.eqb_spec c star) as [->|]; [|reflexivity].
  destruct (N.eqb_spec d star) as [->|]; [|reflexivity].
  discriminate.
Qed.

Lemma findClose_inlineClean_none t :
  findClose t = None -> findClose (inlineClean t) = None.
Proof.
  induction t as [|c t IH]; [reflexivity|].
  cbn [findClose]. destruct (startsWith (c :: t) [star; star]) eqn:Hs; [discriminate|].
  intro H. rewrite (inlineClean_copy _ _ (boldAt_no_stars _ _ Hs)).
  cbn [findClose].
  destruct (startsWith (c :: inlineClean t) [star; star]) eqn:Hs'.
  - apply startsWith_stars in Hs' as (-> & o & Ho).
    apply inlineClean_head_star in Ho as [t' ->]. discriminate.
  - destruct (Regex.dot c); [|reflexivity].
    rewrite IH; [reflexivity|]. destruct (findClose t) as [[? ?]|]; [discriminate|reflexivity].
Qed.

Lemma noBold_fixed s : noBold s -> inlineClean s = s.
Proof.
  induction s as [|c s IH]; [reflexivity|]. intros [H1 H2].
  rewrite (inlineClean_copy _ _ H1), IH by exact H2. reflexivity.
Qed.

Lemma starsApart_noBold_app cap o : starsApart cap -> noBold o -> noBold (cap ++ o).
Proof.
  induction cap as [|c cap IH]; intros Hc Ho; [exact Ho|].
  destruct Hc as [Hc Hc']. cbn [app noBold]. split; [|now apply IH].
  apply boldAt_no_stars. destruct (startsWith _ _) eqn:Hs; [|reflexivity].
  apply startsWith_stars in Hs as (-> & t' & Ht).
  specialize (Hc eq_refl). destruct cap as [|d cap]; [contradiction|].
  cbn [app] in Ht. injection Ht as -> _. contradiction.
Qed.

Lemma noBold_inlineClean s : noBold (inlineClean s).
Proof.
  induction s as [s IH] using list_length_ind.
  destruct s as [|c s]; [exact I|].
  destruct (boldAt (c :: s)) as [[cap rest]|] eqn:E.
  - rewrite (inlineClean_match _ _ _ E).
    pose proof (boldAt_rest_shorter _ _ _ E) as Hlen.
    apply boldAt_shape in E as (_ & Hg & _).
    apply starsApart_noBold_app; [exact Hg|now apply IH].
  - rewrite (inlineClean_copy _ _ E). cbn [noBold].
    split; [|apply IH; simpl; lia].
    rewrite boldAt_findClose.
    destruct (inlineClean s) as [|d o] eqn:Eo; [reflexivity|].
    destruct (N.eqb_spec c star) as [->|]; [|reflexivity].
    destruct (N.eqb_spec d star) as [->|]; [|reflexivity]. cbn [andb].
    destruct (inlineClean_head_star _ _ Eo) as [t ->].
    rewrite boldAt_findClose in E. rewrite !N.eqb_refl in E. cbn [andb] in E.
    assert (E' : boldAt (star :: t) = None).
    { rewrite boldAt_findClose. destruct t as [|e t2]; [reflexivity|].
      rewrite N.eqb_refl. cbn [andb].
      destruct (N.eqb_spec e star) as [->|]; [|reflexivity].
      cbn [findClose] in E.
      destruct (startsWith (star :: t2) [star; star]); [discriminate|].
      change (Regex.dot star) with true in E.
      destruct (findClose t2) as [[? ?]|]; [discriminate|reflexivity]. }
    rewrite (inlineClean_copy _ _ E') in Eo. injection Eo as <-.
    now apply findClose_inlineClean_none.
Qed.

Theorem inlineClean_idempotent s : inlineClean (inlineClean s) = inlineClean s.
Proof. apply noBold_fixed, noBold_inlineClean. Qed.

(** ** Parsing a rendered line *)

Lemma lowerUnit_low c x r :
  lowerUnit c = x :: r -> x < 65 -> c = x /\ r = [].
Proof.
  unfold lowerUnit.
  destruct (N.leb_spec 65 c); destruct (N.leb_spec c 90); cbn [andb];
    try (intros [= <- <-]; lia);
    (destruct (N.eqb_spec c 0x130); [intros [= <- <-]; lia|]);
    (destruct (N.eqb_spec c 0x212A); [intros [= <- <-]; lia|]);
    intros [= <- <-]; auto.
Qed.

Lemma toLowerCase_cons_low c s x o :
  toLowerCase (c :: s) = x :: o -> x < 65 -> c = x /\ o = toLowerCase s.
Proof.
  unfold toLowerCase. cbn [flat_map]. intros H Hx.
  destruct (lowerUnit c) as [|y r] eqn:E.
  - unfold lowerUnit in E.
    repeat match type of E with (if ?b then _ else _) = _ => destruct b end; discriminate.
  - cbn [app] in H. injection H as -> <-.
    apply lowerUnit_low in E as [-> ->]; auto.
Qed.

Lemma startsWith_cons s x p :
  startsWith s (x :: p) = true <-> exists s', s = x :: s' /\ startsWith s' p = true.
Proof.
  cbn [startsWith]. destruct s as [|y s]; split.
  - discriminate.
  - intros (s' & H & _). discriminate.
  - intro H. apply andb_true_iff in H as [H1 H2]. apply N.eqb_eq in H1. subst. eauto.
  - intros (s' & [= -> ->] & H). now rewrite N.eqb_refl.
Qed.

(** A line that reads as the References heading in lower case starts like
    a heading. *)
Lemma references_is_heading t :
  startsWith (toLowerCase t) (lit "## references") = true ->
  startsWith t (lit "## ") = true.
Proof.
  change (lit "## references") with (35 :: 35 :: 32 :: lit "references").
  change (lit "## ") with [35; 35; 32].
  intro H.
  apply startsWith_cons in H as (o1 & E1 & H).
  destruct t as [|c1 t]; [discriminate|].
  apply toLowerCase_cons_low in E1 as [-> ->]; [|lia].
  apply startsWith_cons in H as (o2 & E2 & H).
  destruct t as [|c2 t]; [discriminate|].
  apply toLowerCase_cons_low in E2 as [-> ->]; [|lia].
  apply startsWith_cons in H as (o3 & E3 & H).
  destruct t as [|c3 t]; [discriminate|].
  apply toLowerCase_cons_low in E3 as [-> ->]; [|lia].
  reflexivity.
Qed.

Lemma plainText_spec t : plainText t = true -> trim t = t /\ t <> [].
Proof.
  unfold plainText. intro H. apply andb_true_iff in H as [H1 H2].
  split; [now apply trimmed_trim_id|]. apply negb_true_iff, eqb_neq in H2. exact H2.
Qed.

Lemma parseLine_heading st h :
  h <> [] -> trimmed h = true -> plainHeading h = true ->
  parseLine st (lit "## " ++ h) = (closeCurrent st, Some (mkSection h [])).
Proof.
  intros Hne Ht Hp. unfold parseLine.
  assert (E : trim (lit "## " ++ h) = lit "## " ++ h).
  { apply trimmed_trim_id, trimmed_app; [exact Hne|exact Ht|reflexivity]. }
  rewrite E. unfold plainHeading in Hp. apply negb_true_iff in Hp. rewrite Hp.
  change (slice 3 (lit "## " ++ h)) with h.
  rewrite (trimmed_trim_id h Ht). reflexivity.
Qed.

Lemma parseLine_paragraph done cur t :
  plainParagraph t = true -> inlineClean t = t ->
  parseLine (done, cur) t =
  (done, Some (mkSection (heading (currentOr cur))
                 (body (currentOr cur) ++ [Paragraph t]))).
Proof.
  intros Hp Hc. unfold plainParagraph in Hp.
  apply andb_true_iff in Hp as [Hp H4]. apply andb_true_iff in Hp as [Hp H3].
  apply andb_true_iff in Hp as [H1 H2].
  apply plainText_spec in H1 as [Ht Hne].
  apply negb_true_iff in H2, H3, H4.
  unfold parseLine. rewrite Ht.
  apply eqb_neq in Hne. rewrite Hne, H2. cbn [orb].
  destruct (startsWith (toLowerCase t) (lit "## references")) eqn:Hr.
  { apply references_is_heading in Hr. congruence. }
  rewrite H3, H4, Hc. destruct cur; reflexivity.
Qed.

Lemma parseLine_bullet done cur item :
  plainText item = true -> inlineClean item = item ->
  parseLine (done, cur) (lit "- " ++ item) =
  (done, Some (mkSection (heading (currentOr cur))
                 (pushBullet item (body (currentOr cur))))).
Proof.
  intros Hp Hc. unfold plainText in Hp. apply andb_true_iff in Hp as [Ht Hne].
  apply negb_true_iff, eqb_neq in Hne.
  unfold parseLine.
  assert (E : trim (lit "- " ++ item) = lit "- " ++ item).
  { apply trimmed_trim_id, trimmed_app; [exact Hne|exact Ht|reflexivity]. }
  rewrite E.
  change (slice 2 (lit "- " ++ item)) with item.
  rewrite (trimmed_trim_id item Ht), Hc.
  destruct item as [|c item]; [contradiction|].
  destruct cur; reflexivity.
Qed.

(** ** Parsing a rendered section *)

Lemma endsWithList_snoc b x : endsWithList (b ++ [x]) = isList x.
Proof. unfold endsWithList. now rewrite lastOf_snoc. Qed.

Lemma pushBullet_new item b :
  endsWithList b = false -> pushBullet item b = b ++ [ListBlock [item]].
Proof.
  unfold endsWithList, pushBullet. destruct (lastOf b) as [[t|items]|]; try reflexivity.
  discriminate.
Qed.

Lemma pushBullet_snoc item b acc :
  pushBullet item (b ++ [ListBlock acc]) = b ++ [ListBlock (acc ++ [item])].
Proof. unfold pushBullet. now rewrite lastOf_snoc, removelast_last. Qed.

Lemma fold_items done h b acc items :
  Forall textOk items -> forallb plainText items = true ->
  fold_left parseLine (map (fun item => lit "- " ++ item) items)
    (done, Some (mkSection h (b ++ [ListBlock acc]))) =
  (done, Some (mkSection h (b ++ [ListBlock (acc ++ items)]))).
Proof.
  intro H. revert acc. induction H as [|item items [_ Hc] _ IH]; intros acc Hp.
  - now rewrite app_nil_r.
  - cbn [forallb] in Hp. apply andb_true_iff in Hp as [Hp Hps].
    cbn [map fold_left]. rewrite parseLine_bullet by assumption.
    cbn [currentOr heading body]. rewrite pushBullet_snoc, IH, <- app_assoc by exact Hps.
    reflexivity.
Qed.

Lemma fold_block done cur blk :
  blockOk blk -> plainBlock blk = true ->
  (isList blk = true -> endsWithList (body (currentOr cur)) = false) ->
  fold_left parseLine (renderBlock blk) (done, cur) =
  (done, Some (mkSection (heading (currentOr cur)) (body (currentOr cur) ++ [blk]))).
Proof.
  intros Hb Hp Hl. destruct blk as [t|items].
  - destruct Hb as [_ Hc]. cbn [renderBlock fold_left].
    now apply parseLine_paragraph.
  - destruct Hb as [Hne Hi]. destruct items as [|item items]; [contradiction|].
    inversion Hi as [|? ? [_ Hc] Hi']; subst.
    cbn [plainBlock forallb] in Hp. apply andb_true_iff in Hp as [Hp Hps].
    cbn [renderBlock map fold_left]. rewrite parseLine_bullet by assumption.
    rewrite pushBullet_new by (now apply Hl).
    rewrite fold_items by assumption. reflexivity.
Qed.

Lemma fold_blocks done h b blocks :
  Forall blockOk blocks -> forallb plainBlock blocks = true ->
  noAdjacentLists blocks ->
  (match blocks with x :: _ => isList x = true -> endsWithList b = false | [] => True end) ->
  fold_left parseLine (flat_map renderBlock blocks) (done, Some (mkSection h b)) =
  (done, Some (mkSection h (b ++ blocks))).
Proof.
  intro H. revert b. induction H as [|blk blocks Hb _ IH]; intros b Hp Hadj Hfirst.
  - now rewrite app_nil_r.
  - cbn [forallb] in Hp. apply andb_true_iff in Hp as [Hp Hps].
    cbn [flat_map]. rewrite fold_left_app, fold_block; [|exact Hb|exact Hp|exact Hfirst].
    cbn [currentOr heading body]. destruct Hadj as [Hnext Hadj].
    rewrite IH; [now rewrite <- app_assoc|exact Hps|exact Hadj|].
    destruct blocks as [|y blocks]; [exact I|].
    intro Hy. rewrite endsWithList_snoc.
    destruct (isList blk) eqn:E; [|reflexivity].
    specialize (Hnext eq_refl). congruence.
Qed.

Lemma fold_section_explicit st s :
  heading s <> [] -> sectionOk s -> plainSection s = true ->
  fold_left parseLine (renderSection s) st = (closeCurrent st, Some s).
Proof.
  intros Hne (_ & Ht & _ & Hb & Hadj) Hp. unfold renderSection.
  unfold plainSection in Hp. apply andb_true_iff in Hp as [Hph Hpb].
  apply eqb_neq in Hne. rewrite Hne. apply eqb_neq in Hne.
  cbn [app fold_left]. rewrite parseLine_heading by assumption.
  rewrite fold_blocks; [destruct s; reflexivity|exact Hb|exact Hpb|exact Hadj|].
  destruct (body s); [exact I|reflexivity].
Qed.

Lemma fold_section_implicit done s :
  heading s = [] -> sectionOk s -> plainSection s = true ->
  fold_left parseLine (renderSection s) (done, None) = (done, Some s).
Proof.
  intros He (_ & _ & Hne & Hb & Hadj) Hp. specialize (Hne He).
  unfold plainSection in Hp. apply andb_true_iff in Hp as [_ Hp].
  unfold renderSection. rewrite He. cbn [JsString.eqb app].
  destruct s as [h [|blk blocks]]; [contradiction|]. cbn [heading body] in *. subst h.
  inversion Hb as [|? ? Hblk Hblocks]; subst. destruct Hadj as [Hnext Hadj].
  cbn [forallb] in Hp. apply andb_true_iff in Hp as [Hp Hps].
  cbn [flat_map]. rewrite fold_left_app, fold_block; [|exact Hblk|exact Hp|reflexivity].
  cbn [currentOr heading body app].
  rewrite (fold_blocks done [] [blk] blocks Hblocks Hps Hadj); [reflexivity|].
  destruct blocks as [|y blocks]; [exact I|].
  intro Hy. change (endsWithList [blk]) with (isList blk).
  destruct (isList blk) eqn:E; [|reflexivity].
  specialize (Hnext eq_refl). congruence.
Qed.

Lemma fold_sections_explicit ss st :
  Forall sectionOk ss -> forallb plainSection ss = true ->
  forallb (fun s => negb (JsString.eqb (heading s) [])) ss = true ->
  closeCurrent (fold_left parseLine (flat_map renderSection ss) st) = closeCurrent st ++ ss.
Proof.
  intro H. revert st. induction H as [|s ss Hs _ IH]; intros st Hp Hh.
  - now rewrite app_nil_r.
  - cbn [forallb] in Hp, Hh.
    apply andb_true_iff in Hp as [Hp Hps]. apply andb_true_iff in Hh as [Hh Hhs].
    apply negb_true_iff, eqb_neq in Hh.
    cbn [flat_map]. rewrite fold_left_app, fold_section_explicit by assumption.
    rewrite IH by assumption. cbn [closeCurrent fst snd]. now rewrite <- app_assoc.
Qed.

(** ** Splitting the rendered text *)

Lemma split_line l r : ~ In 10 l -> split 10 (l ++ 10 :: r) = l :: split 10 r.
Proof.
  induction l as [|c l IH]; intro H.
  - reflexivity.
  - cbn [app]. rewrite split_cons_other.
    + rewrite IH; [reflexivity|]. intro Hin. apply H. now right.
    + apply N.eqb_neq. intro E. apply H. now left.
Qed.

Lemma split_join (lines : list jsstring) :
  lines <> [] -> Forall (fun l => ~ In 10 l) lines ->
  split 10 (join [10] lines) = lines.
Proof.
  induction lines as [|l lines IH]; [contradiction|]. intros _ H.
  inversion H as [|? ? Hl Hls]; subst.
  destruct lines as [|l' lines].
  - cbn [join]. now apply split_no_sep.
  - rewrite join_cons by discriminate. cbn [app].
    rewrite split_line by exact Hl. rewrite IH; [reflexivity|discriminate|exact Hls].
Qed.

Lemma renderBlock_no_newline blk :
  blockOk blk -> Forall (fun l => ~ In 10 l) (renderBlock blk).
Proof.
  destruct blk as [t|items]; cbn [blockOk renderBlock].
  - intros [H _]. now constructor.
  - intros [_ H]. induction H as [|i items [Hi _] _ IH]; cbn [map]; constructor.
    + intros [E|[E|Hin]]; try discriminate. contradiction.
    + exact IH.
Qed.

Lemma renderSection_no_newline s :
  sectionOk s -> Forall (fun l => ~ In 10 l) (renderSection s).
Proof.
  intros (Hh & _ & _ & Hb & _). unfold renderSection. apply Forall_app. split.
  - destruct (JsString.eqb (heading s) []); constructor; [|constructor].
    intros [E|[E|[E|Hin]]]; try discriminate. contradiction.
  - induction Hb as [|blk blocks Hblk _ IH]; cbn [flat_map]; [constructor|].
    apply Forall_app. split; [now apply renderBlock_no_newline|exact IH].
Qed.

Lemma renderSection_nonempty s : sectionOk s -> renderSection s <> [].
Proof.
  intros (_ & _ & Hne & Hb & _). unfold renderSection.
  destruct (JsString.eqb (heading s) []) eqn:E; [|discriminate].
  apply eqb_eq in E. specialize (Hne E). cbn [app].
  destruct (body s) as [|blk blocks]; [contradiction|].
  inversion Hb as [|? ? Hblk _]; subst. cbn [flat_map].
  destruct blk as [t|items]; [discriminate|].
  destruct Hblk as [Hi _]. destruct items; [contradiction|discriminate].
Qed.

(** Parsing what [render] writes gives the sections back, for sections with
    the parser's invariants whose text does not read as markup. *)
Theorem parse_render (ss : list DisplaySection) :
  Forall sectionOk ss -> plain ss = true ->
  parseAssistantSections (render ss) = ss.
Proof.
  intros Hok Hp. unfold plain in Hp. apply andb_true_iff in Hp as [Hp Hh].
  unfold parseAssistantSections, render.
  destruct ss as [|s rest]; [reflexivity|].
  inversion Hok as [|? ? Hs Hrest]; subst.
  cbn [forallb] in Hp. apply andb_true_iff in Hp as [Hps Hprest]. cbn [tl] in Hh.
  rewrite split_join.
  - cbn [flat_map]. rewrite fold_left_app.
    destruct (JsString.eqb (heading s) []) eqn:E.
    + apply eqb_eq in E. rewrite fold_section_implicit by assumption.
      now rewrite fold_sections_explicit.
    + apply eqb_neq in E. rewrite fold_section_explicit by assumption.
      now rewrite fold_sections_explicit.
  - cbn [flat_map]. pose proof (renderSection_nonempty s Hs).
    destruct (renderSection s); [contradiction|discriminate].
  - cbn [flat_map]. apply Forall_app. split; [now apply renderSection_no_newline|].
    clear -Hrest. induction Hrest as [|s' rest Hs' _ IH]; cbn [flat_map]; [constructor|].
    apply Forall_app. split; [now apply renderSection_no_newline|exact IH].
Qed.

(** ** What the parser stores *)

Lemma trimStart_keeps s c : In c s -> isSpace c = false -> In c (trimStart s).
Proof.
  induction s as [|x s IH]; intros Hin Hc; [contradiction|].
  cbn [trimStart]. destruct (isSpace x) eqn:Ex.
  - destruct Hin as [->|Hin]; [congruence|]. now apply IH.
  - exact Hin.
Qed.

Lemma trim_keeps s c : In c s -> isSpace c = false -> In c (trim s).
Proof.
  intros Hin Hc. unfold trim, trimEnd. apply in_rev. rewrite rev_involutive.
  apply trimStart_keeps; [|exact Hc]. apply in_rev. rewrite rev_involutive.
  now apply trimStart_keeps.
Qed.

Lemma trimmed_last s : s <> [] -> trimmed s = true -> isSpace (last s 0) = false.
Proof.
  destruct s as [|c s]; [contradiction|]. intros _ H. unfold trimmed in H.
  apply andb_true_iff in H as [_ H]. now apply negb_true_iff in H.
Qed.

(** The heading of a [## ] line is not empty. *)
Lemma heading_nonempty line :
  trimmed line = true -> startsWith line (lit "## ") = true ->
  trim (slice 3 line) <> [].
Proof.
  intros Ht Hs.
  change (lit "## ") with [35; 35; 32] in Hs.
  apply startsWith_cons in Hs as (s1 & -> & Hs).
  apply startsWith_cons in Hs as (s2 & -> & Hs).
  apply startsWith_cons in Hs as (rest & -> & _).
  change (slice 3 (35 :: 35 :: 32 :: rest)) with rest.
  destruct rest as [|c rest]; [vm_compute in Ht; discriminate|].
  assert (Hl : isSpace (last (35 :: 35 :: 32 :: c :: rest) 0) = false)
    by (apply trimmed_last; [discriminate|exact Ht]).
  change (last (35 :: 35 :: 32 :: c :: rest) 0) with (last (c :: rest) 0) in Hl.
  intro E.
  assert (Hin : In (last (c :: rest) 0) (trim (c :: rest))).
  { apply trim_keeps; [|exact Hl].
    destruct (exists_last (l := c :: rest)) as (l' & y & Ey); [discriminate|].
    rewrite Ey, last_last. apply in_or_app. right. now left. }
  rewrite E in Hin. contradiction.
Qed.

Lemma skipn_incl {A : Type} n (l : list A) x : In x (skipn n l) -> In x l.
Proof.
  revert l. induction n as [|n IH]; intros l H; [exact H|].
  destruct l as [|y l]; [contradiction|]. right. now apply IH.
Qed.

Lemma textOk_inlineClean s : ~ In 10 s -> textOk (inlineClean s).
Proof.
  intro H. split; [|apply inlineClean_idempotent].
  intro Hin. apply H. now apply inlineClean_incl.
Qed.

Lemma lastOf_removelast {A : Type} (l : list A) x :
  lastOf l = Some x -> l = removelast l ++ [x].
Proof.
  unfold lastOf. intro H.
  destruct l as [|y l]; [discriminate|].
  destruct (exists_last (l := y :: l)) as (l' & z & E); [discriminate|].
  rewrite E in *. rewrite rev_unit in H. injection H as ->.
  now rewrite removelast_last.
Qed.

Lemma noAdjacentLists_snoc b x :
  noAdjacentLists b -> (isList x = true -> endsWithList b = false) ->
  noAdjacentLists (b ++ [x]).
Proof.
  induction b as [|y b IH]; intros Hb Hx.
  - cbn. auto.
  - destruct Hb as [Hy Hb]. cbn [app noAdjacentLists]. split.
    + intro Ey. destruct b as [|z b]; cbn [app].
      * destruct (isList x) eqn:Ex; [|reflexivity].
        specialize (Hx eq_refl). change (endsWithList [y]) with (isList y) in Hx.
        congruence.
      * now apply Hy.
    + apply IH; [exact Hb|]. intro Ex. specialize (Hx Ex).
      destruct b as [|z b]; [reflexivity|].
      unfold endsWithList, lastOf in *. cbn [rev] in *.
      destruct (rev b ++ [z]) eqn:E.
      * destruct (rev b); discriminate.
      * cbn [app] in Hx. exact Hx.
Qed.

Lemma noAdjacentLists_last b x y :
  noAdjacentLists (b ++ [x]) -> isList y = isList x -> noAdjacentLists (b ++ [y]).
Proof.
  induction b as [|z b IH]; intros H E.
  - cbn. auto.
  - destruct H as [Hz H]. cbn [app noAdjacentLists]. split; [|now apply IH].
    intro Ez. specialize (Hz Ez). destruct b as [|w b]; cbn [app] in *; [congruence|exact Hz].
Qed.

Lemma pushBullet_ok bullet b :
  textOk bullet -> Forall blockOk b -> noAdjacentLists b ->
  Forall blockOk (pushBullet bullet b) /\ noAdjacentLists (pushBullet bullet b) /\
  pushBullet bullet b <> [].
Proof.
  intros Ht Hb Hadj. unfold pushBullet.
  destruct (lastOf b) as [[t|items]|] eqn:E.
  - repeat split.
    + apply Forall_app. split; [exact Hb|].
      constructor; [|constructor].
      split; [discriminate|]. constructor; [exact Ht|constructor].
    + apply noAdjacentLists_snoc; [exact Hadj|]. intros _. unfold endsWithList. now rewrite E.
    + destruct b; discriminate.
  - apply lastOf_removelast in E. rewrite E in Hb, Hadj.
    apply Forall_app in Hb as [Hb1 Hb2]. inversion Hb2 as [|? ? Hblk _]; subst.
    cbn [blockOk] in Hblk. destruct Hblk as [Hne Hi].
    repeat split.
    + apply Forall_app. split; [exact Hb1|].
      constructor; [|constructor]. split.
      * destruct items; discriminate.
      * apply Forall_app. split; [exact Hi|]. constructor; [exact Ht|constructor].
    + now apply (noAdjacentLists_last _ (ListBlock items)).
    + destruct (removelast b); discriminate.
  - repeat split.
    + apply Forall_app. split; [exact Hb|].
      constructor; [|constructor].
      split; [discriminate|]. constructor; [exact Ht|constructor].
    + apply noAdjacentLists_snoc; [exact Hadj|]. intros _. unfold endsWithList. now rewrite E.
    + destruct b; discriminate.
Qed.

Lemma closeCurrent_ok st : stateOk st -> Forall sectionOk (closeCurrent st).
Proof.
  intros [Hd Hc]. unfold closeCurrent. destruct (snd st); [|exact Hd].
  apply Forall_app. split; [exact Hd|]. now constructor.
Qed.

Lemma currentOr_ok cur :
  match cur with Some c => sectionOk c | None => True end ->
  ~ In 10 (heading (currentOr cur)) /\ trimmed (heading (currentOr cur)) = true /\
  Forall blockOk (body (currentOr cur)) /\ noAdjacentLists (body (currentOr cur)).
Proof.
  destruct cur as [c|]; cbn [currentOr heading body].
  - intros (H1 & H2 & _ & H3 & H4). auto.
  - intros _. repeat split; auto.
Qed.

Lemma parseLine_ok st rawLine :
  ~ In 10 rawLine -> stateOk st -> stateOk (parseLine st rawLine).
Proof.
  intros Hraw Hst. unfold parseLine.
  assert (Hline : ~ In 10 (trim rawLine)) by (intro H; apply Hraw; now apply trim_incl).
  pose proof (trim_trimmed rawLine) as Htr.
  set (line := trim rawLine) in *.
  destruct (JsString.eqb line [] || JsString.eqb line (lit "---")); [exact Hst|].
  destruct (startsWith (toLowerCase line) (lit "## references")).
  { split; [now apply closeCurrent_ok|exact I]. }
  destruct (startsWith line (lit "## ")) eqn:Hh.
  { split; [now apply closeCurrent_ok|]. cbn [snd].
    repeat split.
    - intro H. apply Hline. apply trim_incl in H. now apply skipn_incl in H.
    - apply trim_trimmed.
    - intro E. now apply heading_nonempty in E.
    - constructor. }
  destruct st as [done cur]. destruct Hst as [Hd Hc]. cbn [fst snd] in *.
  change (match cur with Some c => c | None => mkSection [] [] end) with (currentOr cur).
  destruct (currentOr_ok cur Hc) as (H1 & H2 & H3 & H4).
  destruct (startsWith line (lit "- ")).
  - split; [exact Hd|]. cbn [snd].
    assert (Ht : textOk (inlineClean (trim (slice 2 line)))).
    { apply textOk_inlineClean. intro H. apply Hline.
      apply trim_incl in H. now apply skipn_incl in H. }
    destruct (pushBullet_ok _ _ Ht H3 H4) as (P1 & P2 & P3).
    repeat split; auto.
  - split; [exact Hd|]. cbn [snd].
    repeat split; auto.
    + intros _. destruct (body (currentOr cur)); discriminate.
    + apply Forall_app. split; [exact H3|]. constructor; [|constructor].
      now apply textOk_inlineClean.
    + apply noAdjacentLists_snoc; [exact H4|]. discriminate.
Qed.

Lemma fold_parseLine_ok lines st :
  Forall (fun l => ~ In 10 l) lines -> stateOk st -> stateOk (fold_left parseLine lines st).
Proof.
  intro H. revert st. induction H as [|l lines Hl _ IH]; intros st Hst; [exact Hst|].
  cbn [fold_left]. apply IH. now apply parseLine_ok.
Qed.

(** Every section the parser returns has the parser's invariants. *)
Theorem parse_ok (markdown : jsstring) : Forall sectionOk (parseAssistantSections markdown).
Proof.
  unfold parseAssistantSections. apply closeCurrent_ok, fold_parseLine_ok.
  - apply split_segments_no_sep.
  - split; [constructor|exact I].
Qed.

(** ** C6: parsing what was rendered *)

(** C6 (amended). Stripping the emphasis markers is idempotent, and for
    every input whose parsed sections do not read as markup again (items
    and paragraphs not empty and without white space at their ends, no
    paragraph that is a rule or starts like a heading or a bullet, no
    heading that reads as the References heading, no section without a
    heading after the first), rendering the parsed sections and parsing
    the result gives the same sections. *)
Theorem C6_parse_render_parse (x : jsstring) :
  inlineClean (inlineClean x) = inlineClean x /\
  (plain (parseAssistantSections x) = true ->
   parseAssistantSections (render (parseAssistantSections x)) = parseAssistantSections x).
Proof.
  split; [apply inlineClean_idempotent|].
  intro H. apply parse_render; [apply parse_ok|exact H].
Qed.

Lemma C6_parse_render_parse_witness :
  plain (parseAssistantSections c6_plain_input) = true /\
  parseAssistantSections c6_plain_input =
    [mkSection [] [Paragraph (lit "Intro text")];
     mkSection (lit "Summary")
       [ListBlock [lit "point one"; lit "point two"]; Paragraph (lit "Closing *remark*")];
     mkSection (lit "Next") [Paragraph (lit "last")]] /\
  parseAssistantSections (render (parseAssistantSections c6_plain_input)) =
    parseAssistantSections c6_plain_input.
Proof.
  split; [reflexivity|]. split; [reflexivity|].
  apply (C6_parse_render_parse c6_plain_input). reflexivity.
Defined.

(** C6, as stated, fails: the paragraph "- x" that the bold markers hid is
    rendered as a line the parser reads as a bullet. *)
Lemma C6_counterexample_hidden_bullet :
  parseAssistantSections c6_hidden_bullet = [mkSection [] [Paragraph (lit "- x")]] /\
  render (parseAssistantSections c6_hidden_bullet) = lit "- x" /\
  parseAssistantSections (render (parseAssistantSections c6_hidden_bullet)) =
    [mkSection [] [ListBlock [lit "x"]]] /\
  parseAssistantSections (render (parseAssistantSections c6_hidden_bullet)) <>
    parseAssistantSections c6_hidden_bullet.
Proof. repeat split. vm_compute. discriminate. Qed.

(** ** Decoding and encoding well-formed UTF-8 *)

Section Utf8.

Ltac Zify.zify_post_hook ::= Z.to_euclidean_division_equations.

Lemma land_shiftl_low a n b : b < 2 ^ n -> N.land (N.shiftl a n) b = 0.
Proof.
  intro H. apply N.bits_inj. intro i. rewrite N.land_spec, N.bits_0.
  destruct (N.lt_ge_cases i n) as [Hi|Hi].
  - now rewrite N.shiftl_spec_low.
  - destruct (N.eq_dec b 0) as [->|Hb]; [now rewrite N.bits_0, andb_false_r|].
    rewrite (N.bits_above_log2 b i), andb_false_r; [reflexivity|].
    apply N.log2_lt_pow2; [lia|]. apply N.lt_le_trans with (2 ^ n); [exact H|].
    apply N.pow_le_mono_r; lia.
Qed.

Lemma lor_shiftl_add a n b : b < 2 ^ n -> N.lor (N.shiftl a n) b = a * 2 ^ n + b.
Proof.
  intro H. rewrite <- N.lxor_lor, <- N.add_nocarry_lxor by now apply land_shiftl_low.
  now rewrite N.shiftl_mul_pow2.
Qed.

Lemma land_mask b n : N.land b (N.ones n) = b mod 2 ^ n.
Proof. apply N.land_ones. Qed.

(** Appending six payload bits. *)
Lemma push6 cp b : N.lor (N.shiftl cp 6) (N.land b 0x3F) = cp * 64 + b mod 64.
Proof.
  change 0x3F with (N.ones 6). rewrite land_mask.
  rewrite lor_shiftl_add; [reflexivity|]. change (2 ^ 6) with 64. lia.
Qed.

Lemma lor_C0 x : x < 64 -> N.lor 0xC0 x = 0xC0 + x.
Proof. intro H. change 0xC0 with (N.shiftl 3 6). now rewrite lor_shiftl_add. Qed.

Lemma lor_80 x : x < 64 -> N.lor 0x80 x = 0x80 + x.
Proof. intro H. change 0x80 with (N.shiftl 2 6). now rewrite lor_shiftl_add. Qed.

Lemma lor_E0 x : x < 32 -> N.lor 0xE0 x = 0xE0 + x.
Proof. intro H. change 0xE0 with (N.shiftl 7 5). now rewrite lor_shiftl_add. Qed.

Lemma lor_F0 x : x < 16 -> N.lor 0xF0 x = 0xF0 + x.
Proof. intro H. change 0xF0 with (N.shiftl 15 4). now rewrite lor_shiftl_add. Qed.

Lemma inRange_iff lo hi b : TextDecoder.inRange lo hi b = true <-> lo <= b <= hi.
Proof.
  unfold TextDecoder.inRange. rewrite andb_true_iff, !N.leb_le. reflexivity.
Qed.

Lemma inRange_false lo hi b : TextDecoder.inRange lo hi b = false <-> b < lo \/ hi < b.
Proof.
  unfold TextDecoder.inRange. rewrite andb_false_iff, !N.leb_gt. reflexivity.
Qed.

Lemma decode_cons st b rest :
  TextDecoder.decode st (b :: rest) =
  let '(st1, o1) := TextDecoder.decodeByte st b in
  let '(st2, o2) := TextDecoder.decode st1 rest in
  (st2, o1 ++ o2).
Proof.
  change (b :: rest) with ([b] ++ rest). rewrite decode_app.
  unfold TextDecoder.decode at 1. cbn [fold_left].
  destruct (TextDecoder.decodeByte st b) as [st1 o1]. reflexivity.
Qed.

(** What the decoder hands on for a code point of the basic plane. *)
Definition emitted (bom : bool) (cp : N) : jsstring :=
  if negb bom && (cp =? 0xFEFF) then [] else TextDecoder.utf16 cp.

Lemma emit_one c s n lo hi bom cp :
  TextDecoder.emit (TextDecoder.mkState c s n lo hi bom) [cp] =
  (TextDecoder.mkState c s n lo hi true, emitted bom cp).
Proof.
  unfold TextDecoder.emit, emitted. cbn [fold_left TextDecoder.bomSeen].
  destruct bom; cbn; [reflexivity|]. destruct (cp =? 0xFEFF); reflexivity.
Qed.

Lemma decodeByte_ascii bom b :
  b <= 0x7F -> TextDecoder.decodeByte (ready bom) b = (ready true, [b]).
Proof.
  intro H. unfold TextDecoder.decodeByte, TextDecoder.handler, TextDecoder.leadByte, ready.
  cbn [TextDecoder.bytesNeeded TextDecoder.bomSeen N.eqb].
  assert (E : TextDecoder.inRange 0 0x7F b = true) by (apply inRange_iff; lia).
  rewrite E, emit_one. unfold emitted, TextDecoder.utf16.
  destruct (N.eqb_spec b 0xFEFF); [lia|]. rewrite andb_false_r.
  destruct (N.ltb_spec b 0x10000); [reflexivity|lia].
Qed.

Lemma leadByte_2 bom b :
  TextDecoder.inRange 0xC2 0xDF b = true ->
  TextDecoder.decodeByte (ready bom) b =
  (TextDecoder.mkState (N.land b 0x1F) 0 1 0x80 0xBF bom, []).
Proof.
  intro H. unfold TextDecoder.decodeByte, TextDecoder.handler, TextDecoder.leadByte, ready.
  cbn [TextDecoder.bytesNeeded TextDecoder.bomSeen N.eqb].
  apply inRange_iff in H.
  assert (E1 : TextDecoder.inRange 0 0x7F b = false) by (apply inRange_false; lia).
  assert (E2 : TextDecoder.inRange 0xC2 0xDF b = true) by (apply inRange_iff; lia).
  rewrite E1, E2. reflexivity.
Qed.

Lemma leadByte_3 bom b :
  TextDecoder.inRange 0xE0 0xEF b = true ->
  TextDecoder.decodeByte (ready bom) b =
  (TextDecoder.mkState (N.land b 0xF) 0 2
     (if b =? 0xE0 then 0xA0 else 0x80) (if b =? 0xED then 0x9F else 0xBF) bom, []).
Proof.
  intro H. unfold TextDecoder.decodeByte, TextDecoder.handler, TextDecoder.leadByte, ready.
  cbn [TextDecoder.bytesNeeded TextDecoder.bomSeen N.eqb].
  apply inRange_iff in H.
  assert (E1 : TextDecoder.inRange 0 0x7F b = false) by (apply inRange_false; lia).
  assert (E2 : TextDecoder.inRange 0xC2 0xDF b = false) by (apply inRange_false; lia).
  assert (E3 : TextDecoder.inRange 0xE0 0xEF b = true) by (apply inRange_iff; lia).
  rewrite E1, E2, E3. reflexivity.
Qed.

Lemma leadByte_4 bom b :
  TextDecoder.inRange 0xF0 0xF4 b = true ->
  TextDecoder.decodeByte (ready bom) b =
  (TextDecoder.mkState (N.land b 0x7) 0 3
     (if b =? 0xF0 then 0x90 else 0x80) (if b =? 0xF4 then 0x8F else 0xBF) bom, []).
Proof.
  intro H. unfold TextDecoder.decodeByte, TextDecoder.handler, TextDecoder.leadByte, ready.
  cbn [TextDecoder.bytesNeeded TextDecoder.bomSeen N.eqb].
  apply inRange_iff in H.
  assert (E1 : TextDecoder.inRange 0 0x7F b = false) by (apply inRange_false; lia).
  assert (E2 : TextDecoder.inRange 0xC2 0xDF b = false) by (apply inRange_false; lia).
  assert (E3 : TextDecoder.inRange 0xE0 0xEF b = false) by (apply inRange_false; lia).
  assert (E4 : TextDecoder.inRange 0xF0 0xF4 b = true) by (apply inRange_iff; lia).
  rewrite E1, E2, E3, E4. reflexivity.
Qed.

(** A continuation byte that does not complete the character. *)
Lemma contByte_mid cp seen needed lo hi bom b :
  needed <> 0 -> seen + 1 <> needed ->
  TextDecoder.inRange lo hi b = true ->
  TextDecoder.decodeByte (TextDecoder.mkState cp seen needed lo hi bom) b =
  (TextDecoder.mkState (cp * 64 + b mod 64) (seen + 1) needed 0x80 0xBF bom, []).
Proof.
  intros Hn Hs Hr. unfold TextDecoder.decodeByte, TextDecoder.handler.
  cbn [TextDecoder.bytesNeeded TextDecoder.bomSeen TextDecoder.lowerBoundary
       TextDecoder.upperBoundary TextDecoder.codePoint TextDecoder.bytesSeen].
  apply N.eqb_neq in Hn, Hs. rewrite Hn, Hr, Hs, push6. reflexivity.
Qed.

(** The continuation byte that completes the character. *)
Lemma contByte_last cp seen needed lo hi bom b :
  needed <> 0 -> seen + 1 = needed ->
  TextDecoder.inRange lo hi b = true ->
  TextDecoder.decodeByte (TextDecoder.mkState cp seen needed lo hi bom) b =
  (ready true, emitted bom (cp * 64 + b mod 64)).
Proof.
  intros Hn Hs Hr. unfold TextDecoder.decodeByte, TextDecoder.handler.
  cbn [TextDecoder.bytesNeeded TextDecoder.bomSeen TextDecoder.lowerBoundary
       TextDecoder.upperBoundary TextDecoder.codePoint TextDecoder.bytesSeen].
  apply N.eqb_neq in Hn. apply N.eqb_eq in Hs. rewrite Hn, Hr, Hs, push6.
  cbn [negb]. apply emit_one.
Qed.

Lemma mask5 b : N.land b 0x1F = b mod 32.
Proof. change 0x1F with (N.ones 5). apply land_mask. Qed.

Lemma mask4 b : N.land b 0xF = b mod 16.
Proof. change 0xF with (N.ones 4). apply land_mask. Qed.

Lemma mask3 b : N.land b 0x7 = b mod 8.
Proof. change 0x7 with (N.ones 3). apply land_mask. Qed.

Lemma mask6 b : N.land b 0x3F = b mod 64.
Proof. change 0x3F with (N.ones 6). apply land_mask. Qed.

Lemma mask10 b : N.land b 0x3FF = b mod 1024.
Proof. change 0x3FF with (N.ones 10). apply land_mask. Qed.

Lemma shiftr_div b n : N.shiftr b n = b / 2 ^ n.
Proof. apply N.shiftr_div_pow2. Qed.

Lemma encode_1 b : b <= 0x7F -> encodeCodePoint b = [b].
Proof.
  intro H. unfold encodeCodePoint. destruct (N.ltb_spec b 0x80); [reflexivity|lia].
Qed.

Lemma encode_2 b1 b2 :
  0xC2 <= b1 <= 0xDF -> 0x80 <= b2 <= 0xBF ->
  encodeCodePoint (b1 mod 32 * 64 + b2 mod 64) = [b1; b2].
Proof.
  intros H1 H2. unfold encodeCodePoint.
  set (cp := b1 mod 32 * 64 + b2 mod 64).
  destruct (N.ltb_spec cp 0x80); [subst cp; lia|].
  destruct (N.ltb_spec cp 0x800); [|subst cp; lia].
  rewrite mask6, !shiftr_div. change (2 ^ 6) with 64.
  rewrite lor_C0, lor_80 by (subst cp; lia).
  f_equal; [|f_equal]; subst cp; lia.
Qed.

Lemma encode_3 b1 b2 b3 :
  0xE0 <= b1 <= 0xEF ->
  (if b1 =? 0xE0 then 0xA0 else 0x80) <= b2 <= (if b1 =? 0xED then 0x9F else 0xBF) ->
  0x80 <= b3 <= 0xBF ->
  let cp := (b1 mod 16 * 64 + b2 mod 64) * 64 + b3 mod 64 in
  encodeCodePoint cp = [b1; b2; b3] /\ cp < 0x10000 /\ (cp < 0xD800 \/ 0xE000 <= cp).
Proof.
  intros H1 H2 H3 cp.
  assert (Hb2 : 0x80 <= b2 <= 0xBF).
  { destruct (b1 =? 0xE0), (b1 =? 0xED); lia. }
  assert (Hlo : 0x800 <= cp).
  { destruct (N.eqb_spec b1 0xE0); subst cp; [|lia].
    destruct (b1 =? 0xED); lia. }
  assert (Hhi : cp < 0x10000) by (subst cp; lia).
  assert (Hs : cp < 0xD800 \/ 0xE000 <= cp).
  { destruct (N.eqb_spec b1 0xED); subst cp; [|lia].
    destruct (b1 =? 0xE0); lia. }
  split; [|auto]. unfold encodeCodePoint.
  destruct (N.ltb_spec cp 0x80); [lia|].
  destruct (N.ltb_spec cp 0x800); [lia|].
  destruct (N.ltb_spec cp 0x10000); [|lia].
  rewrite !mask6, !shiftr_div. change (2 ^ 6) with 64. change (2 ^ 12) with 4096.
  rewrite lor_E0, !lor_80 by lia.
  f_equal; [|f_equal; [|f_equal]]; subst cp; lia.
Qed.

Lemma encode_4 b1 b2 b3 b4 :
  0xF0 <= b1 <= 0xF4 ->
  (if b1 =? 0xF0 then 0x90 else 0x80) <= b2 <= (if b1 =? 0xF4 then 0x8F else 0xBF) ->
  0x80 <= b3 <= 0xBF -> 0x80 <= b4 <= 0xBF ->
  let cp := ((b1 mod 8 * 64 + b2 mod 64) * 64 + b3 mod 64) * 64 + b4 mod 64 in
  encodeCodePoint cp = [b1; b2; b3; b4] /\ 0x10000 <= cp < 0x110000.
Proof.
  intros H1 H2 H3 H4 cp.
  assert (Hb2 : 0x80 <= b2 <= 0xBF).
  { destruct (b1 =? 0xF0), (b1 =? 0xF4); lia. }
  assert (Hlo : 0x10000 <= cp).
  { destruct (N.eqb_spec b1 0xF0); subst cp; [|lia].
    destruct (b1 =? 0xF4); lia. }
  assert (Hhi : cp < 0x110000).
  { destruct (N.eqb_spec b1 0xF4); subst cp; [|lia].
    destruct (b1 =? 0xF0); lia. }
  split; [|lia]. unfold encodeCodePoint.
  destruct (N.ltb_spec cp 0x80); [lia|].
  destruct (N.ltb_spec cp 0x800); [lia|].
  destruct (N.ltb_spec cp 0x10000); [lia|].
  rewrite !mask6, !shiftr_div.
  change (2 ^ 6) with 64. change (2 ^ 12) with 4096. change (2 ^ 18) with 262144.
  rewrite lor_F0, !lor_80 by lia.
  f_equal; [|f_equal; [|f_equal; [|f_equal]]]; subst cp; lia.
Qed.

Lemma codePoints_scalar cp o :
  cp < 0xD800 \/ 0xE000 <= cp -> codePoints (cp :: o) = cp :: codePoints o.
Proof.
  intro H. cbn [codePoints].
  destruct (N.leb_spec 0xD800 cp); destruct (N.leb_spec cp 0xDBFF); cbn [andb];
    try lia;
    destruct (N.leb_spec 0xDC00 cp); destruct (N.leb_spec cp 0xDFFF); cbn [andb];
    try lia; reflexivity.
Qed.

Lemma codePoints_pair cp o :
  0x10000 <= cp < 0x110000 ->
  TextDecoder.utf16 cp = [0xD800 + (cp - 0x10000) / 1024; 0xDC00 + (cp - 0x10000) mod 1024] /\
  codePoints (TextDecoder.utf16 cp ++ o) = cp :: codePoints o.
Proof.
  intro H. unfold TextDecoder.utf16.
  destruct (N.ltb_spec cp 0x10000); [lia|].
  rewrite mask10, shiftr_div. change (2 ^ 10) with 1024.
  split; [reflexivity|].
  set (hi := 0xD800 + (cp - 0x10000) / 1024).
  set (lo := 0xDC00 + (cp - 0x10000) mod 1024).
  cbn [app codePoints].
  destruct (N.leb_spec 0xD800 hi); [|subst hi; lia].
  destruct (N.leb_spec hi 0xDBFF); [|subst hi; lia].
  destruct (N.leb_spec 0xDC00 lo); [|subst lo; lia].
  destruct (N.leb_spec lo 0xDFFF); [|subst lo; lia].
  cbn [andb]. f_equal. subst hi lo. lia.
Qed.

Lemma utf8Encode_cons cp o :
  cp < 0xD800 \/ 0xE000 <= cp ->
  utf8Encode (cp :: o) = encodeCodePoint cp ++ utf8Encode o.
Proof. intro H. unfold utf8Encode. now rewrite codePoints_scalar. Qed.

Lemma emitted_small bom cp : cp < 0xFEFF -> emitted bom cp = [cp].
Proof.
  intro H. unfold emitted, TextDecoder.utf16.
  destruct (N.eqb_spec cp 0xFEFF); [lia|]. rewrite andb_false_r.
  destruct (N.ltb_spec cp 0x10000); [reflexivity|lia].
Qed.

(** Decoding well-formed UTF-8 and encoding the text again gives the bytes
    back, unless a byte-order mark was dropped at the start. *)
Lemma decode_encode bytes :
  wellFormed bytes = true ->
  forall bom, (bom = false -> hasBOM bytes = false) ->
  utf8Encode (snd (TextDecoder.decode (ready bom) bytes)) = bytes.
Proof.
  induction bytes as [bytes IH] using list_length_ind. intros Hwf bom Hbom.
  destruct bytes as [|b1 t1]; [reflexivity|].
  cbn [wellFormed] in Hwf.
  destruct (N.leb_spec b1 0x7F) as [H1|H1].
  { (* one byte *)
    rewrite decode_cons, decodeByte_ascii by exact H1.
    specialize (IH t1 ltac:(simpl; lia) Hwf true ltac:(discriminate)).
    destruct (TextDecoder.decode (ready true) t1) as [st o]. cbn [snd app] in *.
    rewrite utf8Encode_cons by lia. rewrite encode_1, IH by exact H1. reflexivity. }
  destruct t1 as [|b2 t2]; [discriminate|].
  destruct (TextDecoder.inRange 0xC2 0xDF b1) eqn:R1.
  { (* two bytes *)
    apply andb_true_iff in Hwf as [R2 Hwf].
    rewrite decode_cons, leadByte_2 by exact R1.
    rewrite decode_cons, (contByte_last _ 0 1) by (try exact R2; try reflexivity; discriminate).
    specialize (IH t2 ltac:(simpl; lia) Hwf true ltac:(discriminate)).
    destruct (TextDecoder.decode (ready true) t2) as [st o]. cbn [snd] in *.
    apply inRange_iff in R1, R2. rewrite mask5.
    rewrite emitted_small by lia. cbn [app].
    rewrite utf8Encode_cons by lia. rewrite encode_2, IH by assumption. reflexivity. }
  destruct t2 as [|b3 t3]; [discriminate|].
  destruct (TextDecoder.inRange 0xE0 0xEF b1) eqn:R1'.
  { (* three bytes *)
    apply andb_true_iff in Hwf as [Hwf Hwf3]. apply andb_true_iff in Hwf as [R2 R3].
    rewrite decode_cons, leadByte_3 by exact R1'.
    rewrite decode_cons, (contByte_mid _ 0 2) by (try exact R2; discriminate).
    rewrite decode_cons, (contByte_last _ (0 + 1) 2) by (try exact R3; try reflexivity; discriminate).
    specialize (IH t3 ltac:(simpl; lia) Hwf3 true ltac:(discriminate)).
    destruct (TextDecoder.decode (ready true) t3) as [st o]. cbn [snd] in *.
    apply inRange_iff in R1', R2, R3. rewrite mask4.
    destruct (encode_3 b1 b2 b3 R1' R2 R3) as (He & Hlt & Hs).
    set (cp := (b1 mod 16 * 64 + b2 mod 64) * 64 + b3 mod 64) in *.
    assert (Hem : emitted bom cp = [cp]).
    { unfold emitted, TextDecoder.utf16.
      destruct (N.ltb_spec cp 0x10000); [|lia].
      destruct bom; [reflexivity|]. cbn [negb andb].
      destruct (N.eqb_spec cp 0xFEFF) as [E|]; [|reflexivity].
      exfalso. rewrite E in He. cbv in He. injection He as <- <- <-.
      specialize (Hbom eq_refl). discriminate. }
    rewrite Hem. cbn [app].
    rewrite utf8Encode_cons by exact Hs. rewrite He, IH. reflexivity. }
  destruct t3 as [|b4 t4]; [discriminate|].
  (* four bytes *)
  apply andb_true_iff in Hwf as [Hwf Hwf4]. apply andb_true_iff in Hwf as [Hwf R4].
  apply andb_true_iff in Hwf as [Hwf R3]. apply andb_true_iff in Hwf as [R1'' R2].
  rewrite decode_cons, leadByte_4 by exact R1''.
  rewrite decode_cons, (contByte_mid _ 0 3) by (try exact R2; discriminate).
  rewrite decode_cons, (contByte_mid _ (0 + 1) 3) by (try exact R3; discriminate).
  rewrite decode_cons, (contByte_last _ (0 + 1 + 1) 3)
    by (try exact R4; try reflexivity; discriminate).
  specialize (IH t4 ltac:(simpl; lia) Hwf4 true ltac:(discriminate)).
  destruct (TextDecoder.decode (ready true) t4) as [st o]. cbn [snd] in *.
  apply inRange_iff in R1'', R2, R3, R4. rewrite mask3.
  destruct (encode_4 b1 b2 b3 b4 R1'' R2 R3 R4) as (He & Hr).
  set (cp := ((b1 mod 8 * 64 + b2 mod 64) * 64 + b3 mod 64) * 64 + b4 mod 64) in *.
  assert (Hem : emitted bom cp = TextDecoder.utf16 cp).
  { unfold emitted. destruct (N.eqb_spec cp 0xFEFF); [lia|]. now rewrite andb_false_r. }
  rewrite Hem. destruct (codePoints_pair cp o Hr) as [_ Hp].
  cbn [app]. unfold utf8Encode. rewrite Hp. cbn [flat_map]. rewrite He.
  unfold utf8Encode in IH. rewrite IH. reflexivity.
Qed.

End Utf8.

(** * Further properties of the parser *)

(** ** [inlineClean] on bold spans *)

Lemma findClose_app b c :
  starsApart b -> Forall (fun u => Regex.dot u = true) b ->
  findClose (b ++ [star; star] ++ c) = Some (b, c).
Proof.
  induction b as [|x b IH]; intros Hs Hd.
  - reflexivity.
  - destruct Hs as [Hx Hs]. inversion Hd as [|? ? Hdx Hd']; subst.
    change ((x :: b) ++ [star; star] ++ c) with (x :: (b ++ [star; star] ++ c)).
    cbn [findClose].
    destruct (startsWith (x :: b ++ [star; star] ++ c) [star; star]) eqn:E.
    + apply startsWith_stars in E as (-> & t' & Ht). specialize (Hx eq_refl).
      destruct b as [|d b]; [contradiction|].
      cbn [app] in Ht. injection Ht as -> _. contradiction.
    + rewrite Hdx, IH by assumption. reflexivity.
Qed.

Lemma findClose_some b c :
  Forall (fun u => Regex.dot u = true) b ->
  exists cap rest, findClose (b ++ [star; star] ++ c) = Some (cap, rest).
Proof.
  induction b as [|x b IH]; intro Hd.
  - now exists [], c.
  - inversion Hd as [|? ? Hdx Hd']; subst.
    change ((x :: b) ++ [star; star] ++ c) with (x :: (b ++ [star; star] ++ c)).
    cbn [findClose].
    destruct (startsWith (x :: b ++ [star; star] ++ c) [star; star]).
    + eauto.
    + rewrite Hdx. destruct (IH Hd') as (cap & rest & ->). eauto.
Qed.

Lemma inlineClean_length s : (length (inlineClean s) <= length s)%nat.
Proof.
  induction s as [s IH] using list_length_ind.
  destruct s as [|c s]; [apply le_n|].
  destruct (boldAt (c :: s)) as [[cap rest]|] eqn:E.
  - rewrite (inlineClean_match _ _ _ E).
    pose proof (boldAt_rest_shorter _ _ _ E) as Hlen.
    specialize (IH rest Hlen).
    apply boldAt_shape in E as (E & _). rewrite E in *.
    rewrite !length_app in *. cbn [length] in *. lia.
  - rewrite (inlineClean_copy _ _ E). cbn [length].
    specialize (IH s ltac:(cbn; lia)). lia.
Qed.

Lemma boldAt_not_star c t : c <> star -> boldAt (c :: t) = None.
Proof.
  intro H. rewrite boldAt_findClose. destruct t as [|d t]; [reflexivity|].
  destruct (N.eqb_spec c star); [contradiction|reflexivity].
Qed.

(** X1. A bold span is replaced by its text: in front of the span the text
    has no star, the span's text has no two stars in a row, does not end in
    a star and stays on one line; what follows the span is cleaned in the
    same way. *)
Theorem inlineClean_strips_bold (a b c : jsstring) :
  ~ In star a ->
  starsApart b ->
  Forall (fun u => Regex.dot u = true) b ->
  inlineClean (a ++ [star; star] ++ b ++ [star; star] ++ c) = a ++ b ++ inlineClean c.
Proof.
  intros Ha Hb Hd. induction a as [|x a IH].
  - change ([] ++ [star; star] ++ ?r) with (star :: star :: r).
    apply inlineClean_match. rewrite boldAt_findClose.
    rewrite !N.eqb_refl. cbn [andb]. apply (findClose_app b c Hb Hd).
  - change ((x :: a) ++ ?r) with (x :: (a ++ r)).
    rewrite inlineClean_copy.
    + rewrite IH; [reflexivity|]. intro H. apply Ha. now right.
    + apply boldAt_not_star. intros ->. apply Ha. now left.
Qed.

Lemma inlineClean_strips_bold_witness :
  inlineClean (lit "see **the docs** and **more**") = lit "see the docs and more".
Proof.
  change (lit "see **the docs** and **more**")
    with (lit "see " ++ [star; star] ++ lit "the docs" ++ [star; star] ++
          lit " and **more**").
  rewrite (inlineClean_strips_bold (lit "see ") (lit "the docs") (lit " and **more**")).
  - reflexivity.
  - cbn. intros H. repeat destruct H as [H|H]; try discriminate H; exact H.
  - cbn. repeat split; intro H; try discriminate H; intro H'; discriminate H'.
  - repeat constructor.
Defined.

Lemma noBold_suffix a t : noBold (a ++ t) -> noBold t.
Proof.
  induction a as [|x a IH]; [auto|]. intros [_ H]. now apply IH.
Qed.

Lemma noBold_head t : noBold t -> boldAt t = None.
Proof.
  destruct t as [|c t]; [reflexivity|]. now intros [H _].
Qed.

Lemma hasBold_shrinks s : hasBold s -> (length (inlineClean s) < length s)%nat.
Proof.
  intros (a & b & c & -> & Hd). induction a as [|x a IH].
  - change ([] ++ [star; star] ++ ?r) with (star :: star :: r).
    destruct (findClose_some b c Hd) as (cap & rest & E).
    assert (Hb : boldAt (star :: star :: b ++ [star; star] ++ c) = Some (cap, rest)).
    { rewrite boldAt_findClose, !N.eqb_refl. exact E. }
    rewrite (inlineClean_match _ _ _ Hb).
    pose proof (inlineClean_length rest) as Hl.
    apply boldAt_shape in Hb as (Hb & _). rewrite Hb.
    rewrite !length_app. cbn [length]. lia.
  - change ((x :: a) ++ ?r) with (x :: (a ++ r)).
    destruct (boldAt (x :: a ++ [star; star] ++ b ++ [star; star] ++ c))
      as [[cap rest]|] eqn:E.
    + rewrite (inlineClean_match _ _ _ E).
      pose proof (inlineClean_length rest) as Hl.
      apply boldAt_shape in E as (E & _). rewrite E.
      rewrite !length_app. cbn [length]. lia.
    + rewrite (inlineClean_copy _ _ E). cbn [length]. lia.
Qed.

Lemma not_hasBold_noBold s : ~ hasBold s -> noBold s.
Proof.
  intro H. assert (G : forall a t, s = a ++ t -> noBold t).
  { intros a t. revert a. induction t as [|c t IH]; intros a E; [exact I|].
    split.
    - destruct (boldAt (c :: t)) as [[cap rest]|] eqn:Eb; [|reflexivity].
      exfalso. apply H. apply boldAt_shape in Eb as (Eb & _ & Hd).
      exists a, cap, rest. split; [|exact Hd]. now rewrite E, Eb.
    - apply (IH (a ++ [c])). rewrite <- app_assoc. exact E. }
  exact (G [] s eq_refl).
Qed.

(** X2. [inlineClean] returns its argument unchanged exactly when the
    argument holds no bold span, that is, no two pairs of stars with a text
    free of line terminators between them. *)
Theorem inlineClean_unchanged_iff (s : jsstring) :
  inlineClean s = s <-> ~ hasBold s.
Proof.
  split.
  - intros E H. apply hasBold_shrinks in H. rewrite E in H. lia.
  - intro H. apply noBold_fixed, not_hasBold_noBold, H.
Qed.

Lemma filter_notStar_stars l : filter notStar ([star; star] ++ l) = filter notStar l.
Proof. reflexivity. Qed.

(** X3. [inlineClean] removes stars and nothing else: the units other than
    stars are kept, in their order, and the stars go four at a time. *)
Theorem inlineClean_only_stars (s : jsstring) :
  filter notStar (inlineClean s) = filter notStar s /\
  exists k : nat, length s = (length (inlineClean s) + 4 * k)%nat.
Proof.
  induction s as [s IH] using list_length_ind.
  destruct s as [|c s]; [split; [reflexivity|now exists 0%nat]|].
  destruct (boldAt (c :: s)) as [[cap rest]|] eqn:E.
  - rewrite (inlineClean_match _ _ _ E).
    destruct (IH rest (boldAt_rest_shorter _ _ _ E)) as (Hf & k & Hk).
    apply boldAt_shape in E as (E & _). rewrite E. split.
    + change ([star; star] ++ cap ++ [star; star] ++ rest)
        with (star :: star :: (cap ++ star :: star :: rest)).
      change (filter notStar (star :: star :: ?l)) with (filter notStar l).
      rewrite !filter_app.
      change (filter notStar (star :: star :: ?l)) with (filter notStar l).
      rewrite Hf. reflexivity.
    + exists (S k). rewrite !length_app, Hk. cbn [length]. lia.
  - rewrite (inlineClean_copy _ _ E).
    destruct (IH s ltac:(cbn; lia)) as (Hf & k & Hk). split.
    + cbn [filter]. rewrite Hf. reflexivity.
    + exists k. cbn [length]. lia.
Qed.

(** ** The parser, line by line *)

Lemma isHeading_not_skipped l : isHeading l = true -> skipped l = false.
Proof.
  unfold isHeading, skipped. change (lit "## ") with [35; 35; 32]. intro H.
  apply startsWith_cons in H as (s' & -> & _). reflexivity.
Qed.

Lemma references_isHeading l : isReferencesHeading l = true -> isHeading l = true.
Proof. apply references_is_heading. Qed.

(** The four ways a line is handled. *)
Lemma parseLine_cases st l :
  parseLine st l =
  if skipped l then st
  else if isReferencesHeading l then (closeCurrent st, None)
  else if isHeading l then (closeCurrent st, Some (mkSection (headingText l) []))
  else if startsWith (trim l) (lit "- ")
       then (fst st, Some (mkSection (heading (currentOr (snd st)))
                             (pushBullet (lineText l) (body (currentOr (snd st))))))
       else (fst st, Some (mkSection (heading (currentOr (snd st)))
                             (body (currentOr (snd st)) ++ [Paragraph (lineText l)]))).
Proof.
  unfold parseLine, skipped, isReferencesHeading, isHeading, headingText, lineText, currentOr.
  destruct (JsString.eqb (trim l) [] || JsString.eqb (trim l) (lit "---")); [reflexivity|].
  destruct (startsWith (toLowerCase (trim l)) (lit "## references")); [reflexivity|].
  destruct (startsWith (trim l) (lit "## ")); [reflexivity|].
  destruct (startsWith (trim l) (lit "- ")); reflexivity.
Qed.

Lemma parseLine_trim st l : parseLine st (trim l) = parseLine st l.
Proof. unfold parseLine. now rewrite trim_idempotent. Qed.

Lemma parseLine_skipped st l : skipped l = true -> parseLine st l = st.
Proof. intro H. now rewrite parseLine_cases, H. Qed.

Lemma skipped_trim l : skipped (trim l) = skipped l.
Proof. unfold skipped. now rewrite trim_idempotent. Qed.

Lemma fold_trimmed_lines lines st :
  fold_left parseLine lines st =
  fold_left parseLine (map trim (filter (fun l => negb (skipped l)) lines)) st.
Proof.
  revert st. induction lines as [|l lines IH]; intro st; [reflexivity|].
  cbn [fold_left filter]. destruct (skipped l) eqn:E; cbn [negb].
  - rewrite parseLine_skipped by exact E. apply IH.
  - cbn [map fold_left]. rewrite parseLine_trim. apply IH.
Qed.

(** X4. The sections depend on the text only through its lines with the
    white space at both ends removed, blank lines and [---] rules left
    out: two texts that agree on these lines give the same sections.  So
    indentation, trailing white space, carriage returns before the line
    feeds, empty lines and rules do not matter. *)
Theorem parse_trimmed_lines (m1 m2 : jsstring) :
  map trim (filter (fun l => negb (skipped l)) (split 10 m1)) =
  map trim (filter (fun l => negb (skipped l)) (split 10 m2)) ->
  parseAssistantSections m1 = parseAssistantSections m2.
Proof.
  intro H. unfold parseAssistantSections.
  rewrite (fold_trimmed_lines (split 10 m1)), (fold_trimmed_lines (split 10 m2)), H.
  reflexivity.
Qed.

Lemma parse_trimmed_lines_witness :
  parseAssistantSections md_messy = parseAssistantSections md_tidy.
Proof. apply (parse_trimmed_lines md_messy md_tidy). reflexivity. Defined.

(** ** Sections are parsed independently *)

Lemma closeCurrent_frame (D : list DisplaySection) (st : ParseState) :
  closeCurrent (D ++ fst st, snd st) = D ++ closeCurrent st.
Proof.
  unfold closeCurrent. cbn [fst snd]. destruct (snd st); [symmetry; apply app_assoc|reflexivity].
Qed.

Lemma parseLine_frame (D : list DisplaySection) (st : ParseState) l :
  parseLine (D ++ fst st, snd st) l =
  (D ++ fst (parseLine st l), snd (parseLine st l)).
Proof.
  rewrite !parseLine_cases.
  destruct (skipped l); [reflexivity|].
  destruct (isReferencesHeading l); [now rewrite closeCurrent_frame|].
  destruct (isHeading l); [now rewrite closeCurrent_frame|].
  destruct (startsWith (trim l) (lit "- ")); reflexivity.
Qed.

Lemma fold_parseLine_frame (D : list DisplaySection) lines (st : ParseState) :
  fold_left parseLine lines (D ++ fst st, snd st) =
  (D ++ fst (fold_left parseLine lines st), snd (fold_left parseLine lines st)).
Proof.
  revert st. induction lines as [|l lines IH]; intro st; [reflexivity|].
  cbn [fold_left]. rewrite parseLine_frame. apply (IH (parseLine st l)).
Qed.

Lemma split_lines_app a b : split 10 (a ++ [10] ++ b) = split 10 a ++ split 10 b.
Proof.
  rewrite split_app. cbn [app].
  rewrite split_line by apply last_split_no_sep.
  rewrite (app_removelast_last [] (split_nonempty 10 a)) at 3.
  rewrite <- app_assoc. reflexivity.
Qed.

(** X5. A text is parsed section by section: where the second part starts
    with a heading line, the sections of the whole are the sections of the
    first part followed by those of the second. *)
Theorem parse_compose (a b : jsstring) :
  isHeading (hd [] (split 10 b)) = true ->
  parseAssistantSections (a ++ [10] ++ b) =
  parseAssistantSections a ++ parseAssistantSections b.
Proof.
  intro H. unfold parseAssistantSections. rewrite split_lines_app, fold_left_app.
  destruct (split 10 b) as [|h rest] eqn:E; [now apply split_nonempty in E|].
  cbn [hd] in H. cbn [fold_left].
  set (st := fold_left parseLine (split 10 a) ([], None)).
  assert (Hh : parseLine st h =
               (closeCurrent st ++ fst (parseLine ([], None) h),
                snd (parseLine ([], None) h))).
  { rewrite !parseLine_cases, (isHeading_not_skipped _ H), H.
    destruct (isReferencesHeading h); cbn [fst snd closeCurrent];
      now rewrite app_nil_r. }
  rewrite Hh, fold_parseLine_frame, closeCurrent_frame.
  destruct (parseLine ([], None) h); reflexivity.
Qed.

Lemma parse_compose_witness :
  parseAssistantSections (lit "intro" ++ [10] ++ lit "## Steps" ++ [10] ++ lit "- one") =
  [mkSection [] [Paragraph (lit "intro")];
   mkSection (lit "Steps") [ListBlock [lit "one"]]].
Proof.
  rewrite (parse_compose (lit "intro") (lit "## Steps" ++ [10] ++ lit "- one"));
    reflexivity.
Defined.

(** ** Nothing is lost and nothing is invented *)

Lemma texts_app a b : texts (a ++ b) = texts a ++ texts b.
Proof. apply flat_map_app. Qed.

Lemma blockTexts_pushBullet x b :
  flat_map blockTexts (pushBullet x b) = flat_map blockTexts b ++ [x].
Proof.
  unfold pushBullet. destruct (lastOf b) as [[t|items]|] eqn:E;
    try (rewrite flat_map_app; reflexivity).
  apply lastOf_removelast in E. rewrite E at 2.
  rewrite !flat_map_app. cbn [flat_map blockTexts]. rewrite !app_nil_r.
  now rewrite app_assoc.
Qed.

Lemma texts_closeCurrent (st : ParseState) :
  texts (closeCurrent st) = texts (fst st) ++ sectionTexts (currentOr (snd st)).
Proof.
  unfold closeCurrent, currentOr. destruct (snd st).
  - rewrite texts_app. cbn. now rewrite app_nil_r.
  - cbn. now rewrite app_nil_r.
Qed.

Lemma texts_parseLine st l :
  texts (closeCurrent (parseLine st l)) =
  texts (closeCurrent st) ++ (if isContent l then [lineText l] else []).
Proof.
  rewrite parseLine_cases. unfold isContent.
  destruct (skipped l) eqn:Es; cbn [negb andb]; [now rewrite app_nil_r|].
  destruct (isReferencesHeading l) eqn:Er.
  - rewrite (references_isHeading _ Er). cbn [negb]. now rewrite app_nil_r.
  - destruct (isHeading l); cbn [negb].
    + unfold closeCurrent at 1. cbn [fst snd]. rewrite texts_app. reflexivity.
    + rewrite (texts_closeCurrent st).
      destruct (startsWith (trim l) (lit "- "));
        rewrite texts_closeCurrent; cbn [fst snd currentOr]; unfold sectionTexts;
        cbn [body]; rewrite ?blockTexts_pushBullet, ?flat_map_app, <- ?app_assoc;
        reflexivity.
Qed.

(** X6. Every line that is not blank, a rule or a heading is shown, once
    and in its place: the paragraphs and list items of the sections, read
    in display order, are the texts of these lines, a bullet without its
    marker, each with its bold markers stripped. *)
Theorem parse_texts (markdown : jsstring) :
  texts (parseAssistantSections markdown) =
  map lineText (filter isContent (split 10 markdown)).
Proof.
  unfold parseAssistantSections.
  assert (H : forall lines st,
             texts (closeCurrent (fold_left parseLine lines st)) =
             texts (closeCurrent st) ++ map lineText (filter isContent lines)).
  { induction lines as [|l lines IH]; intro st.
    - cbn. now rewrite app_nil_r.
    - cbn [fold_left filter]. rewrite IH, texts_parseLine, <- app_assoc.
      destruct (isContent l); reflexivity. }
  now rewrite H.
Qed.

Lemma headings_app a b : headings (a ++ b) = headings a ++ headings b.
Proof. unfold headings. now rewrite map_app, filter_app. Qed.

Lemma headingText_nonempty l : isHeading l = true -> headingText l <> [].
Proof. intro H. apply heading_nonempty; [apply trim_trimmed|exact H]. Qed.

Lemma headings_closeCurrent (st : ParseState) :
  headings (closeCurrent st) = headings (fst st ++ [currentOr (snd st)]).
Proof.
  unfold closeCurrent, currentOr. destruct (snd st); [reflexivity|].
  rewrite headings_app. cbn. now rewrite app_nil_r.
Qed.

Lemma headings_parseLine st l :
  headings (closeCurrent (parseLine st l)) =
  headings (closeCurrent st) ++ (if opensSection l then [headingText l] else []).
Proof.
  rewrite parseLine_cases. unfold opensSection.
  destruct (skipped l) eqn:Es.
  - destruct (isHeading l) eqn:Eh.
    + apply isHeading_not_skipped in Eh. congruence.
    + cbn [andb]. now rewrite app_nil_r.
  - destruct (isReferencesHeading l) eqn:Er.
    + rewrite (references_isHeading _ Er). cbn [negb andb]. now rewrite app_nil_r.
    + destruct (isHeading l) eqn:Eh; cbn [negb andb].
      * unfold closeCurrent at 1. cbn [fst snd]. rewrite headings_app.
        f_equal. unfold headings. cbn [map heading filter].
        pose proof (headingText_nonempty l Eh) as Hne. apply eqb_neq in Hne.
        now rewrite Hne.
      * rewrite app_nil_r, (headings_closeCurrent st).
        destruct (startsWith (trim l) (lit "- "));
          rewrite headings_closeCurrent; cbn [fst snd currentOr];
          rewrite !headings_app; reflexivity.
Qed.

(** X7. The headings of the sections are the heading lines of the text, in
    order, without the [## ] marker and trimmed; a line that reads as the
    References heading, in any letter case, gives none, and a section that
    was opened by a line of content has the empty heading. *)
Theorem parse_headings (markdown : jsstring) :
  headings (parseAssistantSections markdown) =
  map headingText (filter opensSection (split 10 markdown)).
Proof.
  unfold parseAssistantSections.
  assert (H : forall lines st,
             headings (closeCurrent (fold_left parseLine lines st)) =
             headings (closeCurrent st) ++ map headingText (filter opensSection lines)).
  { induction lines as [|l lines IH]; intro st.
    - cbn. now rewrite app_nil_r.
    - cbn [fold_left filter]. rewrite IH, headings_parseLine, <- app_assoc.
      destruct (opensSection l); reflexivity. }
  now rewrite H.
Qed.

(** X8. What the parser returns is well formed: a heading is trimmed; a
    section without a heading has a body; no list block is empty and no
    two list blocks are neighbours; and no heading, paragraph or item
    holds a line feed, nor a paragraph or item a bold span. *)
Theorem parse_wellformed (markdown : jsstring) (s : DisplaySection) :
  In s (parseAssistantSections markdown) ->
  trim (heading s) = heading s /\
  (heading s = [] -> body s <> []) /\
  ~ In (ListBlock []) (body s) /\
  noAdjacentLists (body s) /\
  (forall t, In t (heading s :: sectionTexts s) -> ~ In 10 t) /\
  (forall t, In t (sectionTexts s) -> ~ hasBold t).
Proof.
  intro Hin. pose proof (parse_ok markdown) as Hok.
  rewrite Forall_forall in Hok. destruct (Hok s Hin) as (Hh & Ht & Hne & Hb & Hadj).
  rewrite Forall_forall in Hb.
  assert (Htxt : forall t, In t (sectionTexts s) -> textOk t).
  { intros t Ht'. unfold sectionTexts in Ht'. apply in_flat_map in Ht' as (blk & Hblk & Ht').
    specialize (Hb blk Hblk). destruct blk as [p|items]; cbn [blockTexts blockOk] in *.
    - destruct Ht' as [<-|[]]. exact Hb.
    - destruct Hb as [_ Hb]. rewrite Forall_forall in Hb. now apply Hb. }
  split; [now apply trimmed_trim_id|]. split; [exact Hne|].
  split; [intro H; destruct (Hb _ H) as [H' _]; now apply H'|].
  split; [exact Hadj|]. split.
  - intros t [<-|Ht']; [exact Hh|]. now destruct (Htxt t Ht').
  - intros t Ht' Hbold. destruct (Htxt t Ht') as [_ E].
    apply hasBold_shrinks in Hbold. rewrite E in Hbold. lia.
Qed.

Lemma parse_wellformed_witness :
  In (mkSection (lit "Setup") [ListBlock [lit "install it"]])
     (parseAssistantSections md_messy) /\
  ~ In (ListBlock []) [ListBlock [lit "install it"]].
Proof.
  assert (H : In (mkSection (lit "Setup") [ListBlock [lit "install it"]])
                 (parseAssistantSections md_messy)) by (left; reflexivity).
  split; [exact H|].
  exact (proj1 (proj2 (proj2 (parse_wellformed md_messy _ H)))).
Defined.

(** * Reference strings *)

(** ** The combinators *)

Section Combinators.
Context {R : Type}.
Implicit Types (k : jsstring -> option R) (kk : jsstring -> jsstring -> option R).

Lemma unit_inv c k s r :
  Regex.unit_ c k s = Some r -> exists t, s = c :: t /\ k t = Some r.
Proof.
  destruct s as [|x s]; [discriminate|]. cbn [Regex.unit_].
  destruct (N.eqb_spec x c) as [->|]; [|discriminate]. eauto.
Qed.

Lemma unit_hit c k s : Regex.unit_ c k (c :: s) = k s.
Proof. cbn [Regex.unit_]. now rewrite N.eqb_refl. Qed.

Lemma unit_miss c k x s : x <> c -> Regex.unit_ c k (x :: s) = None.
Proof.
  intro H. cbn [Regex.unit_]. destruct (N.eqb_spec x c); [contradiction|reflexivity].
Qed.

Lemma str_inv p k s r :
  Regex.str_ p k s = Some r -> exists t, s = p ++ t /\ k t = Some r.
Proof.
  revert s. induction p as [|c p IH]; intros s H.
  - now exists s.
  - cbn [Regex.str_] in H. apply unit_inv in H as (t & -> & H).
    apply IH in H as (t' & -> & H). now exists t'.
Qed.

Lemma str_hit p k s : Regex.str_ p k (p ++ s) = k s.
Proof.
  induction p as [|c p IH]; [reflexivity|].
  cbn [Regex.str_ app]. now rewrite unit_hit.
Qed.

Lemma star_greedy_inv cls kk acc s r :
  Regex.star_greedy cls kk acc s = Some r ->
  exists w t, s = w ++ t /\ all cls w /\ kk (acc ++ w) t = Some r.
Proof.
  revert acc. induction s as [|c s IH]; intros acc H.
  - exists [], []. rewrite (app_nil_r acc).
    split; [reflexivity|]. split; [constructor|exact H].
  - cbn [Regex.star_greedy] in H. destruct (cls c) eqn:Ec.
    + destruct (Regex.star_greedy cls kk (acc ++ [c]) s) as [r'|] eqn:E.
      * injection H as ->. apply IH in E as (w & t & -> & Hw & E).
        exists (c :: w), t. rewrite <- app_assoc in E.
        split; [reflexivity|]. split; [now constructor|exact E].
      * exists [], (c :: s). rewrite (app_nil_r acc).
        split; [reflexivity|]. split; [constructor|exact H].
    + exists [], (c :: s). rewrite (app_nil_r acc).
      split; [reflexivity|]. split; [constructor|exact H].
Qed.

(** The longest repetition is tried first. *)
Lemma star_greedy_longest cls kk acc w t r :
  all cls w ->
  match t with c :: _ => cls c = false | [] => True end ->
  kk (acc ++ w) t = Some r ->
  Regex.star_greedy cls kk acc (w ++ t) = Some r.
Proof.
  intros Hw Ht. revert acc. induction Hw as [|c w Hc Hw IH]; intros acc H.
  - rewrite app_nil_r in H. cbn [app].
    destruct t as [|c t]; [exact H|]. cbn [Regex.star_greedy]. now rewrite Ht.
  - cbn [app Regex.star_greedy]. rewrite Hc.
    rewrite (IH (acc ++ [c])); [reflexivity|]. now rewrite <- app_assoc.
Qed.

Lemma plus_greedy_inv cls kk s r :
  Regex.plus_greedy cls kk s = Some r ->
  exists w t, s = w ++ t /\ w <> [] /\ all cls w /\ kk w t = Some r.
Proof.
  destruct s as [|c s]; [discriminate|]. cbn [Regex.plus_greedy].
  destruct (cls c) eqn:Ec; [|discriminate]. intro H.
  apply star_greedy_inv in H as (w & t & -> & Hw & H).
  exists (c :: w), t. split; [reflexivity|]. split; [discriminate|].
  split; [now constructor|exact H].
Qed.

Lemma plus_greedy_longest cls kk w t r :
  w <> [] -> all cls w ->
  match t with c :: _ => cls c = false | [] => True end ->
  kk w t = Some r ->
  Regex.plus_greedy cls kk (w ++ t) = Some r.
Proof.
  intros Hne Hw Ht H. destruct w as [|c w]; [contradiction|].
  inversion Hw as [|? ? Hc Hw']; subst.
  cbn [app Regex.plus_greedy]. rewrite Hc.
  now apply star_greedy_longest.
Qed.

Lemma star_lazy_inv cls kk acc s r :
  Regex.star_lazy cls kk acc s = Some r ->
  exists w t, s = w ++ t /\ all cls w /\ kk (acc ++ w) t = Some r.
Proof.
  revert acc. induction s as [|c s IH]; intros acc H.
  - cbn [Regex.star_lazy] in H. destruct (kk acc []) eqn:E; [|discriminate].
    exists [], []. rewrite (app_nil_r acc).
    split; [reflexivity|]. split; [constructor|congruence].
  - cbn [Regex.star_lazy] in H. destruct (kk acc (c :: s)) eqn:E.
    + exists [], (c :: s). rewrite (app_nil_r acc).
      split; [reflexivity|]. split; [constructor|congruence].
    + destruct (cls c) eqn:Ec; [|discriminate].
      apply IH in H as (w & t & -> & Hw & H).
      exists (c :: w), t. rewrite <- app_assoc in H.
      split; [reflexivity|]. split; [now constructor|exact H].
Qed.

(** The shortest repetition after which the rest matches is taken. *)
Lemma star_lazy_shortest cls kk acc w t r :
  all cls w ->
  (forall p q, w = p ++ q -> q <> [] -> kk (acc ++ p) (q ++ t) = None) ->
  kk (acc ++ w) t = Some r ->
  Regex.star_lazy cls kk acc (w ++ t) = Some r.
Proof.
  intros Hw. revert acc. induction Hw as [|c w Hc Hw IH]; intros acc Hno H.
  - rewrite app_nil_r in H. cbn [app].
    destruct t; cbn [Regex.star_lazy]; now rewrite H.
  - cbn [app Regex.star_lazy].
    assert (H0 : kk acc (c :: w ++ t) = None).
    { rewrite <- (app_nil_r acc). apply (Hno [] (c :: w) eq_refl). discriminate. }
    rewrite H0, Hc.
    apply IH.
    + intros p q -> Hq. rewrite <- app_assoc. apply (Hno (c :: p) q eq_refl Hq).
    + now rewrite <- app_assoc.
Qed.

Lemma alt_inv (a b : (jsstring -> option R) -> jsstring -> option R) k s r :
  Regex.alt_ a b k s = Some r -> a k s = Some r \/ b k s = Some r.
Proof.
  unfold Regex.alt_. destruct (a k s); [intros [= ->]; now left|now right].
Qed.

(** White space in front of a unit that is neither white space nor a dash
    cannot be followed by the dash of the expression. *)
Lemma dash_blocked kk acc q t :
  (forall a c z, isDash c = false -> kk a (c :: z) = None) ->
  (forall c, In c q -> isDash c = false) ->
  Exists (fun c => isSpace c = false) q ->
  Regex.star_greedy Regex.space kk acc (q ++ t) = None.
Proof.
  intros Hk. revert acc. induction q as [|c q IH]; intros acc Hq Hex.
  - inversion Hex.
  - cbn [app Regex.star_greedy]. unfold Regex.space at 1.
    destruct (isSpace c) eqn:Ec.
    + rewrite IH.
      * apply Hk, Hq. now left.
      * intros x Hx. apply Hq. now right.
      * inversion Hex as [? ? Hc|? ? Hex']; subst; [congruence|exact Hex'].
    + apply Hk, Hq. now left.
Qed.
Lemma dash_hit k d s r :
  isDash d = true -> k s = Some r ->
  Regex.alt_ (Regex.unit_ 0x2014) (Regex.unit_ 45) k (d :: s) = Some r.
Proof.
  intros Hd H. unfold Regex.alt_, isDash in *.
  apply orb_true_iff in Hd as [Hd|Hd]; apply N.eqb_eq in Hd; subst d.
  - now rewrite unit_hit, H.
  - rewrite unit_miss by discriminate. now rewrite unit_hit.
Qed.
End Combinators.

Lemma firstn_prefix {A : Type} (p rest : list A) :
  firstn (length (p ++ rest) - length rest) (p ++ rest) = p.
Proof.
  rewrite length_app. replace (length p + length rest - length rest)%nat with (length p) by lia.
  rewrite firstn_app, Nat.sub_diag, firstn_all. cbn. apply app_nil_r.
Qed.

Lemma isDash_not_space c : isDash c = true -> isSpace c = false.
Proof.
  unfold isDash. intro H. apply orb_true_iff in H as [H|H]; apply N.eqb_eq in H; now subst.
Qed.

(** ** The link of the expression *)

Lemma linkGroup_inv {R : Type} (k : jsstring -> jsstring -> option R) s r :
  linkGroup k s = Some r ->
  exists scheme run tail,
    s = scheme ++ lit "://" ++ run ++ tail /\
    (scheme = lit "http" \/ scheme = lit "https") /\
    run <> [] /\ all Regex.nonspace run /\
    k (scheme ++ lit "://" ++ run) tail = Some r.
Proof.
  unfold linkGroup, Regex.group_. intro H.
  apply str_inv in H as (s1 & E1 & H). unfold Regex.opt_ in H.
  apply alt_inv in H as [H|H].
  - apply unit_inv in H as (s2 & -> & H).
    apply str_inv in H as (s3 & -> & H).
    apply plus_greedy_inv in H as (run & tail & -> & Hne & Hrun & H).
    exists (lit "https"), run, tail. repeat split; auto.
    assert (E : s = (lit "https" ++ lit "://" ++ run) ++ tail)
      by (rewrite E1, <- !app_assoc; reflexivity).
    rewrite E, firstn_prefix in H. exact H.
  - apply str_inv in H as (s3 & -> & H).
    apply plus_greedy_inv in H as (run & tail & -> & Hne & Hrun & H).
    exists (lit "http"), run, tail. repeat split; auto.
    assert (E : s = (lit "http" ++ lit "://" ++ run) ++ tail)
      by (rewrite E1, <- !app_assoc; reflexivity).
    rewrite E, firstn_prefix in H. exact H.
Qed.

Lemma linkGroup_hit {R : Type} (k : jsstring -> jsstring -> option R) scheme run tail r :
  (scheme = lit "http" \/ scheme = lit "https") ->
  run <> [] -> all Regex.nonspace run -> endsLink tail ->
  k (scheme ++ lit "://" ++ run) tail = Some r ->
  linkGroup k (scheme ++ lit "://" ++ run ++ tail) = Some r.
Proof.
  intros Hs Hne Hrun Htail H. unfold linkGroup, Regex.group_.
  assert (Hplus : forall s,
            s = scheme ++ lit "://" ++ run ++ tail ->
            Regex.plus_greedy Regex.nonspace
              (fun _ rest => k (firstn (length s - length rest) s) rest)
              (run ++ tail) = Some r).
  { intros s ->. apply plus_greedy_longest; auto.
    - destruct tail as [|c tail]; [exact I|]. unfold Regex.nonspace. cbn in Htail.
      now rewrite Htail.
    - replace (scheme ++ lit "://" ++ run ++ tail)
        with ((scheme ++ lit "://" ++ run) ++ tail) by (now rewrite <- !app_assoc).
      now rewrite firstn_prefix. }
  specialize (Hplus _ eq_refl).
  assert (Hrest : Regex.str_ (lit "://")
            (Regex.plus_greedy Regex.nonspace
               (fun _ rest =>
                  k (firstn (length (scheme ++ lit "://" ++ run ++ tail) - length rest)
                       (scheme ++ lit "://" ++ run ++ tail)) rest))
            (lit "://" ++ run ++ tail) = Some r)
    by (rewrite str_hit; exact Hplus).
  clear Hplus. revert Hrest.
  generalize (Regex.str_ (lit "://")
            (Regex.plus_greedy Regex.nonspace
               (fun _ rest =>
                  k (firstn (length (scheme ++ lit "://" ++ run ++ tail) - length rest)
                       (scheme ++ lit "://" ++ run ++ tail)) rest))).
  intros k0 Hk0.
  destruct Hs as [-> | ->].
  - rewrite str_hit. unfold Regex.opt_, Regex.alt_.
    change (lit "://" ++ run ++ tail) with (58 :: (lit "//" ++ run ++ tail)) in *.
    rewrite unit_miss by discriminate. exact Hk0.
  - change (lit "https" ++ lit "://" ++ run ++ tail)
      with (lit "http" ++ 115 :: (lit "://" ++ run ++ tail)).
    rewrite str_hit. unfold Regex.opt_, Regex.alt_.
    rewrite unit_hit, Hk0. reflexivity.
Qed.

(** The expression, with the link as one piece. *)
Lemma refMatch_eq ref :
  refMatch ref =
  Regex.unit_ 91
    (Regex.plus_greedy Regex.digit (fun m1 =>
     Regex.unit_ 93
    (Regex.star_greedy Regex.space (fun _ =>
     Regex.star_lazy Regex.dot (fun m2 =>
     Regex.star_greedy Regex.space (fun _ =>
     Regex.alt_ (Regex.unit_ 0x2014) (Regex.unit_ 45)
    (Regex.star_greedy Regex.space (fun _ =>
     linkGroup (fun m3 _ => Some (m1, m2, m3))) [])) []) []) [])))
    ref.
Proof. reflexivity. Qed.

(** ** What a recognised reference looks like *)

Lemma refMatch_parts ref l t u :
  refMatch ref = Some (l, t, u) ->
  exists ws1 ws2 d ws3 scheme run tail,
    ref = referenceText l ws1 t ws2 d ws3 scheme run tail /\
    u = scheme ++ lit "://" ++ run /\
    l <> [] /\ all Regex.digit l /\
    all Regex.space ws1 /\ all Regex.dot t /\ all Regex.space ws2 /\
    isDash d = true /\ all Regex.space ws3 /\
    (scheme = lit "http" \/ scheme = lit "https") /\
    run <> [] /\ all Regex.nonspace run.
Proof.
  rewrite refMatch_eq. intro H.
  apply unit_inv in H as (s1 & -> & H).
  apply plus_greedy_inv in H as (m1 & s2 & -> & Hne & Hm1 & H).
  apply unit_inv in H as (s3 & -> & H).
  apply star_greedy_inv in H as (ws1 & s4 & -> & Hws1 & H).
  apply star_lazy_inv in H as (m2 & s5 & -> & Hm2 & H).
  apply star_greedy_inv in H as (ws2 & s6 & -> & Hws2 & H).
  assert (Hd : exists d s7, s6 = d :: s7 /\ isDash d = true /\
             Regex.star_greedy Regex.space
               (fun _ => linkGroup (fun m3 _ => Some (m1, [] ++ m2, m3))) [] s7 =
             Some (l, t, u)).
  { apply alt_inv in H as [H|H]; apply unit_inv in H as (s7 & -> & H); eauto. }
  destruct Hd as (d & s7 & -> & Hd & H').
  apply star_greedy_inv in H' as (ws3 & s8 & -> & Hws3 & H').
  apply linkGroup_inv in H' as (scheme & run & tail & -> & Hs & Hrun & Hns & H').
  cbn [app] in H'. injection H' as <- <- <-.
  exists ws1, ws2, d, ws3, scheme, run, tail. unfold referenceText.
  repeat split; auto.
Qed.

(** X9. A reference string is either kept whole as the title, with no
    label and no link, or it is split into the parts it is made of: it
    reads [[label]] title, a dash, link, with white space allowed around
    the title and after the dash; the label is a number, the title stays
    on one line, and the link is [http://] or [https://] followed by at
    least one unit, none of them white space. *)
Theorem normalizeReference_parts (ref : jsstring) :
  normalizeReference ref = mkRef [] ref [] \/
  exists l ws1 t ws2 d ws3 scheme run tail,
    ref = referenceText l ws1 t ws2 d ws3 scheme run tail /\
    normalizeReference ref = mkRef l t (scheme ++ lit "://" ++ run) /\
    l <> [] /\ all Regex.digit l /\
    all Regex.space ws1 /\ all Regex.dot t /\ all Regex.space ws2 /\
    isDash d = true /\ all Regex.space ws3 /\
    (scheme = lit "http" \/ scheme = lit "https") /\
    run <> [] /\ all Regex.nonspace run.
Proof.
  unfold normalizeReference. destruct (refMatch ref) as [[[l t] u]|] eqn:E; [|now left].
  right. apply refMatch_parts in E
    as (ws1 & ws2 & d & ws3 & scheme & run & tail & E & -> & H).
  exists l, ws1, t, ws2, d, ws3, scheme, run, tail. auto.
Qed.

(** ** Reading a reference string back *)

Lemma last_suffix (p q : jsstring) : q <> [] -> last (p ++ q) 0 = last q 0.
Proof.
  intro H. induction p as [|x p IH]; [reflexivity|].
  cbn [app]. destruct (p ++ q) eqn:E; [|exact IH].
  apply app_eq_nil in E as [_ E]. contradiction.
Qed.

Lemma last_nonspace_exists (q : jsstring) :
  q <> [] -> isSpace (last q 0) = false -> Exists (fun c => isSpace c = false) q.
Proof.
  intros Hne H. induction q as [|c q IH]; [contradiction|].
  destruct q as [|c' q]; [now left|]. right. apply IH; [discriminate|exact H].
Qed.

Lemma refMatch_text l ws1 t ws2 d ws3 scheme run tail :
  l <> [] -> all Regex.digit l ->
  all Regex.space ws1 -> all Regex.space ws2 -> all Regex.space ws3 ->
  all Regex.dot t -> trimmed t = true -> (forall c, In c t -> isDash c = false) ->
  (t = [] -> ws2 = []) ->
  isDash d = true ->
  (scheme = lit "http" \/ scheme = lit "https") ->
  run <> [] -> all Regex.nonspace run -> endsLink tail ->
  refMatch (referenceText l ws1 t ws2 d ws3 scheme run tail) =
  Some (l, t, scheme ++ lit "://" ++ run).
Proof.
  intros Hne Hl Hws1 Hws2 Hws3 Hdot Htrim Hnodash Het Hd Hs Hrne Hrun Htail.
  assert (Hds : isSpace d = false) by now apply isDash_not_space.
  rewrite refMatch_eq. unfold referenceText. cbn [app]. rewrite unit_hit.
  apply plus_greedy_longest; [exact Hne|exact Hl|reflexivity|].
  rewrite unit_hit.
  apply star_greedy_longest; [exact Hws1| |].
  { destruct t as [|c t].
    - rewrite (Het eq_refl). cbn [app]. exact Hds.
    - cbn [app]. unfold trimmed in Htrim. apply andb_true_iff in Htrim as [H _].
      now apply negb_true_iff in H. }
  apply star_lazy_shortest; [exact Hdot| |].
  { intros p q -> Hq. cbn [app].
    apply dash_blocked.
    - intros a c z Hc. unfold Regex.alt_, isDash in *.
      apply orb_false_iff in Hc as [H1 H2]. apply N.eqb_neq in H1, H2.
      now rewrite !unit_miss.
    - intros c Hc. apply Hnodash, in_or_app. now right.
    - apply last_nonspace_exists; [exact Hq|].
      rewrite <- (last_suffix p q Hq). apply trimmed_last; [|exact Htrim].
      intro E. apply app_eq_nil in E as [_ E]. contradiction. }
  cbn [app].
  apply star_greedy_longest; [exact Hws2|exact Hds|].
  assert (Hlink : Regex.star_greedy Regex.space
            (fun _ => linkGroup (fun m3 _ => Some (l, t, m3))) []
            (ws3 ++ scheme ++ lit "://" ++ run ++ tail) =
          Some (l, t, scheme ++ lit "://" ++ run)).
  { apply star_greedy_longest; [exact Hws3| |].
    - destruct Hs as [-> | ->]; reflexivity.
    - now apply linkGroup_hit. }
  apply dash_hit; [exact Hd|exact Hlink].
Qed.

(** X10. A reference string written in the expected form is read back part
    by part: for a number [l], a title [t] that has no dash, no line
    terminator and no white space at its ends, a dash [d] and a link made
    of [http://] or [https://] and a run of units that are not white space
    and that ends the string or is followed by white space, the entry has
    label [l], title [t] and the link as url, whatever white space
    surrounds the title and follows the dash. *)
Theorem normalizeReference_text (l ws1 t ws2 : jsstring) (d : N)
    (ws3 scheme run tail : jsstring) :
  l <> [] -> all Regex.digit l ->
  all Regex.space ws1 -> all Regex.space ws2 -> all Regex.space ws3 ->
  all Regex.dot t -> trimmed t = true -> (forall c, In c t -> isDash c = false) ->
  isDash d = true ->
  (scheme = lit "http" \/ scheme = lit "https") ->
  run <> [] -> all Regex.nonspace run -> endsLink tail ->
  normalizeReference (referenceText l ws1 t ws2 d ws3 scheme run tail) =
  mkRef l t (scheme ++ lit "://" ++ run).
Proof.
  intros Hne Hl Hws1 Hws2 Hws3 Hdot Htrim Hnodash Hd Hs Hrne Hrun Htail.
  unfold normalizeReference.
  destruct t as [|c t].
  - assert (E : referenceText l ws1 [] ws2 d ws3 scheme run tail =
                referenceText l (ws1 ++ ws2) [] [] d ws3 scheme run tail).
    { unfold referenceText. cbn [app]. now rewrite <- !app_assoc. }
    rewrite E, refMatch_text; auto; try constructor.
    apply Forall_app. now split.
  - rewrite refMatch_text; auto. discriminate.
Qed.

Lemma normalizeReference_text_witness :
  normalizeReference (lit "[12]  Getting started " ++ [0x2014] ++ lit " https://docs.example/start (intro)") =
  mkRef (lit "12") (lit "Getting started") (lit "https://docs.example/start").
Proof.
  apply (normalizeReference_text (lit "12") (lit "  ") (lit "Getting started") (lit " ")
           0x2014 (lit " ") (lit "https") (lit "docs.example/start") (lit " (intro)")).
  - discriminate.
  - repeat constructor.
  - repeat constructor.
  - repeat constructor.
  - repeat constructor.
  - repeat constructor.
  - reflexivity.
  - intros c H. cbn in H. repeat destruct H as [<-|H]; try reflexivity. contradiction.
  - reflexivity.
  - now right.
  - discriminate.
  - repeat constructor.
  - reflexivity.
Defined.

(** * Requests *)

(** ** A request works on one message *)

Lemma onSolo_normal r l m : role m = r -> onSolo r (Normal l (solo m)).
Proof. intro H. now exists m. Qed.

Lemma dispatch_onSolo e l m : onSolo (role m) (dispatch e l (solo m)).
Proof.
  rewrite dispatch_kind. destruct (eventKind e); cbn [sessionOf];
    rewrite ?patch_solo; try (eexists; split; reflexivity).
  unfold appendAssistantDelta, withDelta. rewrite patch_solo_opt.
  destruct (ToString _); [destruct (ToString _)|]; cbn [option_map updated];
    eexists; split; reflexivity.
Qed.

Lemma bind_onSolo r c k :
  onSolo r c ->
  (forall l m, role m = r -> onSolo r (k l (solo m))) ->
  onSolo r (bind c k).
Proof.
  intros (m & Hs & Hr) Hk. destruct c as [l s|e s]; cbn [sessionOf bind] in *.
  - subst s. now apply Hk.
  - now exists m.
Qed.

Lemma runEvents_onSolo evs l m : onSolo (role m) (runEvents evs l (solo m)).
Proof.
  revert l m. induction evs as [|e evs IH]; intros l m; cbn [runEvents].
  - now apply onSolo_normal.
  - apply bind_onSolo.
    + unfold handleEvent. destruct (shouldAbort l);
        [now apply onSolo_normal|apply dispatch_onSolo].
    + intros l' m' <-. apply IH.
Qed.

Lemma readLoop_onSolo P cs e l m : onSolo (role m) (readLoop P cs e l (solo m)).
Proof.
  revert l m. induction cs as [|v cs IH]; intros l m; cbn [readLoop].
  - destruct e; now exists m.
  - destruct (TextDecoder.decode (decoder l) v) as [d decoded]. unfold popLine.
    rewrite forEachLine_events. apply bind_onSolo; [apply runEvents_onSolo|].
    intros l' m' <-. destruct (shouldAbort l'); [now apply onSolo_normal|apply IH].
Qed.

Lemma emptyResultFallback_onSolo l m : onSolo (role m) (emptyResultFallback l (solo m)).
Proof.
  unfold emptyResultFallback.
  destruct (negb (receivedChunk l) && negb (receivedError l));
    [|now apply onSolo_normal].
  rewrite overwrite_patched, patch_solo. now apply onSolo_normal.
Qed.

Lemma afterLoop_onSolo P l m : onSolo (role m) (afterLoop P l (solo m)).
Proof.
  unfold afterLoop, flushBuffer. apply bind_onSolo.
  - destruct (negb (shouldAbort l) && negb (JsString.eqb (trim (buffer l)) []));
      [|now apply onSolo_normal].
    rewrite processEventLine_events. apply runEvents_onSolo.
  - intros l' m' <-. apply emptyResultFallback_onSolo.
Qed.

Lemma tryBlock_onSolo P f m : onSolo (role m) (tryBlock P f (solo m)).
Proof.
  destruct f as [|r]; cbn [tryBlock]; [now exists m|].
  destruct (negb (ok r)).
  - destruct (text r); now exists m.
  - destruct (responseBody r) as [b|]; [|now exists m].
    apply bind_onSolo; [apply readLoop_onSolo|].
    intros l' m' <-. apply afterLoop_onSolo.
Qed.

(** What a request that is sent leaves: the two entries, after the
    messages there were. *)
Lemma sendMessage_sent P f s :
  isLoading s = false -> trim (input s) <> [] ->
  exists m,
    role m = assistant /\
    sendMessage P f s =
      mkSession (messages s ++ exchange (trim (input s), m)) [] false (-1) /\
    (forall l s1, tryBlock P f (solo pendingMessage) = Normal l s1 -> s1 = solo m) /\
    (forall e s1, tryBlock P f (solo pendingMessage) = Thrown e s1 -> m = failedMessage).
Proof.
  intros Hl Hq. apply eqb_neq in Hq. unfold sendMessage. rewrite Hl, Hq.
  rewrite startRequest_solo, tryBlock_frame by apply solo_index.
  destruct (tryBlock_onSolo P f pendingMessage) as (m & Hs & Hr).
  destruct (tryBlock P f (solo pendingMessage)) as [l s1|e s1];
    cbn [sessionOf] in Hs; subst s1; cbn [frameC finishRequest].
  - exists m. split; [exact Hr|]. split.
    + unfold frame, solo, exchange. cbn [messages input fst snd].
      now rewrite <- app_assoc.
    + split; [now intros ? ? [= _ <-]|discriminate].
  - exists failedMessage. split; [reflexivity|]. split.
    + unfold finishRequest. rewrite overwrite_patched, patch_frame by apply solo_index.
      rewrite patch_solo. unfold frame, solo, exchange, failedMessage, withText.
      cbn [messages input fst snd role]. rewrite Hr, <- app_assoc. reflexivity.
    + split; [discriminate|reflexivity].
Qed.

(** X11. A request that is sent, whatever the transport does and whatever
    the stream holds, leaves the conversation with two more entries, the
    user's trimmed text and one assistant entry, after the messages that
    were there, unchanged; the input is cleared, the loading flag is off
    and no message is targeted any more. *)
Theorem sendMessage_appends_exchange (P : jsstring -> option JValue) (f : Fetch)
    (s : Session) :
  isLoading s = false ->
  trim (input s) <> [] ->
  exists answer,
    role answer = assistant /\
    sendMessage P f s =
      mkSession
        (messages s ++ [mkMessage user (JStr (trim (input s))) None; answer])
        [] false (-1).
Proof.
  intros Hl Hq. destruct (sendMessage_sent P f s Hl Hq) as (m & Hr & E & _).
  exists m. split; [exact Hr|exact E].
Qed.

Lemma sendMessage_appends_exchange_witness :
  exists answer,
    role answer = assistant /\
    sendMessage parseAtom FetchRejects (setInput (lit " hi ") initialSession) =
      mkSession
        (messages initialSession ++ [mkMessage user (JStr (lit "hi")) None; answer])
        [] false (-1).
Proof.
  apply (sendMessage_appends_exchange parseAtom FetchRejects
           (setInput (lit " hi ") initialSession)).
  - reflexivity.
  - discriminate.
Defined.

(** X12. Submitting changes nothing exactly when a request is under way or
    the input is blank. *)
Theorem sendMessage_noop_iff (P : jsstring -> option JValue) (f : Fetch) (s : Session) :
  sendMessage P f s = s <-> isLoading s = true \/ trim (input s) = [].
Proof.
  split.
  - intro E. destruct (isLoading s) eqn:Hl; [now left|]. right.
    destruct (JsString.eqb (trim (input s)) []) eqn:Hq; [now apply eqb_eq|].
    apply eqb_neq in Hq. destruct (sendMessage_sent P f s Hl Hq) as (m & _ & E' & _).
    rewrite E in E'. apply (f_equal (fun x => length (messages x))) in E'.
    cbn [messages] in E'. rewrite length_app in E'. cbn [exchange length] in E'. lia.
  - unfold sendMessage. intros [H|H].
    + now rewrite H.
    + destruct (isLoading s); [reflexivity|]. apply eqb_eq in H. now rewrite H.
Qed.

(** ** Failures of the transport *)

Lemma runEvents_no_error evs l s :
  shouldAbort l = false ->
  Forall (fun e => eventKind e <> KError) evs ->
  match runEvents evs l s with
  | Normal l' _ => shouldAbort l' = false
  | Thrown _ _ => True
  end.
Proof.
  intros Ha H. revert l s Ha. induction H as [|e evs He _ IH]; intros l s Ha.
  - exact Ha.
  - cbn [runEvents]. unfold handleEvent. rewrite Ha, dispatch_kind.
    destruct (eventKind e); try destruct (appendAssistantDelta _ s);
      cbn [updated bind]; try exact I; try (now apply IH).
Qed.

Lemma readLoop_rejects P cs l s :
  shouldAbort l = false ->
  Forall (fun e => eventKind e <> KError)
    (eventsOf P (snd (feedAll (decoder l, buffer l) cs))) ->
  exists e s', readLoop P cs ReadRejects l s = Thrown e s'.
Proof.
  revert l s. induction cs as [|v cs IH]; intros l s Ha H; cbn [readLoop].
  - eauto.
  - cbn [feedAll] in H. unfold feed in H. cbn [fst snd] in H.
    destruct (TextDecoder.decode (decoder l) v) as [d decoded]. unfold popLine in *.
    destruct (feedAll (d, last (split 10 (buffer l ++ decoded)) []) cs)
      as [st2 lines'] eqn:E.
    cbn [snd] in H. rewrite eventsOf_app in H. apply Forall_app in H as [H1 H2].
    rewrite forEachLine_events.
    set (l1 := mkLocal d (last (split 10 (buffer l ++ decoded)) []) (receivedChunk l)
                 (receivedError l) (shouldAbort l)).
    pose proof (runEvents_no_error _ l1 s Ha H1) as Hn.
    destruct (runEvents _ l1 s) as [l2 s2|e2 s2] eqn:Er; cbn [bind]; [|eauto].
    rewrite Hn. destruct (runEvents_buffer _ _ _ _ _ Er) as [Hd Hb].
    apply IH; [exact Hn|]. rewrite Hd, Hb. cbn [decoder buffer l1]. now rewrite E.
Qed.

Lemma transport_fails_throws P f :
  TransportFails P f -> exists e s1, tryBlock P f (solo pendingMessage) = Thrown e s1.
Proof.
  intros [|t|t cs H]; cbn [tryBlock ok negb responseBody chunks ending]; eauto.
  destruct (readLoop_rejects P cs initialLocal (solo pendingMessage) eq_refl H)
    as (e & s' & ->). cbn [bind]. eauto.
Qed.

(** X13. When the transport fails ([fetch] rejects, the response has no
    body, or a read rejects and no error event came before) the request is
    Failed and its assistant entry is the fixed text "Search failed. Check
    the FastAPI logs." with no references; what the stream had delivered of
    an answer is discarded. *)
Theorem transport_failure (P : jsstring -> option JValue) (f : Fetch) (s : Session) :
  isLoading s = false ->
  trim (input s) <> [] ->
  TransportFails P f ->
  sendMessageState P f s = Failed /\
  sendMessage P f s =
    mkSession
      (messages s ++ [mkMessage user (JStr (trim (input s))) None; failedMessage])
      [] false (-1).
Proof.
  intros Hl Hq Hf. destruct (transport_fails_throws P f Hf) as (e & s1 & Ht). split.
  - pose proof Hq as Hq'. apply eqb_neq in Hq'.
    unfold sendMessageState. rewrite Hl, Hq'.
    rewrite startRequest_solo, tryBlock_frame by apply solo_index.
    rewrite Ht. reflexivity.
  - destruct (sendMessage_sent P f s Hl Hq) as (m & _ & E & _ & Hm).
    rewrite E, (Hm _ _ Ht). reflexivity.
Qed.

Lemma transport_failure_witness :
  sendMessage parseAsChunk
    (FetchResolves (mkResponse true None
       (Some (mkBody [lit "partial answer" ++ [10]; lit "more"] ReadRejects))))
    (setInput (lit "why?") initialSession) =
  mkSession
    (messages initialSession ++ [mkMessage user (JStr (lit "why?")) None; failedMessage])
    [] false (-1).
Proof.
  refine (proj2 (transport_failure parseAsChunk _ (setInput (lit "why?") initialSession)
                   eq_refl _ (read_rejects _ None _ _))).
  - discriminate.
  - repeat constructor; discriminate.
Defined.

(** ** A chat session *)

Lemma sendMessage_loading P f s : isLoading s = false -> isLoading (sendMessage P f s) = false.
Proof.
  intro H. unfold sendMessage. rewrite H.
  destruct (JsString.eqb (trim (input s)) []); [exact H|reflexivity].
Qed.

(** X14. After any series of submissions, each answered by any transport,
    no request is left under way, and the conversation is the one there
    was followed by one exchange per text that was not blank, in the order
    of submission: the user's trimmed text, then one assistant entry. *)
Theorem conversation_of_exchanges (P : jsstring -> option JValue)
    (reqs : list (jsstring * Fetch)) (s : Session) :
  isLoading s = false ->
  isLoading (runRequests P reqs s) = false /\
  exists answers,
    length answers = length (asked reqs) /\
    Forall (fun m => role m = assistant) answers /\
    messages (runRequests P reqs s) =
      messages s ++ flat_map exchange (combine (asked reqs) answers).
Proof.
  revert s. induction reqs as [|[typed f] reqs IH]; intros s Hl; cbn [runRequests].
  - split; [exact Hl|]. exists []. cbn. now rewrite app_nil_r.
  - set (s0 := setInput typed s).
    assert (Hl0 : isLoading s0 = false) by exact Hl.
    destruct (IH (sendMessage P f s0) (sendMessage_loading P f s0 Hl0))
      as (Hl' & answers & Hlen & Hroles & Hm).
    split; [exact Hl'|]. unfold asked in *. cbn [map filter fst].
    destruct (JsString.eqb (trim typed) []) eqn:Hq; cbn [negb].
    + exists answers. split; [exact Hlen|]. split; [exact Hroles|].
      rewrite Hm. unfold sendMessage. rewrite Hl0. cbn [input s0 setInput].
      rewrite Hq. reflexivity.
    + assert (Hq' : trim (input s0) <> []) by (now apply eqb_neq).
      destruct (sendMessage_sent P f s0 Hl0 Hq') as (m & Hr & E & _).
      exists (m :: answers). split; [cbn [length]; now rewrite Hlen|].
      split; [now constructor|].
      rewrite Hm, E. cbn [messages combine flat_map input s0 setInput].
      now rewrite <- app_assoc.
Qed.

Lemma conversation_of_exchanges_witness :
  isLoading
    (runRequests parseAtom
       [(lit " hi ", FetchRejects); (lit "  ", FetchRejects);
        (lit "more", FetchResolves (mkResponse true None (Some (mkBody [] Done))))]
       initialSession) = false.
Proof.
  exact (proj1 (conversation_of_exchanges parseAtom _ initialSession eq_refl)).
Defined.

(** * Streams *)

(** ** Benign events, message by message *)

Lemma withDelta_textual delta m :
  textual m -> ToString delta <> None ->
  exists t, withDelta delta m = Some (mkMessage (role m) (JStr t) (references m)).
Proof.
  intros [c Hc] Hd. unfold withDelta. rewrite Hc.
  assert (Hb : exists b,
             ToString (if isString (Some (JStr c)) STREAMING_PLACEHOLDER then JStr []
                       else orElse (Some (JStr c)) (JStr [])) = Some b).
  { destruct (isString _ _); [now eexists|].
    cbn [orElse truthy]. destruct (negb _); now eexists. }
  destruct Hb as [b ->]. destruct (ToString delta) as [d|]; [|contradiction].
  now eexists.
Qed.

Lemma applyEvent_textual m e : textual m -> textual (applyEvent m e).
Proof.
  intro H. unfold applyEvent. destruct (eventKind e); try exact H.
  unfold withDelta. destruct (ToString _); [|exact H].
  destruct (ToString _); [now eexists|exact H].
Qed.

Lemma handleEvent_applyEvent e l m :
  shouldAbort l = false -> benign e -> textual m ->
  exists l',
    handleEvent e l (solo m) = Normal l' (solo (applyEvent m e)) /\
    shouldAbort l' = false /\ receivedError l' = receivedError l /\
    receivedChunk l' = receivedChunk l || isChunkEvent e.
Proof.
  intros Ha H Hm. unfold handleEvent, applyEvent, isChunkEvent, benign in *.
  rewrite Ha, dispatch_kind.
  destruct (eventKind e); try contradiction; rewrite ?patch_solo.
  - unfold appendAssistantDelta. rewrite patch_solo_opt.
    destruct (withDelta_textual _ m Hm H) as [t ->]. cbn [option_map updated].
    eexists. split; [reflexivity|]. cbn. now rewrite orb_true_r.
  - eexists. split; [reflexivity|]. now rewrite orb_false_r.
  - eexists. split; [reflexivity|]. now rewrite orb_false_r.
Qed.

Lemma runEvents_applyEvent evs l m :
  shouldAbort l = false -> Forall benign evs -> textual m ->
  exists l',
    runEvents evs l (solo m) = Normal l' (solo (fold_left applyEvent evs m)) /\
    shouldAbort l' = false /\ receivedError l' = receivedError l /\
    receivedChunk l' = receivedChunk l || existsb isChunkEvent evs.
Proof.
  intros Ha H. revert l m Ha. induction H as [|e evs He _ IH]; intros l m Ha Hm.
  - exists l. cbn. now rewrite orb_false_r.
  - destruct (handleEvent_applyEvent e l m Ha He Hm) as (l1 & E1 & Ha1 & He1 & Hc1).
    destruct (IH l1 (applyEvent m e) Ha1 (applyEvent_textual m e Hm))
      as (l2 & E2 & Ha2 & He2 & Hc2).
    exists l2. cbn [runEvents fold_left existsb]. rewrite E1. cbn [bind].
    split; [exact E2|]. split; [exact Ha2|]. split; [congruence|].
    rewrite Hc2, Hc1. now rewrite orb_assoc.
Qed.

Lemma pendingMessage_textual : textual pendingMessage.
Proof. now eexists. Qed.

Lemma streamedMessage_benign evs q s :
  Forall benign evs ->
  streamedMessage evs q s = Some (fold_left applyEvent evs pendingMessage).
Proof.
  intro H. unfold streamedMessage. rewrite startRequest_solo.
  rewrite runEvents_frame by apply solo_index.
  destruct (runEvents_applyEvent evs initialLocal pendingMessage eq_refl H
              pendingMessage_textual) as (l' & -> & _).
  cbn [frameC sessionOf]. unfold activeMessage, frame, solo. cbn [messages].
  apply lastOf_snoc.
Qed.

Lemma finish_benign evs q s :
  Forall benign evs -> existsb isChunkEvent evs = true ->
  requestState (applyStream evs (startRequest q s)) = Finalized /\
  messages (finishRequest (applyStream evs (startRequest q s))) =
    messages s ++ [mkMessage user (JStr q) None; fold_left applyEvent evs pendingMessage].
Proof.
  intros H Hc. rewrite startRequest_solo.
  rewrite applyStream_frame by apply solo_index. rewrite requestState_frame.
  unfold applyStream.
  destruct (runEvents_applyEvent evs initialLocal pendingMessage eq_refl H
              pendingMessage_textual) as (l' & -> & _ & He & Hch).
  cbn [bind]. unfold emptyResultFallback. rewrite Hch, Hc, orb_true_r. cbn [negb andb].
  cbn [requestState]. rewrite He. split; [reflexivity|].
  rewrite finish_solo, <- app_assoc. reflexivity.
Qed.

(** ** The deltas of an answer *)

Lemma chunkEvent_kind d : eventKind (chunkEvent d) = KChunk.
Proof. reflexivity. Qed.

Lemma chunkEvent_delta d :
  ToString (orElse (get (chunkEvent d) (lit "delta")) (JStr [])) = Some d.
Proof.
  change (get (chunkEvent d) (lit "delta")) with (Some (JStr d)).
  cbn [orElse truthy]. destruct (JsString.eqb d []) eqn:E; cbn [negb ToString];
    [apply eqb_eq in E; now subst|reflexivity].
Qed.

Lemma chunkEvent_benign ds : Forall benign (map chunkEvent ds).
Proof.
  induction ds as [|d ds IH]; constructor; [|assumption].
  unfold benign. rewrite chunkEvent_kind, chunkEvent_delta. discriminate.
Qed.

Lemma applyEvent_chunk r c refs d :
  applyEvent (mkMessage r (JStr c) refs) (chunkEvent d) =
  mkMessage r (JStr (appendDelta c d)) refs.
Proof.
  unfold applyEvent, withDelta. rewrite chunkEvent_kind, chunkEvent_delta.
  cbn [content role references isString]. unfold appendDelta.
  destruct (JsString.eqb c STREAMING_PLACEHOLDER); [reflexivity|].
  cbn [orElse truthy]. destruct (JsString.eqb c []) eqn:E; cbn [negb ToString];
    [apply eqb_eq in E; now subst|reflexivity].
Qed.

Lemma fold_chunks ds r c refs :
  fold_left applyEvent (map chunkEvent ds) (mkMessage r (JStr c) refs) =
  mkMessage r (JStr (fold_left appendDelta ds c)) refs.
Proof.
  revert c. induction ds as [|d ds IH]; intro c; [reflexivity|].
  cbn [map fold_left]. now rewrite applyEvent_chunk, IH.
Qed.

Lemma appendDelta_concat ds c :
  (forall p r, ds = p ++ r -> r <> [] -> c ++ concat p <> STREAMING_PLACEHOLDER) ->
  fold_left appendDelta ds c = c ++ concat ds.
Proof.
  revert c. induction ds as [|d ds IH]; intros c H.
  - cbn. now rewrite app_nil_r.
  - cbn [fold_left concat]. unfold appendDelta at 2.
    assert (Hc : c <> STREAMING_PLACEHOLDER).
    { specialize (H [] (d :: ds) eq_refl). cbn in H. rewrite app_nil_r in H.
      apply H. discriminate. }
    apply eqb_neq in Hc. rewrite Hc, IH; [now rewrite <- app_assoc|].
    intros p r -> Hr. rewrite <- app_assoc. apply (H (d :: p) r eq_refl Hr).
Qed.

Lemma placeholder_then ds :
  ds <> [] -> collisionFree ds ->
  fold_left appendDelta ds STREAMING_PLACEHOLDER = concat ds.
Proof.
  intros Hne H. destruct ds as [|d ds]; [contradiction|].
  cbn [fold_left concat]. unfold appendDelta at 2. rewrite eqb_refl. cbn [app].
  apply appendDelta_concat. intros p r -> Hr.
  apply (H (d :: p) r eq_refl); [discriminate|exact Hr].
Qed.

Lemma existsb_chunks ds : ds <> [] -> existsb isChunkEvent (map chunkEvent ds) = true.
Proof. destruct ds; [contradiction|reflexivity]. Qed.

(** X15. The deltas of the answer chunks are shown joined in the order of
    arrival: for a stream of answer chunks in which no part of the answer
    that more deltas follow reads as the placeholder, the request is
    Finalized and the content of its assistant entry is the concatenation
    of the deltas, the placeholder gone. *)
Theorem deltas_concatenate (s : Session) (q : jsstring) (ds : list jsstring) :
  ds <> [] ->
  collisionFree ds ->
  let c := applyStream (map chunkEvent ds) (startRequest q s) in
  requestState c = Finalized /\
  messages (finishRequest c) =
    messages s ++ [mkMessage user (JStr q) None;
                   mkMessage assistant (JStr (concat ds)) (Some (JArr []))].
Proof.
  intros Hne Hfree c. subst c.
  destruct (finish_benign (map chunkEvent ds) q s (chunkEvent_benign ds)
              (existsb_chunks ds Hne)) as [Hst Hm].
  split; [exact Hst|]. rewrite Hm. unfold pendingMessage.
  rewrite fold_chunks, placeholder_then by assumption. reflexivity.
Qed.

Lemma deltas_concatenate_witness :
  messages (finishRequest
              (applyStream (map chunkEvent [lit "Hel"; []; lit "lo"])
                 (startRequest (lit "hi") initialSession))) =
  messages initialSession ++
    [mkMessage user (JStr (lit "hi")) None;
     mkMessage assistant (JStr (lit "Hello")) (Some (JArr []))].
Proof.
  refine (proj2 (deltas_concatenate initialSession (lit "hi") [lit "Hel"; []; lit "lo"] _ _)).
  - discriminate.
  - intros p r E Hp Hr H.
    apply (f_equal (@length N)) in H.
    assert (Hlen : (length (concat p) <= 5)%nat).
    { apply (f_equal (fun l => length (concat l))) in E.
      rewrite concat_app, length_app in E. cbn in E. lia. }
    rewrite H in Hlen. cbn in Hlen. lia.
Defined.

(** X16. The placeholder is an ordinary string: if the answer received so
    far reads exactly as the placeholder and more deltas follow, that part
    of the answer is dropped, and the content is the concatenation of the
    deltas that came after it. *)
Theorem placeholder_answer_is_dropped (s : Session) (q : jsstring)
    (p r : list jsstring) :
  collisionFree p ->
  concat p = STREAMING_PLACEHOLDER ->
  r <> [] ->
  collisionFree r ->
  messages (finishRequest (applyStream (map chunkEvent (p ++ r)) (startRequest q s))) =
    messages s ++ [mkMessage user (JStr q) None;
                   mkMessage assistant (JStr (concat r)) (Some (JArr []))].
Proof.
  intros Hp Hc Hr Hfree.
  assert (Hne : p <> []) by (intros ->; discriminate Hc).
  destruct (finish_benign (map chunkEvent (p ++ r)) q s (chunkEvent_benign _))
    as [_ Hm].
  { apply existsb_chunks. destruct p; [contradiction|discriminate]. }
  rewrite Hm. unfold pendingMessage.
  rewrite fold_chunks, fold_left_app, (placeholder_then p Hne Hp), Hc,
    (placeholder_then r Hr Hfree).
  reflexivity.
Qed.

Lemma placeholder_answer_is_dropped_witness :
  messages (finishRequest
              (applyStream (map chunkEvent [STREAMING_PLACEHOLDER; lit " and more"])
                 (startRequest (lit "hi") initialSession))) =
  messages initialSession ++
    [mkMessage user (JStr (lit "hi")) None;
     mkMessage assistant (JStr (lit " and more")) (Some (JArr []))].
Proof.
  refine (placeholder_answer_is_dropped initialSession (lit "hi")
            [STREAMING_PLACEHOLDER] [lit " and more"] _ _ _ _).
  - intros p r E Hp Hr. destruct p as [|x [|y p]]; try contradiction; try discriminate.
    destruct r; [contradiction|discriminate].
  - reflexivity.
  - discriminate.
  - intros p r E Hp Hr. destruct p as [|x [|y p]]; try contradiction; try discriminate.
    destruct r; [contradiction|discriminate].
Defined.

(** ** Chunks and references do not interfere *)

Lemma applyEvent_role m e : role (applyEvent m e) = role m.
Proof.
  unfold applyEvent, withDelta. destruct (eventKind e); try reflexivity.
  destruct (ToString _); [destruct (ToString _)|]; reflexivity.
Qed.

Lemma fold_applyEvent_role evs m : role (fold_left applyEvent evs m) = role m.
Proof.
  revert m. induction evs as [|e evs IH]; intro m; [reflexivity|].
  cbn [fold_left]. now rewrite IH, applyEvent_role.
Qed.

Lemma fold_content evs m m' :
  Forall benign evs -> content m = content m' ->
  content (fold_left applyEvent evs m) =
  content (fold_left applyEvent (filter isChunkEvent evs) m').
Proof.
  intro H. revert m m'. induction H as [|e evs He _ IH]; intros m m' Hc; [exact Hc|].
  cbn [fold_left filter]. unfold isChunkEvent at 1. unfold benign in He.
  destruct (eventKind e) eqn:Ek; try contradiction.
  - cbn [fold_left]. apply IH. unfold applyEvent, withDelta. rewrite Ek, Hc.
    destruct (ToString _); [destruct (ToString _)|]; cbn [content]; congruence.
  - apply IH. unfold applyEvent. rewrite Ek. exact Hc.
  - apply IH. unfold applyEvent. rewrite Ek. exact Hc.
Qed.

Lemma fold_references evs m m' :
  Forall benign evs -> references m = references m' ->
  references (fold_left applyEvent evs m) =
  references (fold_left applyEvent (filter isReferencesEvent evs) m').
Proof.
  intro H. revert m m'. induction H as [|e evs He _ IH]; intros m m' Hc; [exact Hc|].
  cbn [fold_left filter]. unfold isReferencesEvent at 1. unfold benign in He.
  destruct (eventKind e) eqn:Ek; try contradiction.
  - apply IH. unfold applyEvent, withDelta. rewrite Ek.
    destruct (ToString _); [destruct (ToString _)|]; cbn [references]; congruence.
  - cbn [fold_left]. apply IH. unfold applyEvent. rewrite Ek. reflexivity.
  - apply IH. unfold applyEvent. rewrite Ek. exact Hc.
Qed.

Lemma Forall_filter {A : Type} (P : A -> Prop) (f : A -> bool) l :
  Forall P l -> Forall P (filter f l).
Proof.
  intro H. induction H as [|x l Hx _ IH]; cbn [filter]; [constructor|].
  destruct (f x); [now constructor|exact IH].
Qed.

(** X17. Answer chunks and references events do not interfere: in a stream
    without error events and null lines, whose answer chunks carry deltas
    that can be converted to strings, the content of the assistant entry
    is the one the answer chunks alone would give and its reference list
    the one the references events alone would give, wherever the
    references events stand among the chunks. *)
Theorem chunks_and_references_independent (s : Session) (q : jsstring)
    (evs : list JValue) :
  Forall benign evs ->
  exists mc mr,
    streamedMessage (filter isChunkEvent evs) q s = Some mc /\
    streamedMessage (filter isReferencesEvent evs) q s = Some mr /\
    streamedMessage evs q s = Some (mkMessage assistant (content mc) (references mr)).
Proof.
  intro H.
  exists (fold_left applyEvent (filter isChunkEvent evs) pendingMessage),
         (fold_left applyEvent (filter isReferencesEvent evs) pendingMessage).
  rewrite !streamedMessage_benign by (try apply Forall_filter; exact H).
  split; [reflexivity|]. split; [reflexivity|]. f_equal.
  rewrite <- (fold_content evs pendingMessage pendingMessage H eq_refl).
  rewrite <- (fold_references evs pendingMessage pendingMessage H eq_refl).
  pose proof (fold_applyEvent_role evs pendingMessage) as Hr.
  destruct (fold_left applyEvent evs pendingMessage) as [r c refs].
  cbn [role content references] in *. now rewrite Hr.
Qed.

Lemma chunks_and_references_independent_witness :
  streamedMessage
    [chunkEvent (lit "a"); referencesEvent [lit "r"]; chunkEvent (lit "b")]
    (lit "hi") initialSession =
  Some (mkMessage assistant (JStr (lit "ab")) (Some (JArr [JStr (lit "r")]))).
Proof.
  destruct (chunks_and_references_independent initialSession (lit "hi")
              [chunkEvent (lit "a"); referencesEvent [lit "r"]; chunkEvent (lit "b")])
    as (mc & mr & Hc & Hr & ->).
  - constructor; [vm_compute; discriminate|].
    constructor; [exact I|].
    constructor; [vm_compute; discriminate|constructor].
  - injection Hc as <-. injection Hr as <-. reflexivity.
Defined.

(** ** The buffers of the stream *)

Lemma decoderLines_concat cs1 cs2 :
  concat cs1 = concat cs2 -> decoderLines cs1 = decoderLines cs2.
Proof.
  intro E. destruct (decoderLines_spec cs1) as (H1 & H1' & ->).
  destruct (decoderLines_spec cs2) as (H2 & H2' & ->).
  rewrite H1, H1', H2, H2', E. reflexivity.
Qed.

Lemma streamed_outcome P t cs s :
  outcome (tryBlock P (FetchResolves (mkResponse true t (Some (mkBody cs Done)))) s) =
  outcome (applyStream (eventsOf P (decoderLines cs)) s).
Proof.
  cbn [tryBlock ok negb responseBody chunks ending].
  rewrite readLoop_events by (intros []).
  destruct (decoderLines_spec cs) as (_ & _ & ->). reflexivity.
Qed.

(** X19. How the transport cuts the body into buffers does not matter: two
    responses whose buffers, put end to end, are the same bytes leave the
    same conversation and end the request in the same state, also when a
    buffer ends in the middle of a line or of a character. *)
Theorem buffering_is_irrelevant (P : jsstring -> option JValue)
    (t1 t2 : option jsstring) (cs1 cs2 : list (list N)) (s : Session) :
  concat cs1 = concat cs2 ->
  let f1 := FetchResolves (mkResponse true t1 (Some (mkBody cs1 Done))) in
  let f2 := FetchResolves (mkResponse true t2 (Some (mkBody cs2 Done))) in
  sendMessage P f1 s = sendMessage P f2 s /\
  sendMessageState P f1 s = sendMessageState P f2 s.
Proof.
  intros E f1 f2. unfold sendMessage, sendMessageState.
  destruct (isLoading s); [now split|].
  destruct (JsString.eqb (trim (input s)) []); [now split|].
  apply outcome_finish. subst f1 f2.
  rewrite !streamed_outcome, (decoderLines_concat cs1 cs2 E). reflexivity.
Qed.

Lemma buffering_is_irrelevant_witness :
  sendMessage parseAsChunk
    (FetchResolves (mkResponse true None
       (Some (mkBody [[104; 195]; [169; 10; 33]] Done))))
    (setInput (lit "hi") initialSession) =
  sendMessage parseAsChunk
    (FetchResolves (mkResponse true None
       (Some (mkBody [[104; 195; 169; 10; 33]] Done))))
    (setInput (lit "hi") initialSession).
Proof.
  refine (proj1 (buffering_is_irrelevant parseAsChunk None None
                   [[104; 195]; [169; 10; 33]] [[104; 195; 169; 10; 33]]
                   (setInput (lit "hi") initialSession) _)).
  reflexivity.
Defined.

(** X20 witness: a request read to the end of its stream. *)
Lemma sendMessage_applyStream_witness :
  sendMessage parseAsChunk
    (FetchResolves (mkResponse true None (Some (mkBody [lit "Hel"; lit "lo" ++ [10]] Done))))
    (setInput (lit " hi ") initialSession) =
  finishRequest
    (applyStream (eventsOf parseAsChunk (decoderLines [lit "Hel"; lit "lo" ++ [10]]))
       (startRequest (lit "hi") initialSession)).
Proof.
  refine (proj1 (sendMessage_applyStream parseAsChunk None [lit "Hel"; lit "lo" ++ [10]]
                   (setInput (lit " hi ") initialSession) _ _)).
  - reflexivity.
  - discriminate.
Defined.

(** * Rendering *)

(** ** The links of a rendered message *)

Lemma hrefs_blockNode b : hrefs (blockNode b) = [].
Proof.
  destruct b as [t|items]; [reflexivity|]. cbn [blockNode hrefs filter map app className fst].
  change (JsString.eqb (lit "className") (lit "href")) with false. cbn [map app].
  induction items as [|i items IH]; [reflexivity|exact IH].
Qed.

Lemma hrefs_sectionNode s : hrefs (sectionNode s) = [].
Proof.
  unfold sectionNode. cbn [hrefs filter className fst].
  change (JsString.eqb (lit "className") (lit "href")) with false. cbn [map app flat_map].
  assert (H : flat_map hrefs (map blockNode (body s)) = []).
  { induction (body s) as [|b bs IH]; [reflexivity|].
    cbn [map flat_map]. now rewrite hrefs_blockNode, IH. }
  rewrite H. destruct (JsString.eqb (heading s) []); reflexivity.
Qed.

Lemma hrefs_referenceNode r :
  hrefs (referenceNode r) = if JsString.eqb (url r) [] then [] else [url r].
Proof. unfold referenceNode. destruct (JsString.eqb (url r) []); reflexivity. Qed.

Lemma hrefs_referenceNodes l :
  flat_map hrefs (map referenceNode l) =
  map url (filter (fun r => negb (JsString.eqb (url r) [])) l).
Proof.
  induction l as [|x l IH]; [reflexivity|].
  cbn [map flat_map filter]. rewrite hrefs_referenceNode, IH.
  destruct (JsString.eqb (url x) []); reflexivity.
Qed.

Lemma hrefs_referencesNode entries :
  hrefs (referencesNode entries) =
  map url (filter (fun r => negb (JsString.eqb (url r) [])) entries).
Proof.
  destruct entries as [|r entries]; [reflexivity|].
  transitivity (flat_map hrefs (map referenceNode (r :: entries)) ++ []);
    [reflexivity|].
  now rewrite app_nil_r, hrefs_referenceNodes.
Qed.

Lemma hrefs_sectionNodes sections : flat_map hrefs (map sectionNode sections) = [].
Proof.
  induction sections as [|s ss IH]; [reflexivity|].
  cbn [map flat_map]. now rewrite hrefs_sectionNode, IH.
Qed.

Lemma hrefs_rendered sections entries :
  hrefs (Elem (lit "div") [className "assistant-response"]
           (map sectionNode sections ++ [referencesNode entries])) =
  map url (filter (fun r => negb (JsString.eqb (url r) [])) entries).
Proof.
  transitivity (flat_map hrefs (map sectionNode sections ++ [referencesNode entries]));
    [reflexivity|].
  rewrite flat_map_app, hrefs_sectionNodes. cbn [flat_map app].
  now rewrite app_nil_r, hrefs_referencesNode.
Qed.

Lemma normalizeReference_webLink ref :
  url (normalizeReference ref) = [] \/ webLink (url (normalizeReference ref)).
Proof.
  unfold normalizeReference. destruct (refMatch ref) as [[[l t] u]|] eqn:E; [|now left].
  right. cbn [url].
  apply refMatch_parts in E
    as (ws1 & ws2 & d & ws3 & scheme & run & tail & _ & -> & _ & _ & _ & _ & _ & _ & _
        & Hs & _ & Hrun).
  split.
  - destruct Hs as [-> | ->]; reflexivity.
  - unfold all in *. apply Forall_app. split; [|apply Forall_app; split; [|exact Hrun]].
    + destruct Hs as [-> | ->]; repeat constructor.
    + repeat constructor.
Qed.

(** X21. Every link of a rendered assistant message leads to the web:
    whatever the reference strings are, the [href] of each link in the
    tree starts with [http://] or [https://] and holds no white space. *)
Theorem rendered_links_are_web_links (msg : Message) (n : Node) :
  renderAssistantMessage msg = Some (Tree n) ->
  Forall webLink (hrefs n).
Proof.
  unfold renderAssistantMessage. destruct (content msg) as [| | |markdown| |]; try discriminate.
  destruct (referenceStrings (references msg)) as [refs|]; [|discriminate].
  destruct ((length (parseAssistantSections markdown) =? 0)%nat &&
            (length (normalizeReferences refs) =? 0)%nat); [discriminate|].
  intros [= <-]. rewrite hrefs_rendered. unfold normalizeReferences.
  induction refs as [|r refs IH]; [constructor|].
  cbn [map filter].
  destruct (normalizeReference_webLink r) as [H|H].
  - apply eqb_eq in H. rewrite H. exact IH.
  - destruct (JsString.eqb (url (normalizeReference r)) []); [exact IH|].
    now constructor.
Qed.

Lemma rendered_links_are_web_links_witness :
  Forall webLink
    (hrefs (Elem (lit "div") [className "assistant-response"]
       (map sectionNode (parseAssistantSections (lit "See the guide.")) ++
        [referencesNode
           (normalizeReferences [lit "[1] Guide - https://docs.example/guide";
                                 lit "javascript:alert(1)"])]))).
Proof.
  apply (rendered_links_are_web_links
           (mkMessage assistant (JStr (lit "See the guide."))
              (Some (JArr [JStr (lit "[1] Guide - https://docs.example/guide");
                           JStr (lit "javascript:alert(1)")])))).
  reflexivity.
Defined.

(** ** Messages that can be rendered *)

Lemma renderable_renders m : renderable m -> renderMessageContent m <> None.
Proof.
  intros [[c Hc] Hr]. unfold renderMessageContent, renderAssistantMessage.
  destruct (role m); [discriminate|]. rewrite Hc.
  destruct (referenceStrings (references m)); [|contradiction].
  destruct (_ && _); discriminate.
Qed.

Lemma renderable_overwrite r t : renderable (mkMessage r (JStr t) (Some (JArr []))).
Proof. split; [now exists t|discriminate]. Qed.

Lemma onSoloQ_normal (Q : Message -> Prop) l m : Q m -> onSoloQ Q (Normal l (solo m)).
Proof. intro H. now exists m. Qed.

Lemma bind_onSoloQ (Q : Message -> Prop) c k :
  onSoloQ Q c -> (forall l m, Q m -> onSoloQ Q (k l (solo m))) -> onSoloQ Q (bind c k).
Proof.
  intros (m & Hs & Hq) Hk. destruct c as [l s|e s]; cbn [sessionOf bind] in *.
  - subst s. now apply Hk.
  - now exists m.
Qed.

Lemma dispatch_renderable e l m :
  wellTyped e -> renderable m -> onSoloQ renderable (dispatch e l (solo m)).
Proof.
  intros He Hm. rewrite dispatch_kind. unfold wellTyped in He.
  destruct (eventKind e); cbn [sessionOf]; rewrite ?patch_solo.
  - now exists m.
  - unfold appendAssistantDelta, withDelta. rewrite patch_solo_opt.
    destruct (ToString _); [destruct (ToString _)|]; cbn [option_map updated sessionOf];
      eexists; (split; [reflexivity|]); try exact Hm.
    destruct Hm as [_ Hr]. split; [eexists; reflexivity|exact Hr].
  - eexists. split; [reflexivity|]. destruct Hm as [Hc _]. split; [exact Hc|exact He].
  - eexists. split; [reflexivity|]. destruct He as [t ->]. apply renderable_overwrite.
  - now exists m.
Qed.

Lemma runEvents_renderable evs l m :
  Forall wellTyped evs -> renderable m -> onSoloQ renderable (runEvents evs l (solo m)).
Proof.
  intro H. revert l m. induction H as [|e evs He _ IH]; intros l m Hm; cbn [runEvents].
  - now apply onSoloQ_normal.
  - apply bind_onSoloQ; [|intros; now apply IH].
    unfold handleEvent. destruct (shouldAbort l);
      [now apply onSoloQ_normal|now apply dispatch_renderable].
Qed.

Section Renderable.
Variable P : jsstring -> option JValue.
Hypothesis well_typed : forall line e, P line = Some e -> wellTyped e.

Lemma eventsOf_wellTyped lines : Forall wellTyped (eventsOf P lines).
Proof.
  unfold eventsOf. induction lines as [|line lines IH]; [constructor|].
  cbn [flat_map]. apply Forall_app. split; [|exact IH].
  destruct (JsString.eqb line []); [constructor|].
  destruct (P line) as [e|] eqn:E; [|constructor].
  constructor; [now apply (well_typed line)|constructor].
Qed.

Lemma readLoop_renderable cs e l m :
  renderable m -> onSoloQ renderable (readLoop P cs e l (solo m)).
Proof.
  revert l m. induction cs as [|v cs IH]; intros l m Hm; cbn [readLoop].
  - destruct e; now exists m.
  - destruct (TextDecoder.decode (decoder l) v) as [d decoded]. unfold popLine.
    rewrite forEachLine_events.
    apply bind_onSoloQ; [apply runEvents_renderable; [apply eventsOf_wellTyped|exact Hm]|].
    intros l' m' Hm'. destruct (shouldAbort l'); [now apply onSoloQ_normal|now apply IH].
Qed.

Lemma afterLoop_renderable l m :
  renderable m -> onSoloQ renderable (afterLoop P l (solo m)).
Proof.
  intro Hm. unfold afterLoop, flushBuffer. apply bind_onSoloQ.
  - destruct (negb (shouldAbort l) && negb (JsString.eqb (trim (buffer l)) []));
      [|now apply onSoloQ_normal].
    rewrite processEventLine_events.
    apply runEvents_renderable; [apply eventsOf_wellTyped|exact Hm].
  - intros l' m' Hm'. unfold emptyResultFallback.
    destruct (negb (receivedChunk l') && negb (receivedError l'));
      [|now apply onSoloQ_normal].
    rewrite overwrite_patched, patch_solo.
    apply onSoloQ_normal, renderable_overwrite.
Qed.

Lemma tryBlock_renderable f m :
  renderable m -> onSoloQ renderable (tryBlock P f (solo m)).
Proof.
  intro Hm. destruct f as [|r]; cbn [tryBlock]; [now exists m|].
  destruct (negb (ok r)).
  - destruct (text r); now exists m.
  - destruct (responseBody r) as [b|]; [|now exists m].
    apply bind_onSoloQ; [now apply readLoop_renderable|].
    intros l' m' Hm'. now apply afterLoop_renderable.
Qed.

Lemma sendMessage_renderable f s :
  isLoading s = false ->
  Forall renderable (messages s) -> Forall renderable (messages (sendMessage P f s)).
Proof.
  intros Hl H. destruct (JsString.eqb (trim (input s)) []) eqn:Hq.
  - unfold sendMessage. now rewrite Hl, Hq.
  - apply eqb_neq in Hq.
    destruct (sendMessage_sent P f s Hl Hq) as (m & _ & -> & Hn & Ht).
    cbn [messages]. apply Forall_app. split; [exact H|].
    unfold exchange. cbn [fst snd].
    constructor; [split; [eexists; reflexivity|discriminate]|].
    constructor; [|constructor].
    assert (Hp : renderable pendingMessage) by apply renderable_overwrite.
    destruct (tryBlock_renderable f pendingMessage Hp) as (m' & Hs & Hm').
    destruct (tryBlock P f (solo pendingMessage)) as [l s1|e s1] eqn:E;
      cbn [sessionOf] in Hs.
    + specialize (Hn l s1 eq_refl). rewrite Hn in Hs. injection Hs as ->. exact Hm'.
    + rewrite (Ht e s1 eq_refl). apply renderable_overwrite.
Qed.

Lemma runRequests_renderable reqs s :
  isLoading s = false ->
  Forall renderable (messages s) -> Forall renderable (messages (runRequests P reqs s)).
Proof.
  revert s. induction reqs as [|[typed f] reqs IH]; intros s Hl H; [exact H|].
  cbn [runRequests]. apply IH.
  - now apply sendMessage_loading.
  - now apply sendMessage_renderable.
Qed.
End Renderable.

(** X22. Rendering never throws on a conversation the client has built
    from well-typed events: if every error event that [JSON.parse] yields
    carries a string as message (or none) and every references event a
    list of strings (or none), then after any series of submissions,
    whatever the transports do, [renderMessageContent] returns for every
    message of the conversation. *)
Theorem conversation_renders (P : jsstring -> option JValue)
    (reqs : list (jsstring * Fetch)) :
  (forall line e, P line = Some e -> wellTyped e) ->
  Forall (fun m => renderMessageContent m <> None)
    (messages (runRequests P reqs initialSession)).
Proof.
  intro HP.
  assert (H : Forall renderable (messages (runRequests P reqs initialSession))).
  { apply runRequests_renderable; [exact HP|reflexivity|].
    constructor; [apply renderable_overwrite|constructor]. }
  revert H. apply Forall_impl. intro m. apply renderable_renders.
Qed.

Lemma conversation_renders_witness :
  Forall (fun m => renderMessageContent m <> None)
    (messages (runRequests parseAtom
                 [(lit "hi", FetchResolves (mkResponse true None
                                 (Some (mkBody [lit "{}" ++ [10] ++ lit "null"] Done))))]
                 initialSession)).
Proof.
  apply (conversation_renders parseAtom).
  intros line e. unfold parseAtom.
  repeat match goal with
         | |- (if ?b then _ else _) = _ -> _ => destruct b
         end; intros [= <-]; exact I.
Defined.

(** ** When the content is shown as it is *)

Lemma closeCurrent_parseLine_nil st l :
  closeCurrent (parseLine st l) = [] <->
  closeCurrent st = [] /\ showsNothing l = true.
Proof.
  rewrite parseLine_cases. unfold showsNothing.
  destruct (skipped l); cbn [orb]; [tauto|].
  destruct (isReferencesHeading l); [unfold closeCurrent at 1; cbn [fst snd]; tauto|].
  assert (Hno : forall (a : list DisplaySection) x, a ++ [x] <> [])
    by (intros a x E; now apply app_eq_nil in E as [_ E]).
  destruct (isHeading l); [|destruct (startsWith (trim l) (lit "- "))];
    unfold closeCurrent at 1; cbn [fst snd]; split;
    try (intro E; now apply Hno in E); intros [_ E]; discriminate.
Qed.

Lemma closeCurrent_fold_nil lines st :
  closeCurrent (fold_left parseLine lines st) = [] <->
  closeCurrent st = [] /\ forallb showsNothing lines = true.
Proof.
  revert st. induction lines as [|l lines IH]; intro st; cbn [fold_left forallb].
  - tauto.
  - rewrite IH, closeCurrent_parseLine_nil, andb_true_iff. tauto.
Qed.

(** X23. The content of an assistant message is shown as it is, without
    sections, exactly when there is nothing to put in sections: every
    line of the content is blank, a rule or a References heading, and the
    message has no references.  Otherwise an element is shown. *)
Theorem raw_content_iff (markdown : jsstring) (refs : option JValue) :
  renderAssistantMessage (mkMessage assistant (JStr markdown) refs) =
    Some (Raw (JStr markdown)) <->
  forallb showsNothing (split 10 markdown) = true /\ referenceStrings refs = Some [].
Proof.
  unfold renderAssistantMessage. cbn [content references].
  assert (Hp : parseAssistantSections markdown = [] <->
               forallb showsNothing (split 10 markdown) = true).
  { unfold parseAssistantSections. rewrite closeCurrent_fold_nil.
    unfold closeCurrent. cbn [fst snd]. tauto. }
  destruct (referenceStrings refs) as [rs|].
  - destruct (parseAssistantSections markdown) as [|sec secs] eqn:E.
    + destruct rs as [|r rs]; cbn [length normalizeReferences map Nat.eqb andb].
      * split; [intros _; split; [now apply Hp|reflexivity]|reflexivity].
      * split; [discriminate|intros [_ H]; discriminate].
    + cbn [length Nat.eqb andb]. split; [discriminate|].
      intros [H _]. apply Hp in H. discriminate.
  - split; [discriminate|intros [_ H]; discriminate].
Qed.

(** * The stream, end to end *)

(** ** The lines of the body and the read loop *)

Lemma streamLines_decoderLines cs : map trim (streamLines cs) = decoderLines cs.
Proof.
  destruct (decoderLines_spec cs) as (Hl & Hf & ->). rewrite Hl, Hf.
  unfold streamLines, terminatedLines, remainderLine. rewrite map_app.
  destruct (JsString.eqb _ []); reflexivity.
Qed.

(** The loop alone: the events of the lines that a line feed ends. *)
Lemma readLoop_loop_events P cs l s :
  ~ In 10 (buffer l) ->
  outcome (readLoop P cs Done l s) =
  outcome (runEvents (eventsOf P (snd (feedAll (decoder l, buffer l) cs))) l s).
Proof.
  revert l s. induction cs as [|v cs IH]; intros l s Hb.
  - reflexivity.
  - cbn [readLoop feedAll]. unfold feed. cbn [fst snd].
    destruct (TextDecoder.decode (decoder l) v) as [d1 decoded].
    unfold popLine.
    set (rest := last (split 10 (buffer l ++ decoded)) []).
    set (lines := removelast (split 10 (buffer l ++ decoded))).
    set (l1 := mkLocal d1 rest (receivedChunk l) (receivedError l) (shouldAbort l)).
    destruct (feedAll (d1, rest) cs) as [st2 lines'] eqn:Ef. cbn [fst snd].
    rewrite eventsOf_app, runEvents_app, forEachLine_events.
    pose proof (runEvents_flags (eventsOf P (map trim lines)) l1 l s eq_refl) as Ho.
    destruct (runEvents (eventsOf P (map trim lines)) l1 s) as [l2 s2|e2 s2] eqn:E1;
      destruct (runEvents (eventsOf P (map trim lines)) l s) as [l2' s2'|e2' s2'] eqn:E1';
      cbn [outcome] in Ho; try discriminate; [|exact Ho].
    assert (Hfl : flagsOf l2 = flagsOf l2') by congruence.
    assert (Hs : s2 = s2') by congruence. subst s2'. clear Ho. cbn [bind].
    pose proof (flagsOf_eq _ _ Hfl) as (_ & _ & Ha).
    apply runEvents_buffer in E1 as [Hd2 Hb2]. cbn in Hd2, Hb2.
    destruct (shouldAbort l2) eqn:Ha2.
    + rewrite runEvents_aborted by congruence. cbn [outcome]. now rewrite Hfl.
    + rewrite IH by (rewrite Hb2; apply last_split_no_sep).
      rewrite Hd2, Hb2, Ef. cbn [fst snd].
      now apply runEvents_flags.
Qed.

Lemma terminatedLines_loop cs :
  snd (feedAll (TextDecoder.initial, []) cs) = map trim (terminatedLines cs).
Proof. destruct (decoderLines_spec cs) as (Hl & _). exact Hl. Qed.

Lemma readLoop_terminated P cs s :
  outcome (readLoop P cs Done initialLocal s) =
  outcome (forEachLine P (terminatedLines cs) initialLocal s).
Proof.
  rewrite readLoop_loop_events by (intros []).
  cbn [decoder buffer initialLocal]. rewrite terminatedLines_loop, forEachLine_events.
  reflexivity.
Qed.

Lemma readLoop_flush_stream P cs s :
  outcome (bind (readLoop P cs Done initialLocal s) (flushBuffer P)) =
  outcome (forEachLine P (streamLines cs) initialLocal s).
Proof.
  rewrite readLoop_flush_events by (intros []).
  rewrite forEachLine_events, streamLines_decoderLines.
  destruct (decoderLines_spec cs) as (_ & _ & ->). reflexivity.
Qed.

Lemma terminatedLines_concat cs cs' :
  concat cs' = concat cs -> terminatedLines cs' = terminatedLines cs.
Proof. unfold terminatedLines. now intros ->. Qed.

Lemma streamLines_concat cs cs' :
  concat cs' = concat cs -> streamLines cs' = streamLines cs.
Proof. unfold streamLines, terminatedLines, remainderLine. now intros ->. Qed.

Lemma reinsert_segments (segs : list jsstring) :
  segs <> [] ->
  Forall (fun seg => trim seg = seg) segs ->
  reinsert (map trim (removelast segs))
    (map trim (if JsString.eqb (trim (last segs [])) [] then [] else [last segs []])) =
  join [10] segs.
Proof.
  intros Hne Ht.
  assert (Hmap : map trim (removelast segs) = removelast segs).
  { clear Hne. induction Ht as [|x l Hx Hl IH]; [reflexivity|].
    destruct l as [|y l]; [reflexivity|].
    change (removelast (x :: y :: l)) with (x :: removelast (y :: l)).
    cbn [map]. rewrite Hx, IH. reflexivity. }
  assert (Hlast : trim (last segs []) = last segs []).
  { rewrite Forall_forall in Ht. apply Ht.
    destruct (exists_last Hne) as (l' & y & E). rewrite E, last_last.
    apply in_or_app. right. now left. }
  unfold reinsert. rewrite Hmap, Hlast, <- (reinsert_join segs Hne). f_equal.
  destruct (JsString.eqb (last segs []) []) eqn:E.
  - apply eqb_eq in E. now rewrite E.
  - cbn [map concat]. rewrite Hlast. apply app_nil_r.
Qed.

(** ** C3: the emitted lines *)

(** C3 (amended). Reading a body that is delivered in buffers, however the
    bytes are split (in the middle of a line or of a multi-byte
    character), has the effect of handing [processEventLine] the lines of
    the decoded text, each trimmed, one after the other and once each: the
    loop those that a line feed ends, the flush after it the remainder
    when it is not blank; so what is handed on does not depend on the
    split.  Lines that follow an error event are without effect (the loop
    stops reading).  When no segment of the text has white space at its
    ends, the lines handed on, with a line feed put back after each line
    of the loop, are the decoded text, and, for well-formed UTF-8 that
    does not start with a byte-order mark, their encoding is the original
    concatenation. *)
Theorem C3_emitted_lines (P : jsstring -> option JValue) (cs : list (list N))
    (s : Session) :
  outcome (readLoop P cs Done initialLocal s) =
    outcome (forEachLine P (terminatedLines cs) initialLocal s) /\
  outcome (bind (readLoop P cs Done initialLocal s) (flushBuffer P)) =
    outcome (forEachLine P (terminatedLines cs ++ remainderLine cs) initialLocal s) /\
  (forall cs', concat cs' = concat cs ->
     outcome (readLoop P cs' Done initialLocal s) =
       outcome (readLoop P cs Done initialLocal s) /\
     outcome (bind (readLoop P cs' Done initialLocal s) (flushBuffer P)) =
       outcome (bind (readLoop P cs Done initialLocal s) (flushBuffer P))) /\
  (Forall (fun seg => trim seg = seg) (split 10 (decodedText (concat cs))) ->
   reinsert (map trim (terminatedLines cs)) (map trim (remainderLine cs)) =
     decodedText (concat cs) /\
   (wellFormed (concat cs) = true -> hasBOM (concat cs) = false ->
    utf8Encode (reinsert (map trim (terminatedLines cs)) (map trim (remainderLine cs))) =
      concat cs)).
Proof.
  split; [apply readLoop_terminated|].
  split; [apply readLoop_flush_stream|]. split.
  - intros cs' E. split.
    + now rewrite !readLoop_terminated, (terminatedLines_concat cs cs' E).
    + now rewrite !readLoop_flush_stream, (streamLines_concat cs cs' E).
  - intro Ht.
    assert (Hre : reinsert (map trim (terminatedLines cs)) (map trim (remainderLine cs)) =
                  decodedText (concat cs)).
    { unfold terminatedLines, remainderLine.
      rewrite reinsert_segments; [apply join_split|apply split_nonempty|exact Ht]. }
    split; [exact Hre|].
    intros Hwf Hbom. rewrite Hre. unfold decodedText.
    apply (decode_encode (concat cs) Hwf false). intros _. exact Hbom.
Qed.

Lemma C3_emitted_lines_witness :
  outcome (bind (readLoop parseAsChunk [[97; 0xE2; 0x80; 0x94; 10; 98; 99; 10; 100]] Done
                   initialLocal (solo pendingMessage)) (flushBuffer parseAsChunk)) =
  outcome (bind (readLoop parseAsChunk [[97; 0xE2]; [0x80; 0x94; 10; 98]; [99; 10; 100]] Done
                   initialLocal (solo pendingMessage)) (flushBuffer parseAsChunk)) /\
  reinsert (map trim (terminatedLines [[97; 0xE2]; [0x80; 0x94; 10; 98]; [99; 10; 100]]))
           (map trim (remainderLine [[97; 0xE2]; [0x80; 0x94; 10; 98]; [99; 10; 100]])) =
    [97; 0x2014; 10; 98; 99; 10; 100] /\
  utf8Encode
    (reinsert (map trim (terminatedLines [[97; 0xE2]; [0x80; 0x94; 10; 98]; [99; 10; 100]]))
              (map trim (remainderLine [[97; 0xE2]; [0x80; 0x94; 10; 98]; [99; 10; 100]]))) =
    [97; 0xE2; 0x80; 0x94; 10; 98; 99; 10; 100].
Proof.
  pose proof (C3_emitted_lines parseAsChunk
                [[97; 0xE2]; [0x80; 0x94; 10; 98]; [99; 10; 100]] (solo pendingMessage))
    as (_ & _ & H3 & H4).
  split; [apply H3; reflexivity|].
  assert (Ht : Forall (fun seg => trim seg = seg)
                 (split 10 (decodedText
                    (concat [[97; 0xE2]; [0x80; 0x94; 10; 98]; [99; 10; 100]])))).
  { assert (E : split 10 (decodedText
                   (concat [[97; 0xE2]; [0x80; 0x94; 10; 98]; [99; 10; 100]])) =
                [[97; 0x2014]; [98; 99]; [100]]) by reflexivity.
    rewrite E. repeat constructor. }
  destruct (H4 Ht) as [H5 H6]. split.
  - rewrite H5. reflexivity.
  - apply H6; reflexivity.
Defined.

(** C3, as stated, fails.  With every line read as an answer chunk whose
    delta is the line, the content shows what is handed on: the space
    before "a" is lost; a byte that is not UTF-8 comes out as U+FFFD; a
    byte-order mark at the start is dropped.  In each case the lines
    handed on, with the line feeds put back, do not encode to the bytes
    received.  And a buffer that follows an error event is not read at
    all: its text never reaches the line buffer, while after a references
    event it does. *)
Lemma C3_counterexample_lost_bytes :
  (sessionOf (bind (readLoop parseAsChunk [[32; 97; 10]] Done initialLocal
                      (solo pendingMessage)) (flushBuffer parseAsChunk)) =
     solo (mkMessage assistant (JStr (lit "a")) (Some (JArr []))) /\
   utf8Encode (reinsert (map trim (terminatedLines [[32; 97; 10]]))
                 (map trim (remainderLine [[32; 97; 10]]))) = [97; 10] /\
   [97; 10] <> concat [[32; 97; 10]]) /\
  (sessionOf (bind (readLoop parseAsChunk [[0xFF; 10]] Done initialLocal
                      (solo pendingMessage)) (flushBuffer parseAsChunk)) =
     solo (mkMessage assistant (JStr [0xFFFD]) (Some (JArr []))) /\
   utf8Encode (reinsert (map trim (terminatedLines [[0xFF; 10]]))
                 (map trim (remainderLine [[0xFF; 10]]))) = [0xEF; 0xBF; 0xBD; 10] /\
   [0xEF; 0xBF; 0xBD; 10] <> concat [[0xFF; 10]]) /\
  (sessionOf (bind (readLoop parseAsChunk [[0xEF; 0xBB]; [0xBF; 97; 10]] Done initialLocal
                      (solo pendingMessage)) (flushBuffer parseAsChunk)) =
     solo (mkMessage assistant (JStr (lit "a")) (Some (JArr []))) /\
   utf8Encode (reinsert (map trim (terminatedLines [[0xEF; 0xBB]; [0xBF; 97; 10]]))
                 (map trim (remainderLine [[0xEF; 0xBB]; [0xBF; 97; 10]]))) = [97; 10] /\
   [97; 10] <> concat [[0xEF; 0xBB]; [0xBF; 97; 10]]) /\
  (match readLoop parseDemo [lit "e:x" ++ [10]; lit "c:y"] Done initialLocal
           (solo pendingMessage) with
   | Normal l _ => Some (buffer l)
   | Thrown _ _ => None
   end = Some [] /\
   match readLoop parseDemo [lit "r:x" ++ [10]; lit "c:y"] Done initialLocal
           (solo pendingMessage) with
   | Normal l _ => Some (buffer l)
   | Thrown _ _ => None
   end = Some (lit "c:y")).
Proof. repeat split; vm_compute; discriminate. Qed.

(** ** Requests whose stream is read to its end *)

Lemma streamed_events_outcome P t cs s :
  outcome (tryBlock P (FetchResolves (mkResponse true t (Some (mkBody cs Done)))) s) =
  outcome (applyStream (streamEvents P cs) s).
Proof.
  rewrite streamed_outcome. unfold streamEvents.
  now rewrite streamLines_decoderLines.
Qed.

(** The request, from what the events of the body do to the pending
    entry. *)
Lemma sendMessage_streamed P t cs s l m :
  isLoading s = false -> trim (input s) <> [] ->
  applyStream (streamEvents P cs) (solo pendingMessage) = Normal l (solo m) ->
  sendMessageState P (FetchResolves (mkResponse true t (Some (mkBody cs Done)))) s =
    (if receivedError l then Failed else Finalized) /\
  sendMessage P (FetchResolves (mkResponse true t (Some (mkBody cs Done)))) s =
    mkSession (messages s ++ [mkMessage user (JStr (trim (input s))) None; m])
      [] false (-1).
Proof.
  intros Hl Hq E. apply eqb_neq in Hq.
  unfold sendMessage, sendMessageState. rewrite Hl, Hq.
  rewrite startRequest_solo, tryBlock_frame by apply solo_index.
  pose proof (streamed_events_outcome P t cs (solo pendingMessage)) as Ho.
  rewrite E in Ho.
  destruct (tryBlock P _ (solo pendingMessage)) as [l' s'|e' s']; cbn [outcome] in Ho;
    [|discriminate].
  assert (Hf : flagsOf l' = flagsOf l) by congruence.
  assert (Hs : s' = solo m) by congruence. subst s'.
  apply flagsOf_eq in Hf as (_ & He & _).
  cbn [frameC requestState finishRequest]. rewrite He. split; [reflexivity|].
  unfold frame, solo. cbn [messages input]. now rewrite <- app_assoc.
Qed.

(** ** C10: an empty delta is a chunk *)

(** C10. A body whose lines give exactly one event, an answer chunk whose
    delta is absent or the empty string, and that is read to its end: the
    fallback is not applied, the request is Finalized and the content of
    its assistant entry is the empty string (the placeholder is
    cleared). *)
Theorem C10_empty_delta_counts (P : jsstring -> option JValue) (t : option jsstring)
    (cs : list (list N)) (s : Session) (e : JValue) :
  isLoading s = false ->
  trim (input s) <> [] ->
  streamEvents P cs = [e] ->
  eventKind e = KChunk ->
  get e (lit "delta") = None \/ get e (lit "delta") = Some (JStr []) ->
  let f := FetchResolves (mkResponse true t (Some (mkBody cs Done))) in
  sendMessageState P f s = Finalized /\
  sendMessage P f s =
    mkSession
      (messages s ++ [mkMessage user (JStr (trim (input s))) None;
                      mkMessage assistant (JStr []) (Some (JArr []))])
      [] false (-1).
Proof.
  intros Hl Hq Hev Hk Hd f.
  apply (sendMessage_streamed P t cs s (markChunk initialLocal)
           (mkMessage assistant (JStr []) (Some (JArr []))) Hl Hq).
  rewrite Hev. unfold applyStream. cbn [runEvents]. unfold handleEvent.
  cbn [shouldAbort initialLocal]. rewrite dispatch_kind, Hk.
  assert (D : orElse (get e (lit "delta")) (JStr []) = JStr [])
    by (destruct Hd as [-> | ->]; reflexivity).
  rewrite D. reflexivity.
Qed.

Lemma C10_empty_delta_counts_witness :
  sendMessageState parseDemo
    (FetchResolves (mkResponse true None (Some (mkBody [lit "c"; lit ":" ++ [10]] Done))))
    (setInput (lit "hi") initialSession) = Finalized /\
  sendMessage parseDemo
    (FetchResolves (mkResponse true None (Some (mkBody [lit "c"; lit ":" ++ [10]] Done))))
    (setInput (lit "hi") initialSession) =
    mkSession
      (messages initialSession ++ [mkMessage user (JStr (lit "hi")) None;
                                   mkMessage assistant (JStr []) (Some (JArr []))])
      [] false (-1).
Proof.
  apply (C10_empty_delta_counts parseDemo None [lit "c"; lit ":" ++ [10]]
           (setInput (lit "hi") initialSession) (chunkEvent [])).
  - reflexivity.
  - discriminate.
  - reflexivity.
  - reflexivity.
  - right. reflexivity.
Defined.

(** ** C8: the end of the stream *)





(** ** C4: the error event *)

(** C4 (amended). In a body whose lines give an error event after answer
    chunks with deltas that can be converted to strings, references events
    and events of unknown type, the request is Failed; the content of its
    assistant entry is the message of the event, or the default text "Chat
    failed. Please retry." when the message is absent, empty or otherwise
    falsy; the reference list is empty; and whatever follows the error
    event in the body changes nothing. *)
Theorem C4_error_event (P : jsstring -> option JValue) (t : option jsstring)
    (cs : list (list N)) (s : Session) (pre post : list JValue) (e : JValue) :
  isLoading s = false ->
  trim (input s) <> [] ->
  streamEvents P cs = pre ++ e :: post ->
  Forall benign pre ->
  eventKind e = KError ->
  let f := FetchResolves (mkResponse true t (Some (mkBody cs Done))) in
  let text := orElse (get e (lit "message")) (JStr (lit "Chat failed. Please retry.")) in
  sendMessageState P f s = Failed /\
  sendMessage P f s =
    mkSession
      (messages s ++ [mkMessage user (JStr (trim (input s))) None;
                      mkMessage assistant text (Some (JArr []))])
      [] false (-1) /\
  (forall m, get e (lit "message") = Some (JStr m) ->
     text = JStr (if JsString.eqb m [] then lit "Chat failed. Please retry." else m)) /\
  (forall t' cs' post', streamEvents P cs' = pre ++ e :: post' ->
     sendMessage P (FetchResolves (mkResponse true t' (Some (mkBody cs' Done)))) s =
     sendMessage P f s).
Proof.
  intros Hl Hq Hev Hpre Hk f text.
  destruct (runEvents_applyEvent pre initialLocal pendingMessage eq_refl Hpre
              pendingMessage_textual) as (l' & E & Ha & _ & _).
  assert (Ev : forall tail,
            applyStream (pre ++ e :: tail) (solo pendingMessage) =
            Normal (markError l') (solo (mkMessage assistant text (Some (JArr []))))).
  { intro tail. unfold applyStream. rewrite runEvents_app, E. cbn [bind runEvents].
    unfold handleEvent at 1. rewrite Ha, dispatch_kind, Hk, patch_solo. cbn [bind].
    rewrite runEvents_aborted by reflexivity. cbn [bind].
    unfold emptyResultFallback. cbn [markError receivedError negb].
    rewrite andb_false_r. unfold withText. now rewrite fold_applyEvent_role. }
  assert (Hsend : forall t' cs' post', streamEvents P cs' = pre ++ e :: post' ->
            sendMessageState P
              (FetchResolves (mkResponse true t' (Some (mkBody cs' Done)))) s = Failed /\
            sendMessage P (FetchResolves (mkResponse true t' (Some (mkBody cs' Done)))) s =
              mkSession
                (messages s ++ [mkMessage user (JStr (trim (input s))) None;
                                mkMessage assistant text (Some (JArr []))])
                [] false (-1)).
  { intros t' cs' post' Hev'.
    apply (sendMessage_streamed P t' cs' s (markError l') _ Hl Hq).
    rewrite Hev'. apply Ev. }
  destruct (Hsend t cs post Hev) as [H1 H2].
  split; [exact H1|]. split; [exact H2|]. split.
  - intros m Hm. subst text. rewrite Hm. cbn [orElse truthy].
    destruct (JsString.eqb m []); reflexivity.
  - intros t' cs' post' Hev'. destruct (Hsend t' cs' post' Hev') as [_ H3].
    subst f. now rewrite H2, H3.
Qed.

Lemma C4_error_event_witness :
  sendMessageState parseDemo
    (FetchResolves (mkResponse true None
       (Some (mkBody [lit "c:partial" ++ [10] ++ lit "e:backend";
                      lit " down" ++ [10] ++ lit "c:late" ++ [10]] Done))))
    (setInput (lit "hi") initialSession) = Failed /\
  sendMessage parseDemo
    (FetchResolves (mkResponse true None
       (Some (mkBody [lit "c:partial" ++ [10] ++ lit "e:backend";
                      lit " down" ++ [10] ++ lit "c:late" ++ [10]] Done))))
    (setInput (lit "hi") initialSession) =
    mkSession
      (messages initialSession ++
         [mkMessage user (JStr (lit "hi")) None;
          mkMessage assistant (JStr (lit "backend down")) (Some (JArr []))])
      [] false (-1).
Proof.
  destruct (C4_error_event parseDemo None
              [lit "c:partial" ++ [10] ++ lit "e:backend";
               lit " down" ++ [10] ++ lit "c:late" ++ [10]]
              (setInput (lit "hi") initialSession)
              [chunkEvent (lit "partial")] [chunkEvent (lit "late")]
              (errorEvent (lit "backend down")))
    as (H1 & H2 & _).
  - reflexivity.
  - discriminate.
  - reflexivity.
  - constructor; [vm_compute; discriminate|constructor].
  - reflexivity.
  - split; [exact H1|exact H2].
Defined.

(** C4, as stated, fails.  For the empty message the content is the
    default text, not the message of the event.  And an error event that
    follows an answer chunk whose delta cannot be converted to a string is
    never dispatched: [appendAssistantDelta] throws on the chunk and the
    content is the text of the [catch] block, not the message "m". *)
Lemma C4_counterexample_empty_message :
  (streamEvents parseDemo [lit "e:" ++ [10]] = [errorEvent []] /\
   messages
     (sendMessage parseDemo
        (FetchResolves (mkResponse true None (Some (mkBody [lit "e:" ++ [10]] Done))))
        (setInput (lit "hi") initialSession)) =
     messages initialSession ++ [mkMessage user (JStr (lit "hi")) None;
      mkMessage assistant (JStr (lit "Chat failed. Please retry.")) (Some (JArr []))] /\
   JStr (lit "Chat failed. Please retry.") <> JStr []) /\
  (streamEvents parseOpaque [lit "o" ++ [10] ++ lit "e:m" ++ [10]] =
     [opaqueChunk; errorEvent (lit "m")] /\
   messages
     (sendMessage parseOpaque
        (FetchResolves (mkResponse true None
           (Some (mkBody [lit "o" ++ [10] ++ lit "e:m" ++ [10]] Done))))
        (setInput (lit "hi") initialSession)) =
     messages initialSession ++ [mkMessage user (JStr (lit "hi")) None; failedMessage] /\
   failedMessage <> mkMessage assistant (JStr (lit "m")) (Some (JArr []))).
Proof. repeat split; discriminate. Qed.

(** ** Events of unknown type *)

Lemma bind_ext c k1 k2 : (forall l s, k1 l s = k2 l s) -> bind c k1 = bind c k2.
Proof. intro H. destruct c; [apply H|reflexivity]. Qed.

Lemma processEventLine_withoutUnknown P line l s :
  processEventLine (withoutUnknown P) line l s = processEventLine P line l s.
Proof.
  unfold processEventLine, withoutUnknown.
  destruct (JsString.eqb line [] || shouldAbort l); [reflexivity|].
  destruct (P line) as [e|]; [|reflexivity].
  destruct (eventKind e) eqn:Ek; try reflexivity.
  now rewrite dispatch_kind, Ek.
Qed.

Lemma forEachLine_withoutUnknown P lines l s :
  forEachLine (withoutUnknown P) lines l s = forEachLine P lines l s.
Proof.
  revert l s. induction lines as [|line lines IH]; intros l s; [reflexivity|].
  cbn [forEachLine]. rewrite processEventLine_withoutUnknown. now apply bind_ext.
Qed.

Lemma readLoop_withoutUnknown P cs e l s :
  readLoop (withoutUnknown P) cs e l s = readLoop P cs e l s.
Proof.
  revert l s. induction cs as [|v cs IH]; intros l s; [reflexivity|].
  cbn [readLoop]. destruct (TextDecoder.decode (decoder l) v) as [d decoded].
  destruct (popLine _) as [rest lines].
  rewrite forEachLine_withoutUnknown. apply bind_ext. intros l2 s2.
  destruct (shouldAbort l2); [reflexivity|apply IH].
Qed.

Lemma tryBlock_withoutUnknown P f s :
  tryBlock (withoutUnknown P) f s = tryBlock P f s.
Proof.
  destruct f as [|r]; [reflexivity|]. cbn [tryBlock].
  destruct (negb (ok r)); [reflexivity|].
  destruct (responseBody r) as [b|]; [|reflexivity].
  rewrite readLoop_withoutUnknown. apply bind_ext. intros l s'.
  unfold afterLoop, flushBuffer.
  now rewrite processEventLine_withoutUnknown.
Qed.

(** X18. A line that [JSON.parse] reads as a value other than [null] whose
    type is none of the three the dispatcher knows (an object with another
    or no [type], a number, a string, a boolean, an array) is ignored like
    a line that [JSON.parse] rejects: whatever the transport does, the
    request leaves the same conversation and ends in the same state as if
    the parser had rejected these lines. *)
Theorem unknown_events_ignored (P : jsstring -> option JValue) (f : Fetch) (s : Session) :
  sendMessage (withoutUnknown P) f s = sendMessage P f s /\
  sendMessageState (withoutUnknown P) f s = sendMessageState P f s.
Proof.
  unfold sendMessage, sendMessageState.
  destruct (isLoading s); [now split|].
  destruct (JsString.eqb (trim (input s)) []); [now split|].
  now rewrite tryBlock_withoutUnknown.
Qed.
